(** * CachyDB storage engine: collections, indexes, queries, binary file, WAL

    A shallow embedding of [pkg/db] (Go) and the properties of its
    specification.  Go maps are [gmap]s; a [range] loop over a Go map visits
    the entries in an unspecified order, so every loop whose outcome can
    depend on that order takes the visiting order as an explicit list
    ([visits]).  Pointers to documents and indexes held in the collection
    maps are modelled by the map entry itself: a mutation through the
    pointer is a write to the entry. *)

From Stdlib Require Import ZArith String Ascii List Lia.
From stdpp Require Import gmap strings list fin_maps pretty.

Open Scope string_scope.
Open Scope Z_scope.

(** ** Dynamic values ([any]) *)

(** The values a document field or a filter operand can hold.  A [VObj] is a
    [map[string]any] listed in ascending key order, which is the order in
    which [fmt] prints it.  [VInt] is a value of one of Go's integer types,
    which [%v] prints in decimal.  A [float64] is not among the values
    modelled: [%v] prints it in the shortest [%g] form, with an exponent
    from 1e+06 on, and every number decoded from JSON is one. *)
#[warnings="-register-all"]
Inductive Value : Type :=
  | VNil : Value
  | VBool : bool -> Value
  | VInt : Z -> Value
  | VStr : string -> Value
  | VArr : list Value -> Value
  | VObj : list (string * Value) -> Value.

Fixpoint join_sp (l : list string) : string :=
  match l with
  | [] => ""
  | [s] => s
  | s :: rest => s ++ " " ++ join_sp rest
  end.

(** [fmt.Sprintf("%v", v)] *)
Fixpoint Sprintf_v (v : Value) : string :=
  match v with
  | VNil => "<nil>"
  | VBool b => if b then "true" else "false"
  | VInt z => pretty z
  | VStr s => s
  | VArr l => "[" ++ join_sp (List.map Sprintf_v l) ++ "]"
  | VObj l =>
      "map[" ++ join_sp (List.map (fun kv => fst kv ++ ":" ++ Sprintf_v (snd kv)) l) ++ "]"
  end.

(** [strings.Compare]: -1, 0 or +1 by byte-wise lexicographic order. *)
Definition strings_Compare (a b : string) : Z :=
  match String.compare a b with
  | Lt => -1
  | Eq => 0
  | Gt => 1
  end.

(** ** Documents, schemas, indexes, collections *)

Record Document : Type := mkDocument {
  ID : string;
  Data : gmap string Value
}.

(** Modelled from the spec: [Document.GetValue], whose file is absent from
    the sources.  The reserved field [_id] reads the document id (the
    automatic [_id] index is built through it and covers every document);
    any other field is looked up in [Data]. *)
Definition GetValue (d : Document) (field : string) : option Value :=
  if decide (field = "_id") then Some (VStr (ID d)) else Data d !! field.

(** Modelled from the spec: [Document.Clone], a deep copy.  Values are
    immutable here, so the copy is the value itself. *)
Definition Clone (d : Document) : Document := mkDocument (ID d) (Data d).

Definition FieldType : Type := string.

Record Field : Type := mkField {
  Type_ : FieldType;
  Required : bool
}.

Record Schema : Type := mkSchema {
  Fields : gmap string Field
}.

Record Index : Type := mkIndex {
  idx_Name : string;
  FieldName : string;
  idx_Data : gmap string string
}.

Record Collection : Type := mkCollection {
  coll_Name : string;
  coll_Schema : option Schema;
  Documents : gmap string Document;
  Indexes : gmap string Index
}.

(** Modelled from the spec: [NewIndex], an index with no entries. *)
Definition NewIndex (name field : string) : Index := mkIndex name field ∅.

(** Modelled from the spec: [NewCollection], an empty collection that
    carries the automatic [_id] index. *)
Definition NewCollection (name : string) (schema : option Schema) : Collection :=
  mkCollection name schema ∅ {[ "_id" := NewIndex "_id" "_id" ]}.

Inductive error : Type :=
  | ErrDocExists : string -> error
  | ErrDocNotFound : string -> error
  | ErrRequiredMissing : string -> error
  | ErrInvalidType : string -> FieldType -> error
  | ErrSchemaValidation : error -> error
  | ErrUpdateIndexes : error -> error
  | ErrUpdateId : error
  | ErrIndexExists : string -> error
  | ErrAddToIndex : error -> error
  | ErrDropIdIndex : error
  | ErrIndexNotExist : string -> error.

(** A list is a visiting order of a Go map when it enumerates the entries of
    the map, each key once. *)
Definition visits {A : Type} (m : gmap string A) (order : list (string * A)) : Prop :=
  NoDup order.*1 ∧ list_to_map order = m.

(** ** Index operations (index.go) *)

Definition AddToIndex (idx : Index) (doc : Document) : Index * option error :=
  match GetValue doc (FieldName idx) with
  | None => (idx, None)
  | Some value =>
      let key := Sprintf_v value in
      (mkIndex (idx_Name idx) (FieldName idx) (<[key := ID doc]> (idx_Data idx)), None)
  end.

Definition RemoveFromIndex (idx : Index) (doc : Document) : Index * option error :=
  match GetValue doc (FieldName idx) with
  | None => (idx, None)
  | Some value =>
      let key := Sprintf_v value in
      (mkIndex (idx_Name idx) (FieldName idx) (delete key (idx_Data idx)), None)
  end.

Definition Index_Find (idx : Index) (value : Value) : option string :=
  idx_Data idx !! Sprintf_v value.

(** One iteration of the loop of [updateIndexes] on one index. *)
Definition updateIndex (idx : Index) (oldDoc newDoc : option Document) : Index * option error :=
  let '(idx1, e1) :=
    match oldDoc with
    | Some o => RemoveFromIndex idx o
    | None => (idx, None)
    end in
  match e1 with
  | Some e => (idx1, Some e)
  | None =>
      match newDoc with
      | Some n => AddToIndex idx1 n
      | None => (idx1, None)
      end
  end.

(** The loop of [updateIndexes] over the indexes in visiting order; it
    leaves at the first error, the indexes visited so far already changed. *)
Fixpoint updateIndexes_loop (order : list (string * Index)) (idxs : gmap string Index)
    (oldDoc newDoc : option Document) : gmap string Index * option error :=
  match order with
  | [] => (idxs, None)
  | (name, idx) :: rest =>
      match updateIndex idx oldDoc newDoc with
      | (idx', Some e) => (<[name := idx']> idxs, Some e)
      | (idx', None) => updateIndexes_loop rest (<[name := idx']> idxs) oldDoc newDoc
      end
  end.

Definition updateIndexes (c : Collection) (oldDoc newDoc : option Document)
    : Collection * option error :=
  let '(idxs, e) := updateIndexes_loop (map_to_list (Indexes c)) (Indexes c) oldDoc newDoc in
  (mkCollection (coll_Name c) (coll_Schema c) (Documents c) idxs, e).

(** The loop of [CreateIndex] over the documents in visiting order. *)
Fixpoint buildIndex (order : list (string * Document)) (idx : Index) : Index * option error :=
  match order with
  | [] => (idx, None)
  | (_, doc) :: rest =>
      match AddToIndex idx doc with
      | (idx', Some e) => (idx', Some (ErrAddToIndex e))
      | (idx', None) => buildIndex rest idx'
      end
  end.

Definition CreateIndex (docOrder : list (string * Document)) (c : Collection)
    (indexName fieldName : string) : Collection * option error :=
  match Indexes c !! indexName with
  | Some _ => (c, Some (ErrIndexExists indexName))
  | None =>
      match buildIndex docOrder (NewIndex indexName fieldName) with
      | (_, Some e) => (c, Some e)
      | (idx, None) =>
          (mkCollection (coll_Name c) (coll_Schema c) (Documents c)
             (<[indexName := idx]> (Indexes c)), None)
      end
  end.

Definition DropIndex (c : Collection) (indexName : string) : Collection * option error :=
  if decide (indexName = "_id") then (c, Some ErrDropIdIndex)
  else match Indexes c !! indexName with
       | None => (c, Some (ErrIndexNotExist indexName))
       | Some _ =>
           (mkCollection (coll_Name c) (coll_Schema c) (Documents c)
              (delete indexName (Indexes c)), None)
       end.

(** ** Queries (query.go) *)

Record QueryFilter : Type := mkQueryFilter {
  Field_ : string;
  Operator : string;
  Value_ : Value
}.

Record Query : Type := mkQuery {
  Filters : list QueryFilter;
  Limit : Z;
  Skip : Z
}.

Definition compareValues (a b : Value) : Z :=
  let aStr := Sprintf_v a in
  let bStr := Sprintf_v b in
  strings_Compare aStr bStr.

(** The loop of the [in] case: is some item of the array printed like the
    document value? *)
Fixpoint inArray (arr : list Value) (valueStr : string) : bool :=
  match arr with
  | [] => false
  | item :: rest =>
      if decide (Sprintf_v item = valueStr) then true else inArray rest valueStr
  end.

Definition matchesFilter (doc : Document) (filter : QueryFilter) : bool :=
  match GetValue doc (Field_ filter) with
  | None => false
  | Some value =>
      let op := Operator filter in
      if decide (op = "eq") then
        bool_decide (Sprintf_v value = Sprintf_v (Value_ filter))
      else if decide (op = "ne") then
        negb (bool_decide (Sprintf_v value = Sprintf_v (Value_ filter)))
      else if decide (op = "gt") then
        bool_decide (compareValues value (Value_ filter) > 0)
      else if decide (op = "gte") then
        bool_decide (compareValues value (Value_ filter) >= 0)
      else if decide (op = "lt") then
        bool_decide (compareValues value (Value_ filter) < 0)
      else if decide (op = "lte") then
        bool_decide (compareValues value (Value_ filter) <= 0)
      else if decide (op = "in") then
        match Value_ filter with
        | VArr arr => inArray arr (Sprintf_v value)
        | _ => false
        end
      else false
  end.

Fixpoint matchesAllFilters (doc : Document) (filters : list QueryFilter) : bool :=
  match filters with
  | [] => true
  | filter :: rest =>
      if negb (matchesFilter doc filter) then false else matchesAllFilters doc rest
  end.

(** Outcome of the loop of [Find] over the indexes. *)
Inductive IndexProbe : Type :=
  | ProbeHit : Document -> IndexProbe    (* [break] with one candidate *)
  | ProbeMiss : IndexProbe               (* [return results, nil]: no match *)
  | ProbeNone : IndexProbe.              (* loop ran to its end, [indexFound] false *)

Fixpoint probeIndexes (idxOrder : list (string * Index)) (docs : gmap string Document)
    (firstFilter : QueryFilter) : IndexProbe :=
  match idxOrder with
  | [] => ProbeNone
  | (_, idx) :: rest =>
      if decide (FieldName idx = Field_ firstFilter) then
        match Index_Find idx (Value_ firstFilter) with
        | Some docID =>
            match docs !! docID with
            | Some doc => ProbeHit doc
            | None => probeIndexes rest docs firstFilter
            end
        | None => ProbeMiss
        end
      else probeIndexes rest docs firstFilter
  end.

(** The scan loops: clones of the visited documents that pass [keep]. *)
Definition scan (docOrder : list (string * Document)) (keep : Document -> bool)
    : list Document :=
  List.map Clone (List.filter keep (List.map snd docOrder)).

(** [results[skip:]] and [results[:limit]] as [Find] applies them. *)
Definition applySkipLimit (q : Query) (results : list Document) : list Document :=
  let afterSkip :=
    if decide (Skip q > 0) then
      if decide (Skip q >= Z.of_nat (length results)) then None
      else Some (drop (Z.to_nat (Skip q)) results)
    else Some results in
  match afterSkip with
  | None => []
  | Some results =>
      if decide (Limit q > 0 ∧ Limit q < Z.of_nat (length results))
      then take (Z.to_nat (Limit q)) results
      else results
  end.

(** [Collection.Find]; its error result is [nil] on every path and is left
    out.  [idxOrder] and [docOrder] are the orders in which the two [range]
    loops of this call visit [c.Indexes] and [c.Documents]. *)
Definition Find (idxOrder : list (string * Index)) (docOrder : list (string * Document))
    (c : Collection) (query : Query) : list Document :=
  match Filters query with
  | [] => applySkipLimit query (scan docOrder (fun _ => true))
  | firstFilter :: _ =>
      if decide (Operator firstFilter = "eq") then
        match probeIndexes idxOrder (Documents c) firstFilter with
        | ProbeMiss => []
        | ProbeHit doc =>
            applySkipLimit query
              (List.map Clone
                 (List.filter (fun d => matchesAllFilters d (Filters query)) [doc]))
        | ProbeNone =>
            applySkipLimit query
              (scan docOrder (fun d => matchesAllFilters d (Filters query)))
        end
      else
        applySkipLimit query
          (scan docOrder (fun d => matchesAllFilters d (Filters query)))
  end.

Definition FindByID (c : Collection) (id : string) : option Document :=
  match Documents c !! id with
  | None => None
  | Some doc => Some (Clone doc)
  end.

Definition Count (c : Collection) : Z := Z.of_nat (size (Documents c)).

(** ** Schema validation and the mutating operations (query.go) *)

Definition setDocuments (c : Collection) (docs : gmap string Document) : Collection :=
  mkCollection (coll_Name c) (coll_Schema c) docs (Indexes c).

Section Engine.

(** [ValidateType] belongs to the schema file, absent from the sources; the
    operations below only branch on its verdict. *)
Variable ValidateType : Value -> FieldType -> bool.

(** The loop of [ValidateDocument] over the schema fields in visiting
    order, leaving at the first violation. *)
Fixpoint validateFields (order : list (string * Field)) (doc : Document) : option error :=
  match order with
  | [] => None
  | (fieldName, field) :: rest =>
      match GetValue doc fieldName with
      | None =>
          if Required field then Some (ErrRequiredMissing fieldName)
          else validateFields rest doc
      | Some value =>
          if negb (ValidateType value (Type_ field))
          then Some (ErrInvalidType fieldName (Type_ field))
          else validateFields rest doc
      end
  end.

Definition ValidateDocument (s : Schema) (doc : Document) : option error :=
  validateFields (map_to_list (Fields s)) doc.

Definition validateAgainst (schema : option Schema) (doc : Document) : option error :=
  match schema with
  | None => None
  | Some s => ValidateDocument s doc
  end.

(** The first step of [Insert]: a document without id receives [uuid],
    the identifier drawn by [uuid.New()]. *)
Definition withID (uuid : string) (doc : Document) : Document :=
  if decide (ID doc = "") then mkDocument uuid (Data doc) else doc.

(** [Collection.Insert] *)
Definition Insert (uuid : string) (c : Collection) (doc0 : Document)
    : Collection * option error :=
  let doc := withID uuid doc0 in
  match Documents c !! ID doc with
  | Some _ => (c, Some (ErrDocExists (ID doc)))
  | None =>
      match validateAgainst (coll_Schema c) doc with
      | Some e => (c, Some (ErrSchemaValidation e))
      | None =>
          let c1 := setDocuments c (<[ID doc := doc]> (Documents c)) in
          match updateIndexes c1 None (Some doc) with
          | (c2, Some e) =>
              (setDocuments c2 (delete (ID doc) (Documents c2)), Some (ErrUpdateIndexes e))
          | (c2, None) => (c2, None)
          end
      end
  end.

(** The loop of [Update] over the entries of [updates] in visiting order:
    every entry visited before an [_id] key has already been stored in the
    document when the loop returns the error. *)
Fixpoint applyUpdates (updates : list (string * Value)) (data : gmap string Value)
    : gmap string Value * option error :=
  match updates with
  | [] => (data, None)
  | (key, value) :: rest =>
      if decide (key = "_id") then (data, Some ErrUpdateId)
      else applyUpdates rest (<[key := value]> data)
  end.

(** [Collection.Update]; [updates] lists the entries of the Go map in the
    order the [range] loop visits them.  [doc] is the document stored in
    the collection, so the loop writes into [c.Documents[id]]. *)
Definition Update (c : Collection) (id : string) (updates : list (string * Value))
    : Collection * option error :=
  match Documents c !! id with
  | None => (c, Some (ErrDocNotFound id))
  | Some doc =>
      let oldDoc := Clone doc in
      let '(data', e) := applyUpdates updates (Data doc) in
      let doc' := mkDocument (ID doc) data' in
      let c1 := setDocuments c (<[id := doc']> (Documents c)) in
      match e with
      | Some e => (c1, Some e)
      | None =>
          match validateAgainst (coll_Schema c1) doc' with
          | Some e =>
              (setDocuments c1 (<[id := oldDoc]> (Documents c1)), Some (ErrSchemaValidation e))
          | None =>
              match updateIndexes c1 (Some oldDoc) (Some doc') with
              | (c2, Some e) =>
                  (setDocuments c2 (<[id := oldDoc]> (Documents c2)), Some (ErrUpdateIndexes e))
              | (c2, None) => (c2, None)
              end
          end
      end
  end.

Definition Delete (c : Collection) (id : string) : Collection * option error :=
  match Documents c !! id with
  | None => (c, Some (ErrDocNotFound id))
  | Some doc =>
      match updateIndexes c (Some doc) None with
      | (c1, Some e) => (c1, Some (ErrUpdateIndexes e))
      | (c1, None) => (setDocuments c1 (delete id (Documents c1)), None)
      end
  end.

(** States a collection can reach from a fresh one.  Every call counts,
    whatever it returns: the state it leaves is the next state. *)
Inductive reachable : Collection -> Prop :=
  | reach_new name schema :
      reachable (NewCollection name schema)
  | reach_Insert c uuid doc :
      reachable c -> reachable (Insert uuid c doc).1
  | reach_Update c id updates :
      reachable c -> NoDup updates.*1 -> reachable (Update c id updates).1
  | reach_Delete c id :
      reachable c -> reachable (Delete c id).1
  | reach_CreateIndex c docOrder indexName fieldName :
      reachable c -> visits (Documents c) docOrder ->
      reachable (CreateIndex docOrder c indexName fieldName).1
  | reach_DropIndex c indexName :
      reachable c -> reachable (DropIndex c indexName).1.

End Engine.

(** A type check that accepts everything, to run the operations on
    collections without a schema. *)
Definition acceptAll : Value -> FieldType -> bool := fun _ _ => true.

(** ** Binary collection file *)

Open Scope list_scope.

(** A byte is an integer in [0, 256); a file is its bytes. *)
Definition bytes : Type := list Z.

Definition blen (b : bytes) : Z := Z.of_nat (length b).

Definition uint16 (z : Z) : Z := z mod 2 ^ 16.
Definition uint32 (z : Z) : Z := z mod 2 ^ 32.
Definition uint64 (z : Z) : Z := z mod 2 ^ 64.
(** Conversion to [int64], two's complement. *)
Definition int64 (z : Z) : Z := (z + 2 ^ 63) mod 2 ^ 64 - 2 ^ 63.

(** The [n] low bytes of [z], least significant first. *)
Fixpoint le_bytes (n : nat) (z : Z) : bytes :=
  match n with
  | O => []
  | S n' => z mod 256 :: le_bytes n' (z / 256)
  end.

Fixpoint le_value (b : bytes) : Z :=
  match b with
  | [] => 0
  | x :: rest => x + 256 * le_value rest
  end.

(** [binary.LittleEndian] *)
Definition PutUint16 (v : Z) : bytes := le_bytes 2 v.
Definition PutUint32 (v : Z) : bytes := le_bytes 4 v.
Definition PutUint64 (v : Z) : bytes := le_bytes 8 v.
Definition Uint16 (b : bytes) : Z := le_value (take 2 b).
Definition Uint32 (b : bytes) : Z := le_value (take 4 b).

(** [b[lo:hi]] *)
Definition slice (b : bytes) (lo hi : nat) : bytes := take (hi - lo)%nat (drop lo b).

Definition CollectionMagic : Z := 0x43414348.
Definition BinaryFormatVersion : Z := 1.
Definition HeaderSize : Z := 8.
Definition DocEntryHeaderSize : Z := 20.

Record BinaryHeader : Type := mkBinaryHeader {
  Magic : Z;
  Version : Z;
  Flags : Z
}.

Record DocumentEntry : Type := mkDocumentEntry {
  Offset : Z;
  Size : Z;
  CompressedSize : Z;
  Checksum : Z
}.

(** [OffsetIndex.Entries] *)
Abbreviation OffsetIndex := (gmap string DocumentEntry).

(** The sidecar [collection.idx]: the entry count, then the entries in the
    order they were written.  The fixed-width encoding of the fields is not
    modelled; a field is stored as its value. *)
Record IdxFile : Type := mkIdxFile {
  numEntries : Z;
  records : list (string * DocumentEntry)
}.

(** [IndexData], the content of [indexes/<name>.json]. *)
Abbreviation IndexData := Index.

(** [collection.meta.json] *)
Record CollectionMeta : Type := mkCollectionMeta {
  meta_Name : string;
  meta_Schema : option Schema;
  meta_Indexes : gmap string string;
  meta_Format : string
}.

Definition FormatJSON : string := "json".
Definition FormatBinary : string := "binary".

(** The directory [<root>/<db>/<coll>/]: each file with its content, [None]
    when it does not exist.  [indexesDir] maps the stem of every
    [indexes/*.json] to its content. *)
Record CollDir : Type := mkCollDir {
  metaFile : option CollectionMeta;
  dataFile : option bytes;
  idxFile : option IdxFile;
  documentsFile : option (list Document);
  indexesDir : option (gmap string IndexData)
}.

Definition emptyDir : CollDir := mkCollDir None None None None None.

(** An open [os.File]: the bytes of the file and the position of the
    handle.  [Write] stores at the position, over what lies there, and
    advances it; a position beyond the end leaves a gap of zero bytes. *)
Record File : Type := mkFile {
  content : bytes;
  pos : nat
}.

Definition File_Write (f : File) (buf : bytes) : File :=
  mkFile (take (pos f) (content f) ++ replicate (pos f - length (content f)) 0 ++
          buf ++ drop (pos f + length buf)%nat (content f))
         (pos f + length buf)%nat.

(** [ReadAt(buf, off)] with [len(buf) = n]: the bytes, or an error when the
    file ends before [n] bytes were read or [off] is negative. *)
Definition File_ReadAt (b : bytes) (off : Z) (n : Z) : option bytes :=
  if decide (0 <= off ∧ (n = 0 ∨ (0 <= n ∧ off + n <= blen b)))
  then Some (take (Z.to_nat n) (drop (Z.to_nat off) b))
  else None.

Inductive ioerror : Type :=
  | ErrDataFileMissing
  | ErrReadHeader
  | ErrInvalidMagic : Z -> ioerror
  | ErrLoadIndex
  | ErrMarshal
  | ErrCompress
  | ErrEntryNotFound : string -> ioerror
  | ErrReadDocumentData
  | ErrChecksumMismatch : string -> ioerror
  | ErrDecompress
  | ErrUnmarshal
  | ErrSliceBounds                         (* run-time panic of [buf[20:]] *)
  | ErrReadAll : string -> ioerror -> ioerror
  | ErrLoadMetadata
  | ErrCreateReader : ioerror -> ioerror
  | ErrReadDocuments : ioerror -> ioerror
  | ErrWriteDocument : ioerror -> ioerror
  | ErrWriteIndexFile
  | ErrSaveIndex : string -> ioerror -> ioerror.

(** The loop of [LoadOffsetIndex]: [n] entries read in file order, each
    stored under its id; an error when the file ends early. *)
Fixpoint readEntries (n : nat) (recs : list (string * DocumentEntry)) (index : OffsetIndex)
    : option OffsetIndex :=
  match n with
  | O => Some index
  | S n' =>
      match recs with
      | [] => None
      | (docID, entry) :: rest => readEntries n' rest (<[docID := entry]> index)
      end
  end.

Definition LoadOffsetIndex (dir : CollDir) : option OffsetIndex :=
  match idxFile dir with
  | None => Some ∅
  | Some f => readEntries (Z.to_nat (numEntries f)) (records f) ∅
  end.

(** [SaveOffsetIndex]; the entries are written in the order of the map
    iteration, and [LoadOffsetIndex] rebuilds the same map from any order. *)
Definition SaveOffsetIndex (index : OffsetIndex) (dir : CollDir) : CollDir :=
  mkCollDir (metaFile dir) (dataFile dir)
    (Some (mkIdxFile (uint32 (Z.of_nat (size index))) (map_to_list index)))
    (documentsFile dir) (indexesDir dir).

Record BinaryCollectionWriter : Type := mkWriter {
  w_dataFile : File;
  w_offset : Z;
  w_index : OffsetIndex
}.

Record BinaryCollectionReader : Type := mkReader {
  r_dataFile : bytes;
  r_index : OffsetIndex
}.

Definition headerBytes : bytes :=
  PutUint32 CollectionMagic ++ PutUint16 BinaryFormatVersion ++ PutUint16 1.

Definition writeHeader (w : BinaryCollectionWriter) : BinaryCollectionWriter :=
  let f := File_Write (w_dataFile w) headerBytes in
  mkWriter f (blen headerBytes) (w_index w).

(** [NewBinaryCollectionWriter]: the data file is opened for reading and
    writing, neither truncated nor in append mode, so the handle starts at
    position 0 while [offset] starts at the size of the file. *)
Definition NewBinaryCollectionWriter (dir : CollDir) : BinaryCollectionWriter :=
  let existing := default [] (dataFile dir) in
  let writer := mkWriter (mkFile existing 0) (blen existing) ∅ in
  let writer := if decide (blen existing = 0) then writeHeader writer else writer in
  match LoadOffsetIndex dir with
  | Some existingIndex => mkWriter (w_dataFile writer) (w_offset writer) existingIndex
  | None => writer
  end.

Definition readHeader (f : bytes) : option BinaryHeader :=
  match File_ReadAt f 0 HeaderSize with
  | None => None
  | Some buf =>
      Some (mkBinaryHeader (Uint32 (slice buf 0 4)) (Uint16 (slice buf 4 6))
              (Uint16 (slice buf 6 8)))
  end.

Definition NewBinaryCollectionReader (dir : CollDir) : BinaryCollectionReader + ioerror :=
  match dataFile dir with
  | None => inr ErrDataFileMissing
  | Some f =>
      match readHeader f with
      | None => inr ErrReadHeader
      | Some header =>
          if decide (Magic header ≠ CollectionMagic) then inr (ErrInvalidMagic (Magic header))
          else match LoadOffsetIndex dir with
               | None => inr ErrLoadIndex
               | Some index => inl (mkReader f index)
               end
      end
  end.

(** A name that a POSIX file system with [NAME_MAX] = 255 takes, with the
    suffix [.json], as the name of a file of a directory: at most 250 bytes,
    none of them the path separator or NUL. *)
Definition plainFileName (stem : string) : bool :=
  (String.length stem <=? 250)%nat &&
  forallb (λ a, negb (Ascii.eqb a "/"%char) && negb (Ascii.eqb a "000"%char))
    (list_ascii_of_string stem).

Section Codec.

(** The checksum of [hash/crc32], the codec and the JSON form of a document
    belong to files absent from the sources; the writer and the reader only
    pass bytes through them. *)
Variable crc32_ChecksumIEEE : bytes -> Z.
Variable Compress : bytes -> option bytes.
Variable Decompress : bytes -> option bytes.
Variable MarshalJSON : Document -> option bytes.
Variable UnmarshalJSON : bytes -> option Document.

(** The 20 bytes written before the payload. *)
Definition entryHeader (offset : Z) (jsonData compressedData : bytes) : bytes :=
  PutUint64 (uint64 offset) ++ PutUint32 (uint32 (blen jsonData)) ++
  PutUint32 (uint32 (blen compressedData)) ++
  PutUint32 (crc32_ChecksumIEEE compressedData).

Definition WriteDocument (w : BinaryCollectionWriter) (doc : Document)
    : BinaryCollectionWriter + ioerror :=
  match MarshalJSON doc with
  | None => inr ErrMarshal
  | Some jsonData =>
      match Compress jsonData with
      | None => inr ErrCompress
      | Some compressedData =>
          let checksum := crc32_ChecksumIEEE compressedData in
          let entryBuf := entryHeader (w_offset w) jsonData compressedData in
          let f := File_Write (File_Write (w_dataFile w) entryBuf) compressedData in
          let entry := mkDocumentEntry (w_offset w) (uint32 (blen jsonData))
                         (uint32 (blen compressedData)) checksum in
          inl (mkWriter f
                 (int64 (w_offset w + int64 (DocEntryHeaderSize + blen compressedData)))
                 (<[ID doc := entry]> (w_index w)))
      end
  end.

Definition ReadDocument (r : BinaryCollectionReader) (docID : string) : Document + ioerror :=
  match r_index r !! docID with
  | None => inr (ErrEntryNotFound docID)
  | Some entry =>
      let n := uint32 (DocEntryHeaderSize + CompressedSize entry) in
      match File_ReadAt (r_dataFile r) (Offset entry) n with
      | None => inr ErrReadDocumentData
      | Some buf =>
          if decide (n < DocEntryHeaderSize) then inr ErrSliceBounds
          else
            let compressedData := drop (Z.to_nat DocEntryHeaderSize) buf in
            let checksum := crc32_ChecksumIEEE compressedData in
            if decide (checksum ≠ Checksum entry) then inr (ErrChecksumMismatch docID)
            else match Decompress compressedData with
                 | None => inr ErrDecompress
                 | Some jsonData =>
                     match UnmarshalJSON jsonData with
                     | None => inr ErrUnmarshal
                     | Some doc => inl doc
                     end
                 end
      end
  end.

(** The loop of [ReadAllDocuments] over the ids of the offset index in
    visiting order. *)
Fixpoint readAll (r : BinaryCollectionReader) (ids : list string) : list Document + ioerror :=
  match ids with
  | [] => inl []
  | docID :: rest =>
      match ReadDocument r docID with
      | inr e => inr (ErrReadAll docID e)
      | inl doc =>
          match readAll r rest with
          | inr e => inr e
          | inl docs => inl (doc :: docs)
          end
      end
  end.

Definition ReadAllDocuments (entryOrder : list (string * DocumentEntry))
    (r : BinaryCollectionReader) : list Document + ioerror :=
  readAll r entryOrder.*1.

(** The loop of [SaveCollection] that writes the documents in visiting
    order; at an error the writer keeps what it wrote so far. *)
Fixpoint writeAll (w : BinaryCollectionWriter) (docOrder : list (string * Document))
    : BinaryCollectionWriter * option ioerror :=
  match docOrder with
  | [] => (w, None)
  | (_, doc) :: rest =>
      match WriteDocument w doc with
      | inr e => (w, Some (ErrWriteDocument e))
      | inl w' => writeAll w' rest
      end
  end.

(** [Flush]: the bytes written through the handle are in the data file, and
    the offset index of the writer replaces the sidecar. *)
Definition Flush (w : BinaryCollectionWriter) (dir : CollDir) : CollDir :=
  SaveOffsetIndex (w_index w)
    (mkCollDir (metaFile dir) (Some (content (w_dataFile w))) (idxFile dir)
       (documentsFile dir) (indexesDir dir)).

(** [os.WriteFile] on the path [indexes/<Name>.json] for a [Name] that is
    not a plain file name.  [filepath.Join] cleans the path, which then lies
    in a directory that may not exist or outside [indexes/]; what the file
    system makes of it is left open.  The path ends in [.json], so it is
    neither the data file nor the sidecar. *)
Variable WriteFile_elsewhere : Index -> CollDir -> CollDir * option ioerror.

(** [Index.SaveToDisk]: the index is written to [indexes/<Name>.json]. *)
Definition SaveToDisk (idx : Index) (dir : CollDir) : CollDir * option ioerror :=
  if plainFileName (idx_Name idx) then
    (mkCollDir (metaFile dir) (dataFile dir) (idxFile dir) (documentsFile dir)
       (Some (<[idx_Name idx := idx]> (default ∅ (indexesDir dir)))), None)
  else
    let r := WriteFile_elsewhere idx dir in
    (mkCollDir (metaFile r.1) (dataFile dir) (idxFile dir) (documentsFile r.1)
       (indexesDir r.1), r.2).

(** The loop of [SaveCollection] that saves the indexes in visiting order;
    the first index that cannot be written ends it. *)
Fixpoint saveIndexes (idxOrder : list (string * Index)) (dir : CollDir)
    : CollDir * option ioerror :=
  match idxOrder with
  | [] => (dir, None)
  | (_, idx) :: rest =>
      match SaveToDisk idx dir with
      | (dir', Some e) => (dir', Some (ErrSaveIndex (idx_Name idx) e))
      | (dir', None) => saveIndexes rest dir'
      end
  end.

(** [StorageManager.SaveCollection] on the directory of the collection;
    [format] is [sm.Format].  The deferred [Close] flushes the writer on
    every return. *)
Definition SaveCollection (format : string) (docOrder : list (string * Document))
    (idxOrder : list (string * Index)) (dir : CollDir) (coll : Collection)
    : CollDir * option ioerror :=
  let meta := mkCollectionMeta (coll_Name coll) (coll_Schema coll)
                (FieldName <$> Indexes coll) format in
  let dir := mkCollDir (Some meta) (dataFile dir) (idxFile dir) (documentsFile dir)
               (indexesDir dir) in
  if decide (format = FormatBinary) then
    let writer := NewBinaryCollectionWriter dir in
    match writeAll writer docOrder with
    | (w, Some e) => (Flush w dir, Some e)
    | (w, None) => saveIndexes idxOrder (Flush w dir)
    end
  else
    (mkCollDir (metaFile dir) (dataFile dir) (idxFile dir) (Some docOrder.*2)
       (indexesDir dir), None).

(** The loops of [LoadCollection] that store the documents read and rebuild
    an index from them. *)
Definition storeAll (docs : list Document) (m : gmap string Document) : gmap string Document :=
  fold_left (λ acc doc, <[ID doc := doc]> acc) docs m.

(** For an index on a field whose printed values differ from document to
    document, as the ids do, the outcome is the same in every order. *)
Definition addAll (idx : Index) (docs : gmap string Document) : Index :=
  map_fold (λ _ doc acc, (AddToIndex acc doc).1) idx docs.

Definition setIndexes (c : Collection) (idxs : gmap string Index) : Collection :=
  mkCollection (coll_Name c) (coll_Schema c) (Documents c) idxs.

Definition rebuildIdIndex (c : Collection) : Collection :=
  match Indexes c !! "_id" with
  | None => c                              (* never the case after [NewCollection] *)
  | Some idx => setIndexes c (<["_id" := addAll idx (Documents c)]> (Indexes c))
  end.

(** [StorageManager.LoadCollection].  Every error of the reader, the missing
    data file included, fails [os.IsNotExist] and is returned. *)
Definition LoadCollection (entryOrder : list (string * DocumentEntry)) (dir : CollDir)
    : Collection + ioerror :=
  match metaFile dir with
  | None => inr ErrLoadMetadata
  | Some meta =>
      let format := if decide (meta_Format meta = "") then FormatJSON else meta_Format meta in
      let coll := NewCollection (meta_Name meta) (meta_Schema meta) in
      if decide (format = FormatBinary) then
        match NewBinaryCollectionReader dir with
        | inr e => inr (ErrCreateReader e)
        | inl reader =>
            match ReadAllDocuments entryOrder reader with
            | inr e => inr (ErrReadDocuments e)
            | inl docs =>
                let coll := setDocuments coll (storeAll docs (Documents coll)) in
                let indexes := default ∅ (indexesDir dir) in
                let coll := setIndexes coll (indexes ∪ Indexes coll) in
                if decide (is_Some (indexes !! "_id")) then inl coll
                else inl (rebuildIdIndex coll)
            end
        end
      else
        let docs := default [] (documentsFile dir) in
        let coll := setDocuments coll (storeAll docs (Documents coll)) in
        let recreated :=
          map_imap (λ indexName fieldName,
                      if decide (indexName ≠ "_id")
                      then Some (addAll (NewIndex indexName fieldName) (Documents coll))
                      else None) (meta_Indexes meta) in
        let coll := setIndexes coll (recreated ∪ Indexes coll) in
        if decide (is_Some (meta_Indexes meta !! "_id")) then inl (rebuildIdIndex coll)
        else inl coll
  end.

End Codec.

(** A stand-in codec to run the file operations on examples: a position
    weighted byte sum as checksum, payloads stored as they are, and a
    document without fields written as the bytes of its id.  A name that
    is not a plain file name is refused. *)
Definition sum32 (b : bytes) : Z :=
  fold_right (λ x acc, uint32 (x + 31 * acc)) 0 b.

Definition storeRaw (b : bytes) : option bytes := Some b.

Definition refuseWrite (idx : Index) (dir : CollDir) : CollDir * option ioerror :=
  (dir, Some ErrWriteIndexFile).





Definition idBytes (d : Document) : option bytes :=
  Some (List.map (λ a, Z.of_N (N_of_ascii a)) (list_ascii_of_string (ID d))).

Definition idDocument (b : bytes) : option Document :=
  Some (mkDocument (string_of_list_ascii (List.map (λ x, ascii_of_N (Z.to_N x)) b)) ∅).

(** ** Databases (query.go) *)

Record Database : Type := mkDatabase {
  db_Name : string;
  Collections : gmap string Collection
}.

Record DatabaseManager : Type := mkDatabaseManager {
  Databases : gmap string Database
}.

(** Modelled from the spec: [NewDatabase], a database without collections. *)
Definition NewDatabase (name : string) : Database := mkDatabase name ∅.

(** Modelled from the spec: the closed set of field types, whose constants
    are declared in a file absent from the sources. *)
Definition TypeString : FieldType := "string".
Definition TypeNumber : FieldType := "number".
Definition TypeBoolean : FieldType := "boolean".
Definition TypeObject : FieldType := "object".
Definition TypeArray : FieldType := "array".
Definition TypeDate : FieldType := "date".

Definition validTypes : list FieldType :=
  [TypeString; TypeNumber; TypeBoolean; TypeObject; TypeArray; TypeDate].

Inductive schemaError : Type :=
  | ErrNoFields
  | ErrEmptyFieldName
  | ErrReservedFieldName
  | ErrInvalidFieldType : FieldType -> string -> schemaError.

(** The loop of [Schema.Validate] over the fields in visiting order. *)
Fixpoint validateSchemaFields (order : list (string * Field)) : option schemaError :=
  match order with
  | [] => None
  | (fieldName, field) :: rest =>
      if decide (fieldName = "") then Some ErrEmptyFieldName
      else if decide (fieldName = "_id") then Some ErrReservedFieldName
      else if decide (Type_ field ∈ validTypes) then validateSchemaFields rest
      else Some (ErrInvalidFieldType (Type_ field) fieldName)
  end.

(** [Schema.Validate], on a schema that is not nil. *)
Definition Schema_Validate (s : Schema) : option schemaError :=
  if decide (size (Fields s) = 0%nat) then Some ErrNoFields
  else validateSchemaFields (map_to_list (Fields s)).

Inductive dbError : Type :=
  | ErrCollectionExists : string -> dbError
  | ErrInvalidSchema : schemaError -> dbError
  | ErrCollectionMissing : string -> dbError.

Definition CreateCollection (db : Database) (name : string) (schema : option Schema)
    : Database * option dbError :=
  match Collections db !! name with
  | Some _ => (db, Some (ErrCollectionExists name))
  | None =>
      match from_option Schema_Validate None schema with
      | Some e => (db, Some (ErrInvalidSchema e))
      | None =>
          (mkDatabase (db_Name db) (<[name := NewCollection name schema]> (Collections db)),
           None)
      end
  end.

Definition DropCollection (db : Database) (name : string) : Database * option dbError :=
  match Collections db !! name with
  | None => (db, Some (ErrCollectionMissing name))
  | Some _ => (mkDatabase (db_Name db) (delete name (Collections db)), None)
  end.

Definition GetCollection (db : Database) (name : string) : Collection + dbError :=
  match Collections db !! name with
  | None => inr (ErrCollectionMissing name)
  | Some coll => inl coll
  end.

(** [ListCollections]; [order] is the order in which the loop visits
    [db.Collections]. *)
Definition ListCollections (order : list (string * Collection)) : list string := order.*1.

(** ** Write-ahead log *)

Inductive WALOperation : Type :=
  | WALOpCreateDatabase
  | WALOpDeleteDatabase
  | WALOpCreateCollection
  | WALOpCreateIndex
  | WALOpInsert
  | WALOpUpdate
  | WALOpDelete.

(** The payload [Data] of an entry, decoded: the full document for insert
    and update, the schema for create_collection, the two names for
    create_index. *)
Inductive WALPayload : Type :=
  | NoPayload
  | DocumentPayload : Document -> WALPayload
  | SchemaPayload : Schema -> WALPayload
  | IndexPayload : string -> string -> WALPayload.

Record WALEntry : Type := mkWALEntry {
  Sequence : Z;
  wal_Operation : WALOperation;
  wal_Database : string;
  wal_Collection : string;
  DocumentID : string;
  wal_Data : WALPayload
}.

Inductive walError : Type :=
  | ErrWALDatabaseMissing : string -> walError
  | ErrWALCollectionMissing : string -> walError
  | ErrWALPayload : walError.

Section Replay.

(** The order in which the loop that builds an index visits the documents
    of a collection. *)
Variable docOrder : gmap string Document -> list (string * Document).

(** Modelled from the spec: the effect of one logged operation on a
    collection during replay.  Insert checks existence and stores the
    document when its id is free; update and delete are keyed by the id:
    update stores the logged image under its id and refreshes the indexes
    from the image it replaces, delete removes the document when present;
    create_index is a no-op when the index is already present.  The index
    maintenance is that of the collection ([updateIndex], [buildIndex]). *)
Definition applyToCollection (e : WALEntry) (c : Collection) : Collection + walError :=
  match wal_Operation e, wal_Data e with
  | WALOpInsert, DocumentPayload doc =>
      match Documents c !! ID doc with
      | Some _ => inl c
      | None =>
          inl (mkCollection (coll_Name c) (coll_Schema c) (<[ID doc := doc]> (Documents c))
                 ((λ idx, (updateIndex idx None (Some doc)).1) <$> Indexes c))
      end
  | WALOpUpdate, DocumentPayload doc =>
      inl (mkCollection (coll_Name c) (coll_Schema c) (<[ID doc := doc]> (Documents c))
             ((λ idx, (updateIndex idx (Documents c !! ID doc) (Some doc)).1) <$> Indexes c))
  | WALOpDelete, _ =>
      match Documents c !! DocumentID e with
      | None => inl c
      | Some doc =>
          inl (mkCollection (coll_Name c) (coll_Schema c) (delete (DocumentID e) (Documents c))
                 ((λ idx, (updateIndex idx (Some doc) None).1) <$> Indexes c))
      end
  | WALOpCreateIndex, IndexPayload indexName fieldName =>
      match Indexes c !! indexName with
      | Some _ => inl c
      | None =>
          inl (mkCollection (coll_Name c) (coll_Schema c) (Documents c)
                 (<[indexName := (buildIndex (docOrder (Documents c))
                                    (NewIndex indexName fieldName)).1]> (Indexes c)))
      end
  | _, _ => inr ErrWALPayload
  end.

(** Modelled from the spec: the effect of one logged operation on the
    database manager.  The create operations are guarded by existence checks
    and are no-ops when the entity is present; an operation on a database or
    collection that does not exist does not apply cleanly and is an error. *)
Definition applyEntry (dm : DatabaseManager) (e : WALEntry) : DatabaseManager + walError :=
  match wal_Operation e with
  | WALOpCreateDatabase =>
      match Databases dm !! wal_Database e with
      | Some _ => inl dm
      | None =>
          inl (mkDatabaseManager
                 (<[wal_Database e := NewDatabase (wal_Database e)]> (Databases dm)))
      end
  | WALOpDeleteDatabase =>
      inl (mkDatabaseManager (delete (wal_Database e) (Databases dm)))
  | WALOpCreateCollection =>
      match Databases dm !! wal_Database e with
      | None => inr (ErrWALDatabaseMissing (wal_Database e))
      | Some db =>
          match Collections db !! wal_Collection e with
          | Some _ => inl dm
          | None =>
              let schema := match wal_Data e with SchemaPayload s => Some s | _ => None end in
              let db' := mkDatabase (db_Name db)
                           (<[wal_Collection e := NewCollection (wal_Collection e) schema]>
                              (Collections db)) in
              inl (mkDatabaseManager (<[wal_Database e := db']> (Databases dm)))
          end
      end
  | _ =>
      match Databases dm !! wal_Database e with
      | None => inr (ErrWALDatabaseMissing (wal_Database e))
      | Some db =>
          match Collections db !! wal_Collection e with
          | None => inr (ErrWALCollectionMissing (wal_Collection e))
          | Some c =>
              match applyToCollection e c with
              | inr err => inr err
              | inl c' =>
                  let db' := mkDatabase (db_Name db)
                               (<[wal_Collection e := c']> (Collections db)) in
                  inl (mkDatabaseManager (<[wal_Database e := db']> (Databases dm)))
              end
          end
      end
  end.

(** Modelled from the spec: [WALManager.Replay], the entries after the last
    checkpoint applied in log order, which is ascending sequence order; the
    first entry that does not apply cleanly ends the replay with its
    error. *)
Fixpoint Replay (dm : DatabaseManager) (entries : list WALEntry) : DatabaseManager + walError :=
  match entries with
  | [] => inl dm
  | e :: rest =>
      match applyEntry dm e with
      | inr err => inr err
      | inl dm' => Replay dm' rest
      end
  end.

End Replay.

(** ** Statements about collection states *)

(** Every document is stored under its own id. *)
Definition docs_keyed (c : Collection) : Prop :=
  ∀ id doc, Documents c !! id = Some doc → ID doc = id.


(** Every index maps the key of every stored document that has the indexed
    field to the id of that document. *)
Definition indexes_agree (c : Collection) : Prop :=
  ∀ name idx id doc value,
    Indexes c !! name = Some idx →
    Documents c !! id = Some doc → GetValue doc (FieldName idx) = Some value →
    idx_Data idx !! Sprintf_v value = Some (ID doc).


(** No two stored documents print the same key for the field of the index
    held under [indexName]; nothing is asked when there is no such index,
    and nothing about the fields of the other indexes. *)
Definition collision_free_in (indexName : string) (c : Collection) : Prop :=
  ∀ idx id1 id2 doc1 doc2 v1 v2,
    Indexes c !! indexName = Some idx →
    Documents c !! id1 = Some doc1 → Documents c !! id2 = Some doc2 →
    GetValue doc1 (FieldName idx) = Some v1 → GetValue doc2 (FieldName idx) = Some v2 →
    Sprintf_v v1 = Sprintf_v v2 → id1 = id2.

Section CollisionFree.

Variable ValidateType : Value -> FieldType -> bool.


End CollisionFree.

(** ** Statements about [Find] *)

(** Two runs of [Find] on one state and one query return the same documents,
    up to order, whatever orders the runs visit the maps in. *)
Definition Find_order_independent (c : Collection) (q : Query) : Prop :=
  ∀ idxOrder1 idxOrder2 docOrder1 docOrder2,
    visits (Indexes c) idxOrder1 → visits (Indexes c) idxOrder2 →
    visits (Documents c) docOrder1 → visits (Documents c) docOrder2 →
    Find idxOrder1 docOrder1 c q ≡ₚ Find idxOrder2 docOrder2 c q.

(** At most one index of the collection is built on [field]. *)
Definition single_index_on (c : Collection) (field : string) : Prop :=
  ∀ name1 name2 idx1 idx2,
    Indexes c !! name1 = Some idx1 → Indexes c !! name2 = Some idx2 →
    FieldName idx1 = field → FieldName idx2 = field → name1 = name2.

(** What the loop of [Find] gets from one index built on the filter's
    field. *)
Definition probeIndex (idx : Index) (docs : gmap string Document) (f : QueryFilter)
    : IndexProbe :=
  match Index_Find idx (Value_ f) with
  | Some docID =>
      match docs !! docID with
      | Some doc => ProbeHit doc
      | None => ProbeNone
      end
  | None => ProbeMiss
  end.

(** The document id an index of a collection of a database holds under
    [key]. *)
Definition lookupIndexKey (dm : DatabaseManager) (db coll index key : string)
    : option string :=
  d ← Databases dm !! db; c ← Collections d !! coll; i ← Indexes c !! index;
  idx_Data i !! key.

(** The automatic [_id] index is present, is built on [_id], and holds
    exactly the ids of the stored documents, each under itself. *)
Definition id_index_exact (c : Collection) : Prop :=
  ∃ idx, Indexes c !! "_id" = Some idx ∧ FieldName idx = "_id" ∧
         ∀ id, idx_Data idx !! id = (λ _ : Document, id) <$> Documents c !! id.

(** A field of a schema is satisfied by a document when a required field is
    present and a present field passes the type check. *)
Definition fieldSatisfied (ValidateType : Value -> FieldType -> bool)
    (doc : Document) (fieldName : string) (field : Field) : Prop :=
  match GetValue doc fieldName with
  | None => Required field = false
  | Some value => ValidateType value (Type_ field) = true
  end.

(** ** Statements about saved collections *)

(** Every index the save loop visits has a plain file name. *)
Definition plainly_named (idxOrder : list (string * Index)) : Prop :=
  ∀ name idx, (name, idx) ∈ idxOrder → plainFileName (idx_Name idx) = true.

(** ** Statements about replay *)

Definition lookupCollection (dm : DatabaseManager) (db coll : string) : option Collection :=
  d ← Databases dm !! db; Collections d !! coll.

(** The places of a database manager one can look at without looking into
    the contents of an index: a database, a collection, a document of a
    collection, an index of a collection. *)
Inductive Part : Type :=
  | WholeCollection
  | PartDocument (id : string)
  | PartIndex (index : string).

Inductive StateKey : Type :=
  | KeyDatabase (db : string)
  | KeyIn (db coll : string) (part : Part).

(** What is seen there.  [Absent]: no such database, collection or
    document; [NoIndex]: the collection exists and has no index of that
    name.  Of an index only its name and its field are seen. *)
Inductive Observed : Type :=
  | Absent
  | NoIndex
  | SeenDatabase (name : string)
  | SeenCollection (name : string) (schema : option Schema)
  | SeenDocument (doc : Document)
  | SeenIndex (name field : string).

Definition observeCollection (oc : option Collection) (part : Part) : Observed :=
  match oc with
  | None => Absent
  | Some c =>
      match part with
      | WholeCollection => SeenCollection (coll_Name c) (coll_Schema c)
      | PartDocument id => from_option SeenDocument Absent (Documents c !! id)
      | PartIndex index =>
          from_option (λ idx, SeenIndex (idx_Name idx) (FieldName idx)) NoIndex
            (Indexes c !! index)
      end
  end.

Definition observe (dm : DatabaseManager) (k : StateKey) : Observed :=
  match k with
  | KeyDatabase db => from_option (λ d, SeenDatabase (db_Name d)) Absent (Databases dm !! db)
  | KeyIn db coll part => observeCollection (lookupCollection dm db coll) part
  end.

(** No entry of the log deletes a database. *)
Definition deletes_no_database (entries : list WALEntry) : Prop :=
  ∀ e, e ∈ entries → wal_Operation e ≠ WALOpDeleteDatabase.

(** *** What one entry does to one observation *)

(** An entry leaves an observation as it is, overwrites it, fills it in
    when nothing was there, or fills in an index the collection lacked. *)
Inductive Action : Type :=
  | Keep
  | Put (v : Observed)
  | Fill (v : Observed)
  | FillIndex (name field : string).

(** The observation after the entry, [None] when the entry cannot have
    applied: an index is not created in a collection that is absent. *)
Definition act (a : Action) (x : Observed) : option Observed :=
  match a with
  | Keep => Some x
  | Put v => Some v
  | Fill v => Some (match x with Absent => v | _ => x end)
  | FillIndex name field =>
      match x with
      | Absent => None
      | NoIndex => Some (SeenIndex name field)
      | _ => Some x
      end
  end.

(** What a create operation can still add to. *)
Definition below (x y : Observed) : Prop :=
  x = Absent ∨ x = y ∨ (x = NoIndex ∧ ∃ name field, y = SeenIndex name field).

(** The relation between the first pass at an entry ([x]), the second pass
    at the same entry ([y]) and the end of the first pass ([z]): the second
    pass sees what the first saw, or what the first pass ended with, or the
    first pass is yet to overwrite what it sees. *)
Definition in_step (x y z : Observed) : Prop := y = x ∨ y = z ∨ ¬ below x z.

(** The action of an entry on a part of the collection it names. *)
Definition actionIn (e : WALEntry) (part : Part) : Action :=
  match wal_Operation e, wal_Data e, part with
  | WALOpCreateCollection, data, WholeCollection =>
      Fill (SeenCollection (wal_Collection e)
              (match data with SchemaPayload s => Some s | _ => None end))
  | WALOpCreateCollection, _, PartIndex index =>
      Fill (if decide (index = "_id") then SeenIndex "_id" "_id" else NoIndex)
  | WALOpInsert, DocumentPayload doc, PartDocument id =>
      if decide (id = ID doc) then Fill (SeenDocument doc) else Keep
  | WALOpUpdate, DocumentPayload doc, PartDocument id =>
      if decide (id = ID doc) then Put (SeenDocument doc) else Keep
  | WALOpDelete, _, PartDocument id =>
      if decide (id = DocumentID e) then Put Absent else Keep
  | WALOpCreateIndex, IndexPayload indexName fieldName, PartIndex index =>
      if decide (index = indexName) then FillIndex indexName fieldName else Keep
  | _, _, _ => Keep
  end.

(** The action of an entry on a place of the database manager. *)
Definition action (e : WALEntry) (k : StateKey) : Action :=
  match k with
  | KeyDatabase db =>
      match wal_Operation e with
      | WALOpCreateDatabase =>
          if decide (db = wal_Database e) then Fill (SeenDatabase (wal_Database e)) else Keep
      | WALOpDeleteDatabase => if decide (db = wal_Database e) then Put Absent else Keep
      | _ => Keep
      end
  | KeyIn db coll part =>
      match wal_Operation e with
      | WALOpCreateDatabase => Keep
      | WALOpDeleteDatabase => if decide (db = wal_Database e) then Put Absent else Keep
      | _ =>
          if decide (db = wal_Database e ∧ coll = wal_Collection e) then actionIn e part
          else Keep
      end
  end.

(** The places whose presence decides whether an entry applies. *)
Definition structural (k : StateKey) : Prop :=
  match k with
  | KeyDatabase _ | KeyIn _ _ WholeCollection => True
  | _ => False
  end.

(** [t] has every database and collection that [s] has. *)
Definition covers (s t : DatabaseManager) : Prop :=
  ∀ k, structural k → observe s k ≠ Absent → observe t k ≠ Absent.

(** * Properties of the collection engine *)

(** ** Index maintenance never fails *)

Lemma Clone_id (d : Document) : Clone d = d.
Proof. by destruct d. Qed.

Lemma AddToIndex_nil (idx : Index) (doc : Document) : (AddToIndex idx doc).2 = None.
Proof. unfold AddToIndex. by destruct (GetValue doc (FieldName idx)). Qed.

Lemma RemoveFromIndex_nil (idx : Index) (doc : Document) : (RemoveFromIndex idx doc).2 = None.
Proof. unfold RemoveFromIndex. by destruct (GetValue doc (FieldName idx)). Qed.

Lemma updateIndex_nil (idx : Index) (old new : option Document) :
  (updateIndex idx old new).2 = None.
Proof.
  unfold updateIndex.
  destruct old as [o|]; simpl.
  - pose proof (RemoveFromIndex_nil idx o) as Hr.
    destruct (RemoveFromIndex idx o) as [idx1 e1]; simpl in Hr; subst e1.
    destruct new as [n|]; [apply AddToIndex_nil | done].
  - destruct new as [n|]; [apply AddToIndex_nil | done].
Qed.

Lemma updateIndexes_loop_nil (order : list (string * Index)) :
  ∀ (idxs : gmap string Index) (old new : option Document),
    (updateIndexes_loop order idxs old new).2 = None.
Proof.
  induction order as [|[name idx] rest IH]; intros idxs old new; simpl; [done|].
  pose proof (updateIndex_nil idx old new) as Hu.
  destruct (updateIndex idx old new) as [idx' e]; simpl in Hu; subst e.
  apply IH.
Qed.

(** What the loop leaves in the index map: every visited index replaced by
    its updated version, whatever the visiting order. *)
Lemma updateIndexes_loop_lookup (old new : option Document) (order : list (string * Index)) :
  ∀ (idxs : gmap string Index) (k : string),
    NoDup order.*1 →
    (updateIndexes_loop order idxs old new).1 !! k =
      match (list_to_map order : gmap string Index) !! k with
      | Some idx => Some (updateIndex idx old new).1
      | None => idxs !! k
      end.
Proof.
  induction order as [|[name idx] rest IH]; intros idxs k Hnd; simpl.
  - by rewrite lookup_empty.
  - apply NoDup_cons in Hnd as [Hnotin Hnd].
    pose proof (updateIndex_nil idx old new) as Hu.
    destruct (updateIndex idx old new) as [idx' e] eqn:Hidx; simpl in Hu; subst e.
    rewrite IH by done.
    destruct (decide (name = k)) as [->|Hne].
    + rewrite (not_elem_of_list_to_map_1 rest k Hnotin).
      rewrite !lookup_insert_eq. by rewrite Hidx.
    + by rewrite !lookup_insert_ne by done.
Qed.

Lemma updateIndexes_loop_visits (old new : option Document) (idxs : gmap string Index)
    (order : list (string * Index)) :
  visits idxs order →
  updateIndexes_loop order idxs old new =
    ((λ idx, (updateIndex idx old new).1) <$> idxs, None).
Proof.
  intros [Hnd Hmap].
  pose proof (updateIndexes_loop_nil order idxs old new) as Hnil.
  pose proof (updateIndexes_loop_lookup old new order idxs) as Hlk.
  destruct (updateIndexes_loop order idxs old new) as [m e]; simpl in *; subst e.
  f_equal. apply map_eq; intros k.
  rewrite Hlk by done. rewrite Hmap, lookup_fmap.
  by destruct (idxs !! k).
Qed.

Lemma visits_map_to_list {A : Type} (m : gmap string A) : visits m (map_to_list m).
Proof. split; [apply NoDup_fst_map_to_list | apply list_to_map_to_list]. Qed.

Lemma updateIndexes_eq (c : Collection) (old new : option Document) :
  updateIndexes c old new =
    (mkCollection (coll_Name c) (coll_Schema c) (Documents c)
       ((λ idx, (updateIndex idx old new).1) <$> Indexes c), None).
Proof.
  unfold updateIndexes.
  by rewrite (updateIndexes_loop_visits old new _ _ (visits_map_to_list (Indexes c))).
Qed.

Lemma setDocuments_same (c : Collection) : setDocuments c (Documents c) = c.
Proof. by destruct c. Qed.

(** Entries of the result of [Find] come from the list it cut. *)
Lemma applySkipLimit_subseteq (q : Query) (results : list Document) (d : Document) :
  d ∈ applySkipLimit q results → d ∈ results.
Proof.
  unfold applySkipLimit.
  assert (Hcut : ∀ l : list Document,
    d ∈ (if decide (Limit q > 0 ∧ Limit q < Z.of_nat (length l))
         then take (Z.to_nat (Limit q)) l else l) → d ∈ l).
  { intros l. case_decide; [apply (subseteq_take (Z.to_nat (Limit q)) l) | done]. }
  destruct (decide (Skip q > 0)) as [Hs|Hs].
  - destruct (decide (Skip q >= Z.of_nat (length results))) as [Hge|Hlt]; intros Hd.
    + by apply elem_of_nil in Hd.
    + apply Hcut in Hd. by apply (subseteq_drop (Z.to_nat (Skip q)) results).
  - apply Hcut.
Qed.

Lemma scan_keep (docOrder : list (string * Document)) (keep : Document → bool) (d : Document) :
  d ∈ scan docOrder keep → keep d = true.
Proof.
  unfold scan. rewrite list_elem_of_In, in_map_iff.
  intros (d' & Hcl & Hin). rewrite Clone_id in Hcl. subst d'.
  by apply filter_In in Hin as [_ Hk].
Qed.

(** Whenever a query has filters, every document [Find] returns passed all
    of them, on the index path and on the scan paths alike. *)
Lemma Find_results_match (idxOrder : list (string * Index))
    (docOrder : list (string * Document)) (c : Collection) (q : Query) (d : Document) :
  Filters q ≠ [] → d ∈ Find idxOrder docOrder c q →
  matchesAllFilters d (Filters q) = true.
Proof.
  unfold Find. destruct (Filters q) as [|f rest] eqn:Hf; [done|]. intros _.
  assert (Hscan : d ∈ applySkipLimit q (scan docOrder (λ d0, matchesAllFilters d0 (f :: rest)))
                  → matchesAllFilters d (f :: rest) = true).
  { intros Hd%applySkipLimit_subseteq. by apply scan_keep in Hd. }
  case_decide; [|done].
  destruct (probeIndexes idxOrder (Documents c) f) as [doc| |]; [| |done].
  - intros Hd%applySkipLimit_subseteq.
    rewrite list_elem_of_In, in_map_iff in Hd.
    destruct Hd as (d' & Hcl & Hin). rewrite Clone_id in Hcl. subst d'.
    by apply filter_In in Hin as [_ Hk].
  - intros Hd. by apply elem_of_nil in Hd.
Qed.

(** C9: a filter never matches a document that lacks its field, whatever the
    operator ([ne] and [in] included); a filter whose operator is none of
    eq, ne, gt, gte, lt, lte, in matches no document; so [Find] with a single
    [ne] filter on a field returns no document missing that field. *)
Theorem filter_requires_field :
  (∀ (doc : Document) (filter : QueryFilter),
     GetValue doc (Field_ filter) = None → matchesFilter doc filter = false) ∧
  (∀ (doc : Document) (filter : QueryFilter),
     Operator filter ∉ ["eq"; "ne"; "gt"; "gte"; "lt"; "lte"; "in"] →
     matchesFilter doc filter = false) ∧
  (∀ (idxOrder : list (string * Index)) (docOrder : list (string * Document))
     (c : Collection) (q : Query) (f : QueryFilter) (d : Document),
     Filters q = [f] → Operator f = "ne" →
     d ∈ Find idxOrder docOrder c q → is_Some (GetValue d (Field_ f))).
Proof.
  split; [|split].
  - intros doc filter Hnone. unfold matchesFilter. by rewrite Hnone.
  - intros doc filter Hop. unfold matchesFilter.
    destruct (GetValue doc (Field_ filter)); [|done].
    repeat case_decide; try done; exfalso; apply Hop; set_solver.
  - intros idxOrder docOrder c q f d Hf Hop Hd.
    apply Find_results_match in Hd; [|by rewrite Hf].
    rewrite Hf in Hd. simpl in Hd.
    unfold matchesFilter in Hd.
    destruct (GetValue d (Field_ f)); [by eexists | done].
Qed.

Lemma filter_requires_field_witness :
  matchesFilter (mkDocument "d1" ∅) (mkQueryFilter "age" "ne" (VInt 30)) = false ∧
  matchesFilter (mkDocument "d1" {[ "age" := VInt 9 ]}) (mkQueryFilter "age" "like" (VInt 9)) = false ∧
  is_Some (GetValue (mkDocument "d2" {[ "age" := VInt 9 ]}) "age").
Proof.
  destruct filter_requires_field as (Hfield & Hop & Hfind).
  split; [|split].
  - apply Hfield. reflexivity.
  - apply Hop. vm_compute. intros H. repeat (apply elem_of_cons in H as [H|H]; [discriminate H|]).
    by apply elem_of_nil in H.
  - apply (Hfind []
             [("d1", mkDocument "d1" ∅); ("d2", mkDocument "d2" {[ "age" := VInt 9 ]})]
             (mkCollection "users" None
                (<["d1" := mkDocument "d1" ∅]> {[ "d2" := mkDocument "d2" {[ "age" := VInt 9 ]} ]})
                ∅)
             (mkQuery [mkQueryFilter "age" "ne" (VInt 30)] 0 0)
             (mkQueryFilter "age" "ne" (VInt 30))).
    + reflexivity.
    + reflexivity.
    + apply list_elem_of_In. vm_compute. left. reflexivity.
Defined.

(** ** What each mutating operation leaves behind *)

Section EngineFacts.

Variable ValidateType : Value -> FieldType -> bool.

Local Abbreviation Insert := (Insert ValidateType).
Local Abbreviation Update := (Update ValidateType).
Local Abbreviation validateAgainst := (validateAgainst ValidateType).

Lemma updateIndex_add (idx : Index) (doc : Document) :
  updateIndex idx None (Some doc) = AddToIndex idx doc.
Proof. reflexivity. Qed.

Lemma updateIndex_remove (idx : Index) (doc : Document) :
  (updateIndex idx (Some doc) None).1 = (RemoveFromIndex idx doc).1.
Proof.
  unfold updateIndex. pose proof (RemoveFromIndex_nil idx doc) as H.
  destruct (RemoveFromIndex idx doc) as [i e]; simpl in *. by subst e.
Qed.

Lemma updateIndex_replace (idx : Index) (old new : Document) :
  (updateIndex idx (Some old) (Some new)).1 =
    (AddToIndex (RemoveFromIndex idx old).1 new).1.
Proof.
  unfold updateIndex. pose proof (RemoveFromIndex_nil idx old) as H.
  destruct (RemoveFromIndex idx old) as [i e]; simpl in *. by subst e.
Qed.

Lemma Insert_exists (uuid : string) (c : Collection) (doc : Document) :
  is_Some (Documents c !! ID (withID uuid doc)) →
  Insert uuid c doc = (c, Some (ErrDocExists (ID (withID uuid doc)))).
Proof. intros [d Hd]. unfold Insert. by rewrite Hd. Qed.

Lemma Insert_invalid (uuid : string) (c : Collection) (doc : Document) (e : error) :
  Documents c !! ID (withID uuid doc) = None →
  validateAgainst (coll_Schema c) (withID uuid doc) = Some e →
  Insert uuid c doc = (c, Some (ErrSchemaValidation e)).
Proof. intros Hd Hv. unfold Insert. by rewrite Hd, Hv. Qed.

Lemma Insert_ok (uuid : string) (c : Collection) (doc : Document) :
  Documents c !! ID (withID uuid doc) = None →
  validateAgainst (coll_Schema c) (withID uuid doc) = None →
  Insert uuid c doc =
    (mkCollection (coll_Name c) (coll_Schema c)
       (<[ID (withID uuid doc) := withID uuid doc]> (Documents c))
       ((λ idx, (AddToIndex idx (withID uuid doc)).1) <$> Indexes c), None).
Proof.
  intros Hd Hv. unfold Insert. rewrite Hd, Hv.
  by rewrite updateIndexes_eq.
Qed.

Lemma Delete_missing (c : Collection) (id : string) :
  Documents c !! id = None → Delete c id = (c, Some (ErrDocNotFound id)).
Proof. intros Hd. unfold Delete. by rewrite Hd. Qed.

Lemma Delete_ok (c : Collection) (id : string) (doc : Document) :
  Documents c !! id = Some doc →
  Delete c id =
    (mkCollection (coll_Name c) (coll_Schema c) (delete id (Documents c))
       ((λ idx, (RemoveFromIndex idx doc).1) <$> Indexes c), None).
Proof.
  intros Hd. unfold Delete. rewrite Hd, updateIndexes_eq. unfold setDocuments; simpl.
  do 2 f_equal. apply map_fmap_ext. intros k idx _. apply updateIndex_remove.
Qed.

Lemma applyUpdates_no_id (updates : list (string * Value)) :
  ∀ data : gmap string Value,
    "_id" ∉ updates.*1 → (applyUpdates updates data).2 = None.
Proof.
  induction updates as [|[key value] rest IH]; intros data Hid; simpl; [done|].
  rewrite fmap_cons, not_elem_of_cons in Hid. destruct Hid as [Hne Hrest].
  case_decide; [by subst|]. by apply IH.
Qed.

Lemma applyUpdates_error (updates : list (string * Value)) :
  ∀ (data : gmap string Value) (e : error),
    (applyUpdates updates data).2 = Some e → e = ErrUpdateId.
Proof.
  induction updates as [|[key value] rest IH]; intros data e; simpl; [done|].
  case_decide; [by intros [= <-] | apply IH].
Qed.

Lemma Update_missing (c : Collection) (id : string) (updates : list (string * Value)) :
  Documents c !! id = None → Update c id updates = (c, Some (ErrDocNotFound id)).
Proof. intros Hd. unfold Update. by rewrite Hd. Qed.

(** The image [Update] builds in place of [doc]. *)
Definition updated (doc : Document) (updates : list (string * Value)) : Document :=
  mkDocument (ID doc) (applyUpdates updates (Data doc)).1.

Lemma Update_invalid (c : Collection) (id : string) (doc : Document)
    (updates : list (string * Value)) (e : error) :
  Documents c !! id = Some doc →
  (applyUpdates updates (Data doc)).2 = None →
  validateAgainst (coll_Schema c) (updated doc updates) = Some e →
  Update c id updates = (c, Some (ErrSchemaValidation e)).
Proof.
  intros Hd Hup Hv. unfold Update, updated in *. rewrite Hd.
  destruct (applyUpdates updates (Data doc)) as [data' e0]; simpl in *. subst e0.
  rewrite Hv. f_equal. unfold setDocuments; simpl.
  rewrite insert_insert_eq, Clone_id, (insert_id _ _ _ Hd). by destruct c.
Qed.

Lemma Update_ok (c : Collection) (id : string) (doc : Document)
    (updates : list (string * Value)) :
  Documents c !! id = Some doc →
  (applyUpdates updates (Data doc)).2 = None →
  validateAgainst (coll_Schema c) (updated doc updates) = None →
  Update c id updates =
    (mkCollection (coll_Name c) (coll_Schema c)
       (<[id := updated doc updates]> (Documents c))
       ((λ idx, (AddToIndex (RemoveFromIndex idx doc).1 (updated doc updates)).1)
          <$> Indexes c), None).
Proof.
  intros Hd Hup Hv. unfold Update, updated in *. rewrite Hd.
  destruct (applyUpdates updates (Data doc)) as [data' e0]; simpl in *. subst e0.
  rewrite Hv, updateIndexes_eq. unfold setDocuments; simpl.
  do 2 f_equal. apply map_fmap_ext. intros k idx _.
  by rewrite updateIndex_replace, Clone_id.
Qed.

(** The error paths of [Update] that roll back: a missing document, and a
    schema violation of the new image.  They leave the collection as it
    was, so [FindByID] still answers with the pre-image. *)
Lemma Update_error_restores (c : Collection) (id : string)
    (updates : list (string * Value)) (e : error) :
  "_id" ∉ updates.*1 →
  (Update c id updates).2 = Some e →
  (Update c id updates).1 = c ∧ FindByID (Update c id updates).1 id = FindByID c id.
Proof.
  intros Hid He.
  assert ((Update c id updates).1 = c) as Heq; [|by rewrite Heq].
  destruct (Documents c !! id) as [doc|] eqn:Hd.
  - pose proof (applyUpdates_no_id updates (Data doc) Hid) as Hup.
    destruct (validateAgainst (coll_Schema c) (updated doc updates)) as [e'|] eqn:Hv.
    + by rewrite (Update_invalid c id doc updates e' Hd Hup Hv).
    + rewrite (Update_ok c id doc updates Hd Hup Hv) in He. done.
  - by rewrite Update_missing.
Qed.

(** The rollback branches for a failed index update are dead code. *)
Lemma Insert_no_index_error (u : string) (c : Collection) (d : Document) (e : error) :
  (Insert u c d).2 ≠ Some (ErrUpdateIndexes e).
Proof.
  unfold Insert.
  destruct (Documents c !! ID (withID u d)); [done|].
  destruct (validateAgainst _ _); [done|].
  by rewrite updateIndexes_eq.
Qed.

Lemma Update_no_index_error (c : Collection) (id : string)
    (updates : list (string * Value)) (e : error) :
  (Update c id updates).2 ≠ Some (ErrUpdateIndexes e).
Proof.
  unfold Update.
  destruct (Documents c !! id) as [d|]; [|done].
  destruct (applyUpdates updates (Data d)) as [data' [e0|]] eqn:Hup.
  - rewrite (applyUpdates_error updates (Data d) e0); [done | by rewrite Hup].
  - destruct (validateAgainst _ _); [done|].
    by rewrite updateIndexes_eq.
Qed.

Lemma Delete_no_index_error (c : Collection) (id : string) (e : error) :
  (Delete c id).2 ≠ Some (ErrUpdateIndexes e).
Proof.
  unfold Delete.
  destruct (Documents c !! id) as [d|]; [|done].
  by rewrite updateIndexes_eq.
Qed.

(** C10: [AddToIndex] and [RemoveFromIndex] return nil for every document
    and index, so [updateIndexes] never returns an error in any visiting
    order; the rollback branches of [Insert], [Update] and [Delete] for a
    failed index update are never taken, and an [Insert] that passes the
    duplicate-id check and the schema validation succeeds and stores the
    document. *)
Theorem index_update_never_fails (uuid : string) (c : Collection) (doc : Document) :
  Documents c !! ID (withID uuid doc) = None →
  validateAgainst (coll_Schema c) (withID uuid doc) = None →
  (∀ idx d, (AddToIndex idx d).2 = None ∧ (RemoveFromIndex idx d).2 = None) ∧
  (∀ order idxs old new, (updateIndexes_loop order idxs old new).2 = None) ∧
  (∀ c' old new, (updateIndexes c' old new).2 = None) ∧
  (∀ u c' d e, (Insert u c' d).2 ≠ Some (ErrUpdateIndexes e)) ∧
  (∀ c' id updates e, (Update c' id updates).2 ≠ Some (ErrUpdateIndexes e)) ∧
  (∀ c' id e, (Delete c' id).2 ≠ Some (ErrUpdateIndexes e)) ∧
  (Insert uuid c doc).2 = None ∧
  Documents (Insert uuid c doc).1 !! ID (withID uuid doc) = Some (withID uuid doc).
Proof.
  intros Hfresh Hvalid.
  split; [intros; split; [apply AddToIndex_nil | apply RemoveFromIndex_nil]|].
  split; [intros; apply updateIndexes_loop_nil|].
  split; [intros; by rewrite updateIndexes_eq|].
  split; [apply Insert_no_index_error|].
  split; [apply Update_no_index_error|].
  split; [apply Delete_no_index_error|].
  rewrite (Insert_ok uuid c doc Hfresh Hvalid). simpl.
  split; [done | apply lookup_insert_eq].
Qed.

End EngineFacts.

Lemma index_update_never_fails_witness :
  (Insert acceptAll "6f1c" (NewCollection "users" None)
     (mkDocument "" {[ "name" := VStr "Ada" ]})).2 = None.
Proof.
  apply (index_update_never_fails acceptAll "6f1c" (NewCollection "users" None)
           (mkDocument "" {[ "name" := VStr "Ada" ]})).
  - reflexivity.
  - reflexivity.
Defined.

(** ** Range filters *)

(** C4, evaluated on numbers: [compareValues] orders its operands by their
    printed text in every case, so the integer 9 counts as greater than 30
    and a document with age 9 fails the filter [age lt 30] and passes
    [age gt 30]. *)
Theorem range_filter_orders_numbers_as_text :
  (∀ a b : Value, compareValues a b = strings_Compare (Sprintf_v a) (Sprintf_v b)) ∧
  compareValues (VInt 9) (VInt 30) = 1 ∧
  matchesFilter (mkDocument "d1" {[ "age" := VInt 9 ]})
    (mkQueryFilter "age" "lt" (VInt 30)) = false ∧
  matchesFilter (mkDocument "d1" {[ "age" := VInt 9 ]})
    (mkQueryFilter "age" "gt" (VInt 30)) = true.
Proof. repeat split. Qed.

(** ** Update and its error paths *)

(** C1, evaluated where the rollback is missing: in a collection holding
    document d1, an update whose entries are visited as name, then _id
    returns the _id error after the name was already written into the stored
    document; [FindByID] then shows the changed document, not the
    pre-image. *)
Theorem Update_id_key_keeps_partial_write :
  let c := (Insert acceptAll "" (NewCollection "users" None)
              (mkDocument "d1" {[ "name" := VStr "Ada" ]})).1 in
  let r := Update acceptAll c "d1" [("name", VStr "Eve"); ("_id", VStr "d9")] in
  reachable acceptAll c ∧
  r.2 = Some ErrUpdateId ∧
  FindByID c "d1" = Some (mkDocument "d1" {[ "name" := VStr "Ada" ]}) ∧
  FindByID r.1 "d1" = Some (mkDocument "d1" {[ "name" := VStr "Eve" ]}) ∧
  Documents r.1 ≠ Documents c.
Proof.
  intros c r. split; [apply reach_Insert, reach_new|].
  split; [reflexivity|]. split; [reflexivity|]. split; [reflexivity|].
  intros Heq. apply (f_equal (λ m, m !! "d1")) in Heq.
  vm_compute in Heq. discriminate Heq.
Qed.

(** * User indexes and stored documents *)

Lemma AddToIndex_FieldName (idx : Index) (d : Document) :
  FieldName (AddToIndex idx d).1 = FieldName idx.
Proof. unfold AddToIndex. by destruct (GetValue d (FieldName idx)). Qed.

Lemma RemoveFromIndex_FieldName (idx : Index) (d : Document) :
  FieldName (RemoveFromIndex idx d).1 = FieldName idx.
Proof. unfold RemoveFromIndex. by destruct (GetValue d (FieldName idx)). Qed.

Lemma AddToIndex_Name (idx : Index) (d : Document) :
  idx_Name (AddToIndex idx d).1 = idx_Name idx.
Proof. unfold AddToIndex. by destruct (GetValue d (FieldName idx)). Qed.

Lemma RemoveFromIndex_Name (idx : Index) (d : Document) :
  idx_Name (RemoveFromIndex idx d).1 = idx_Name idx.
Proof. unfold RemoveFromIndex. by destruct (GetValue d (FieldName idx)). Qed.

Lemma AddToIndex_Data (idx : Index) (d : Document) :
  idx_Data (AddToIndex idx d).1 =
    match GetValue d (FieldName idx) with
    | Some v => <[Sprintf_v v := ID d]> (idx_Data idx)
    | None => idx_Data idx
    end.
Proof. unfold AddToIndex. by destruct (GetValue d (FieldName idx)). Qed.

Lemma RemoveFromIndex_Data (idx : Index) (d : Document) :
  idx_Data (RemoveFromIndex idx d).1 =
    match GetValue d (FieldName idx) with
    | Some v => delete (Sprintf_v v) (idx_Data idx)
    | None => idx_Data idx
    end.
Proof. unfold RemoveFromIndex. by destruct (GetValue d (FieldName idx)). Qed.

(** The index [CreateIndex] builds: it keeps its field, holds an entry for
    every visited document that has the field, and every entry it gained is
    the id of a visited document with that key. *)
Lemma buildIndex_spec (order : list (string * Document)) :
  ∀ idx : Index,
    ∃ idx', buildIndex order idx = (idx', None) ∧
      FieldName idx' = FieldName idx ∧
      (∀ k id, idx_Data idx' !! k = Some id →
         idx_Data idx !! k = Some id ∨
         ∃ p v, p ∈ order ∧ GetValue p.2 (FieldName idx) = Some v ∧
                Sprintf_v v = k ∧ ID p.2 = id) ∧
      (∀ k, is_Some (idx_Data idx !! k) → is_Some (idx_Data idx' !! k)) ∧
      (∀ p v, p ∈ order → GetValue p.2 (FieldName idx) = Some v →
         is_Some (idx_Data idx' !! Sprintf_v v)).
Proof.
  induction order as [|[key doc] rest IH]; intros idx; simpl.
  - exists idx. repeat split; auto.
    intros p v Hp. by apply elem_of_nil in Hp.
  - pose proof (AddToIndex_nil idx doc) as Hnil.
    pose proof (AddToIndex_FieldName idx doc) as Hfld.
    pose proof (AddToIndex_Data idx doc) as Hdata.
    destruct (AddToIndex idx doc) as [idx1 e]; simpl in *; subst e.
    destruct (IH idx1) as (idx' & Hrun & Hf & Hfrom & Hkeep & Hall).
    exists idx'. rewrite Hfld in *.
    split; [done|]. split; [done|]. split; [|split].
    + intros k id Hk. destruct (Hfrom k id Hk) as [Hin|(p & v & Hp & Hv & Hs & Hi)].
      * rewrite Hdata in Hin.
        destruct (GetValue doc (FieldName idx)) as [v|] eqn:Hv; [|by left].
        destruct (decide (Sprintf_v v = k)) as [<-|Hne].
        -- rewrite lookup_insert_eq in Hin. injection Hin as <-.
           right. exists (key, doc), v. split; [left|done].
        -- rewrite lookup_insert_ne in Hin by done. by left.
      * right. exists p, v. split; [by right|done].
    + intros k Hk. apply Hkeep. rewrite Hdata.
      destruct (GetValue doc (FieldName idx)) as [v|]; [|done].
      destruct (decide (Sprintf_v v = k)) as [<-|Hne].
      * rewrite lookup_insert_eq. by eexists.
      * by rewrite lookup_insert_ne.
    + intros p v Hp Hv. apply elem_of_cons in Hp as [->|Hp].
      * simpl in Hv. apply Hkeep. rewrite Hdata, Hv, lookup_insert_eq. by eexists.
      * by apply (Hall p v).
Qed.

Lemma buildIndex_Name (order : list (string * Document)) :
  ∀ idx : Index, idx_Name (buildIndex order idx).1 = idx_Name idx.
Proof.
  induction order as [|[key doc] rest IH]; intros idx; simpl; [done|].
  pose proof (AddToIndex_nil idx doc) as Hnil.
  pose proof (AddToIndex_Name idx doc) as Hname.
  destruct (AddToIndex idx doc) as [idx1 e]; simpl in *; subst e.
  by rewrite IH.
Qed.

Lemma CreateIndex_exists (docOrder : list (string * Document)) (c : Collection)
    (indexName fieldName : string) :
  is_Some (Indexes c !! indexName) →
  CreateIndex docOrder c indexName fieldName = (c, Some (ErrIndexExists indexName)).
Proof. intros [i Hi]. unfold CreateIndex. by rewrite Hi. Qed.

Lemma CreateIndex_ok (docOrder : list (string * Document)) (c : Collection)
    (indexName fieldName : string) :
  Indexes c !! indexName = None →
  CreateIndex docOrder c indexName fieldName =
    (mkCollection (coll_Name c) (coll_Schema c) (Documents c)
       (<[indexName := (buildIndex docOrder (NewIndex indexName fieldName)).1]> (Indexes c)),
     None).
Proof.
  intros Hi. unfold CreateIndex. rewrite Hi.
  destruct (buildIndex_spec docOrder (NewIndex indexName fieldName)) as (idx' & Hrun & _).
  by rewrite Hrun.
Qed.

Lemma visits_elem_of {A : Type} (m : gmap string A) (order : list (string * A))
    (k : string) (x : A) :
  visits m order → ((k, x) ∈ order ↔ m !! k = Some x).
Proof. intros [Hnd <-]. by apply elem_of_list_to_map. Qed.

Section Agreement.

Variable ValidateType : Value -> FieldType -> bool.
Variable indexName : string.

Local Abbreviation Insert := (Insert ValidateType).
Local Abbreviation Update := (Update ValidateType).
Local Abbreviation validateAgainst := (validateAgainst ValidateType).









End Agreement.

Lemma collision_free_in_no_index (indexName : string) (c : Collection) :
  Indexes c !! indexName = None → collision_free_in indexName c.
Proof. intros Hnone idx id1 id2 doc1 doc2 v1 v2 Hi. by rewrite Hnone in Hi. Qed.





(** * Determinism of Find *)

Lemma probeIndexes_none (docs : gmap string Document) (f : QueryFilter)
    (idxOrder : list (string * Index)) :
  (∀ p, p ∈ idxOrder → FieldName p.2 = Field_ f → probeIndex p.2 docs f = ProbeNone) →
  probeIndexes idxOrder docs f = ProbeNone.
Proof.
  induction idxOrder as [|[name idx] rest IH]; intros Hall; simpl; [done|].
  assert (probeIndexes rest docs f = ProbeNone) as Hrest.
  { apply IH. intros p Hp. apply Hall. by right. }
  case_decide as Hfield; [|done].
  pose proof (Hall (name, idx) ltac:(left) Hfield) as Hone.
  unfold probeIndex in Hone. simpl in Hone.
  destruct (Index_Find idx (Value_ f)) as [docID|]; [|done].
  by destruct (docs !! docID).
Qed.

Lemma probeIndexes_single (docs : gmap string Document) (f : QueryFilter) (idx : Index)
    (idxOrder : list (string * Index)) :
  (∃ name, (name, idx) ∈ idxOrder) → FieldName idx = Field_ f →
  (∀ p, p ∈ idxOrder → FieldName p.2 = Field_ f → p.2 = idx) →
  probeIndexes idxOrder docs f = probeIndex idx docs f.
Proof.
  induction idxOrder as [|[name0 idx0] rest IH]; intros [name Hin] Hfield Huniq.
  { by apply elem_of_nil in Hin. }
  simpl. case_decide as Hfield0.
  - pose proof (Huniq (name0, idx0) ltac:(left) Hfield0) as Hsame. simpl in Hsame. subst idx0.
    unfold probeIndex.
    destruct (Index_Find idx (Value_ f)) as [docID|] eqn:Hfind; [|done].
    destruct (docs !! docID) as [doc|] eqn:Hdoc; [done|].
    apply probeIndexes_none. intros p Hp Hpf.
    rewrite (Huniq p ltac:(by right) Hpf). unfold probeIndex. by rewrite Hfind, Hdoc.
  - apply IH; [|done|].
    + exists name. apply elem_of_cons in Hin as [Heq|Hin]; [|done].
      injection Heq as -> ->. done.
    + intros p Hp. apply Huniq. by right.
Qed.

(** With at most one index on the filter's field, the probe does not depend
    on the order in which the indexes are visited. *)
Lemma probeIndexes_order_independent (c : Collection) (f : QueryFilter)
    (idxOrder1 idxOrder2 : list (string * Index)) :
  single_index_on c (Field_ f) →
  visits (Indexes c) idxOrder1 → visits (Indexes c) idxOrder2 →
  probeIndexes idxOrder1 (Documents c) f = probeIndexes idxOrder2 (Documents c) f.
Proof.
  intros Hsingle Hv1 Hv2.
  assert (Hshape : ∀ idxOrder, visits (Indexes c) idxOrder →
    (∃ name idx, Indexes c !! name = Some idx ∧ FieldName idx = Field_ f ∧
                 probeIndexes idxOrder (Documents c) f = probeIndex idx (Documents c) f) ∨
    ((∀ name idx, Indexes c !! name = Some idx → FieldName idx ≠ Field_ f) ∧
     probeIndexes idxOrder (Documents c) f = ProbeNone)).
  { intros idxOrder Hv.
    destruct (decide (Exists (λ p : string * Index, FieldName p.2 = Field_ f) idxOrder))
      as [Hex|Hnone].
    - left. apply Exists_exists in Hex as ([name idx] & Hin & Hfield). simpl in Hfield.
      exists name, idx. split; [by apply (visits_elem_of _ _ _ _ Hv)|]. split; [done|].
      apply probeIndexes_single; [by exists name | done |].
      intros [name' idx'] Hin' Hfield'. simpl in *.
      apply (visits_elem_of _ _ _ _ Hv) in Hin, Hin'.
      pose proof (Hsingle name name' idx idx' Hin Hin' Hfield Hfield') as <-.
      congruence.
    - right. split.
      + intros name idx Hlk Hfield. apply Hnone, Exists_exists.
        exists (name, idx). split; [by apply (visits_elem_of _ _ _ _ Hv) | done].
      + apply probeIndexes_none. intros p Hp Hfield. exfalso.
        apply Hnone, Exists_exists. by exists p. }
  destruct (Hshape idxOrder1 Hv1) as [(n1 & i1 & Hl1 & Hf1 & ->)|[Hno1 ->]];
    destruct (Hshape idxOrder2 Hv2) as [(n2 & i2 & Hl2 & Hf2 & ->)|[Hno2 ->]].
  - pose proof (Hsingle n1 n2 i1 i2 Hl1 Hl2 Hf1 Hf2) as <-. congruence.
  - by destruct (Hno2 n1 i1 Hl1).
  - by destruct (Hno1 n2 i2 Hl2).
  - done.
Qed.

Lemma filter_Permutation_list {A : Type} (keep : A → bool) (l l' : list A) :
  l ≡ₚ l' → List.filter keep l ≡ₚ List.filter keep l'.
Proof.
  induction 1 as [|x l l' _ IH|x y l|l l' l'' _ IH1 _ IH2]; simpl.
  - done.
  - destruct (keep x); [by constructor | done].
  - destruct (keep x), (keep y); try done. apply perm_swap.
  - by etransitivity.
Qed.

Lemma visits_Permutation {A : Type} (m : gmap string A) (order1 order2 : list (string * A)) :
  visits m order1 → visits m order2 → order1 ≡ₚ order2.
Proof.
  intros [Hnd1 <-] [Hnd2 Heq].
  rewrite <- (map_to_list_to_map order1 Hnd1), <- (map_to_list_to_map order2 Hnd2).
  by rewrite Heq.
Qed.

Lemma scan_Permutation (c : Collection) (keep : Document → bool)
    (docOrder1 docOrder2 : list (string * Document)) :
  visits (Documents c) docOrder1 → visits (Documents c) docOrder2 →
  scan docOrder1 keep ≡ₚ scan docOrder2 keep.
Proof.
  intros Hv1 Hv2. unfold scan.
  apply Permutation_map, filter_Permutation_list, Permutation_map.
  by apply (visits_Permutation (Documents c)).
Qed.

Lemma applySkipLimit_unset (q : Query) (results : list Document) :
  Skip q <= 0 → Limit q <= 0 → applySkipLimit q results = results.
Proof.
  intros Hs Hl. unfold applySkipLimit.
  destruct (decide (Skip q > 0)); [lia|].
  destruct (decide (Limit q > 0 ∧ Limit q < Z.of_nat (length results))); [lia | done].
Qed.

(** C6, amended: [Find] visits the indexes in the order of the map
    iteration, without a tie-break by name.  For a query whose first filter
    has operator eq and a collection with at most one index on that filter's
    field, two runs get the same answer from the index loop; when that
    answer is a hit or a miss the two results are the same list, and when
    the query sets neither skip nor limit the two results hold the same
    documents up to order. *)
Theorem Find_eq_determinism (c : Collection) (q : Query) (f : QueryFilter)
    (rest : list QueryFilter)
    (idxOrder1 idxOrder2 : list (string * Index))
    (docOrder1 docOrder2 : list (string * Document)) :
  Filters q = f :: rest → Operator f = "eq" →
  single_index_on c (Field_ f) →
  visits (Indexes c) idxOrder1 → visits (Indexes c) idxOrder2 →
  visits (Documents c) docOrder1 → visits (Documents c) docOrder2 →
  probeIndexes idxOrder1 (Documents c) f = probeIndexes idxOrder2 (Documents c) f ∧
  (probeIndexes idxOrder1 (Documents c) f ≠ ProbeNone →
     Find idxOrder1 docOrder1 c q = Find idxOrder2 docOrder2 c q) ∧
  (Skip q <= 0 → Limit q <= 0 →
     Find idxOrder1 docOrder1 c q ≡ₚ Find idxOrder2 docOrder2 c q).
Proof.
  intros Hf Hop Hsingle Hi1 Hi2 Hd1 Hd2.
  pose proof (probeIndexes_order_independent c f idxOrder1 idxOrder2 Hsingle Hi1 Hi2) as Hprobe.
  split; [done|]. unfold Find. rewrite Hf, <- Hprobe.
  destruct (decide (Operator f = "eq")); [|done].
  destruct (probeIndexes idxOrder1 (Documents c) f) as [doc| |]; split; try done.
  intros Hs Hl. rewrite !applySkipLimit_unset by done.
  by apply (scan_Permutation c).
Qed.

Lemma NoDup_by_decide {A : Type} `{EqDecision A} (l : list A) :
  bool_decide (NoDup l) = true → NoDup l.
Proof. intros H. by apply bool_decide_eq_true in H. Qed.

Lemma Find_eq_determinism_witness :
  let oslo := mkDocument "d1" {[ "city" := VStr "Oslo" ]} in
  let rome := mkDocument "d2" {[ "city" := VStr "Rome" ]} in
  let by_id := mkIndex "_id" "_id" (<["d1" := "d1"]> {[ "d2" := "d2" ]}) in
  let by_city := mkIndex "by_city" "city" (<["Oslo" := "d1"]> {[ "Rome" := "d2" ]}) in
  let c := mkCollection "users" None (<["d1" := oslo]> {[ "d2" := rome ]})
             (<["by_city" := by_city]> {[ "_id" := by_id ]}) in
  let q := mkQuery [mkQueryFilter "city" "eq" (VStr "Rome")] 0 0 in
  Find [("_id", by_id); ("by_city", by_city)] [("d1", oslo); ("d2", rome)] c q =
  Find [("by_city", by_city); ("_id", by_id)] [("d2", rome); ("d1", oslo)] c q.
Proof.
  intros oslo rome by_id by_city c q.
  apply (Find_eq_determinism c q (mkQueryFilter "city" "eq" (VStr "Rome")) []).
  - reflexivity.
  - reflexivity.
  - intros n1 n2 i1 i2 H1 H2 F1 F2. simpl in H1, H2.
    apply lookup_insert_Some in H1 as [[<- <-]|[_ H1]].
    + apply lookup_insert_Some in H2 as [[<- <-]|[_ H2]]; [done|].
      apply lookup_singleton_Some in H2 as [<- <-]. discriminate F2.
    + apply lookup_singleton_Some in H1 as [<- <-]. discriminate F1.
  - split; [apply NoDup_by_decide; vm_compute; reflexivity | vm_compute; reflexivity].
  - split; [apply NoDup_by_decide; vm_compute; reflexivity | vm_compute; reflexivity].
  - split; [apply NoDup_by_decide; vm_compute; reflexivity | vm_compute; reflexivity].
  - split; [apply NoDup_by_decide; vm_compute; reflexivity | vm_compute; reflexivity].
  - vm_compute. discriminate.
Defined.

(** C6 as stated fails twice.  First, with two indexes a_city and b_city on
    city that hold different ids for Oslo, a run that visits a_city first
    answers d2 and a run that visits b_city first answers d1.  Second, with
    no index on city and limit 1, the answer is whichever of the two Oslo
    documents the scan visits first. *)
Lemma Find_depends_on_visiting_order :
  ¬ (∀ c q f rest, reachable acceptAll c → Filters q = f :: rest → Operator f = "eq" →
       Skip q = 0 → Limit q = 0 → Find_order_independent c q) ∧
  ¬ (∀ c q f rest, reachable acceptAll c → Filters q = f :: rest → Operator f = "eq" →
       (∀ name idx, Indexes c !! name = Some idx → FieldName idx ≠ Field_ f) →
       Find_order_independent c q).
Proof.
  set (d1 := mkDocument "d1" {[ "city" := VStr "Oslo" ]}).
  set (d2 := mkDocument "d2" {[ "city" := VStr "Oslo" ]}).
  set (by_id := mkIndex "_id" "_id" (<["d1" := "d1"]> {[ "d2" := "d2" ]})).
  set (f := mkQueryFilter "city" "eq" (VStr "Oslo")).
  set (c2 := (Insert acceptAll "" (Insert acceptAll "" (NewCollection "users" None) d1).1 d2).1).
  assert (reachable acceptAll c2) as Hreach2 by apply reach_Insert, reach_Insert, reach_new.
  split.
  - intros Hall.
    set (a0 := (CreateIndex [] (NewCollection "users" None) "a_city" "city").1).
    set (a2 := (Insert acceptAll "" (Insert acceptAll "" a0 d1).1 d2).1).
    set (c := (CreateIndex [("d2", d2); ("d1", d1)] a2 "b_city" "city").1).
    set (a_city := mkIndex "a_city" "city" {[ "Oslo" := "d2" ]}).
    set (b_city := mkIndex "b_city" "city" {[ "Oslo" := "d1" ]}).
    assert (reachable acceptAll c) as Hreach.
    { apply reach_CreateIndex.
      - apply reach_Insert, reach_Insert, reach_CreateIndex; [apply reach_new|].
        split; [apply NoDup_nil_2 | reflexivity].
      - split; [apply NoDup_by_decide; vm_compute; reflexivity | vm_compute; reflexivity]. }
    assert (Find [("a_city", a_city); ("b_city", b_city); ("_id", by_id)]
                 [("d1", d1); ("d2", d2)] c (mkQuery [f] 0 0)
            ≡ₚ Find [("b_city", b_city); ("a_city", a_city); ("_id", by_id)]
                 [("d1", d1); ("d2", d2)] c (mkQuery [f] 0 0)) as Hbad.
    { apply (Hall c (mkQuery [f] 0 0) f [] Hreach eq_refl eq_refl eq_refl eq_refl);
        (split; [apply NoDup_by_decide; vm_compute; reflexivity | vm_compute; reflexivity]). }
    vm_compute in Hbad.
    apply Permutation_singleton_inj in Hbad. discriminate Hbad.
  - intros Hall.
    assert (Indexes c2 = {[ "_id" := by_id ]}) as Hidx by (vm_compute; reflexivity).
    pose proof (Hall c2 (mkQuery [f] 1 0) f [] Hreach2 eq_refl eq_refl) as Hperm.
    assert (Find [("_id", by_id)] [("d1", d1); ("d2", d2)] c2 (mkQuery [f] 1 0)
            ≡ₚ Find [("_id", by_id)] [("d2", d2); ("d1", d1)] c2 (mkQuery [f] 1 0)) as Hbad.
    { apply (Hperm ltac:(intros name idx Hlk Hfield; rewrite Hidx in Hlk;
                          apply lookup_singleton_Some in Hlk as [_ <-]; discriminate Hfield));
        (split; [apply NoDup_by_decide; vm_compute; reflexivity | vm_compute; reflexivity]). }
    vm_compute in Hbad.
    apply Permutation_singleton_inj in Hbad. discriminate Hbad.
Qed.

(** * Binary collection file *)

Lemma le_bytes_length (n : nat) : ∀ z, length (le_bytes n z) = n.
Proof. induction n as [|n IH]; intros z; simpl; [done | by rewrite IH]. Qed.

(** Decoding the bytes of [le_bytes] gives back the low bits. *)
Lemma le_value_le_bytes (n : nat) : ∀ z, le_value (le_bytes n z) = z mod 256 ^ Z.of_nat n.
Proof.
  induction n as [|n IH]; intros z.
  - simpl. by rewrite Z.mod_1_r.
  - cbn [le_bytes le_value]. rewrite IH.
    rewrite Nat2Z.inj_succ, Z.pow_succ_r by lia.
    rewrite (Z.rem_mul_r z 256 (256 ^ Z.of_nat n)) by lia.
    done.
Qed.

Lemma headerBytes_length : blen headerBytes = HeaderSize.
Proof. reflexivity. Qed.

(** ** Opening a reader *)

Lemma reader_rejects_wrong_magic (dir : CollDir) (f : bytes) (h : BinaryHeader) :
  dataFile dir = Some f → readHeader f = Some h → Magic h ≠ CollectionMagic →
  NewBinaryCollectionReader dir = inr (ErrInvalidMagic (Magic h)).
Proof.
  intros Hf Hh Hm. unfold NewBinaryCollectionReader. rewrite Hf, Hh.
  by destruct (decide (Magic h ≠ CollectionMagic)).
Qed.

(** The version field plays no part in opening a reader. *)
Lemma reader_ignores_version (dir : CollDir) (f : bytes) (h : BinaryHeader)
    (index : OffsetIndex) :
  dataFile dir = Some f → readHeader f = Some h → Magic h = CollectionMagic →
  LoadOffsetIndex dir = Some index →
  NewBinaryCollectionReader dir = inl (mkReader f index).
Proof.
  intros Hf Hh Hm Hi. unfold NewBinaryCollectionReader. rewrite Hf, Hh, Hi.
  by destruct (decide (Magic h ≠ CollectionMagic)).
Qed.

(** C5, evaluated on a file of version 2: the eight bytes 48 43 41 43 02 00
    01 00 carry the right magic number and version 2; the header is read
    with version 2 and the reader opens. *)
Theorem reader_accepts_version_2 :
  let f := PutUint32 CollectionMagic ++ PutUint16 2 ++ PutUint16 1 in
  let dir := mkCollDir None (Some f) None None None in
  f = [0x48; 0x43; 0x41; 0x43; 0x02; 0x00; 0x01; 0x00] ∧
  readHeader f = Some (mkBinaryHeader CollectionMagic 2 1) ∧
  NewBinaryCollectionReader dir = inl (mkReader f ∅).
Proof. repeat split. Qed.

(** ** Writing and reading back *)

Lemma File_Write_prefix_length (f : File) :
  length (take (pos f) (content f) ++ replicate (pos f - length (content f)) 0) = pos f.
Proof. rewrite length_app, length_take, length_replicate. lia. Qed.


(** Two writes in a row store the two buffers one after the other. *)
Lemma File_Write_twice (f : File) (a b : bytes) :
  File_Write (File_Write f a) b = File_Write f (a ++ b).
Proof.
  unfold File_Write. simpl.
  pose proof (File_Write_prefix_length f) as Hlen.
  set (pre := take (pos f) (content f) ++ replicate (pos f - length (content f)) 0) in *.
  rewrite !(app_assoc (take (pos f) (content f))). fold pre.
  assert (length (pre ++ a ++ drop (pos f + length a) (content f))
          = (pos f + length a + length (drop (pos f + length a) (content f)))%nat) as Hall.
  { rewrite !length_app. lia. }
  f_equal; [|rewrite length_app; lia].
  rewrite (app_assoc pre a), take_app_length' by (rewrite length_app; lia).
  replace (pos f + length a - length ((pre ++ a) ++ drop (pos f + length a) (content f)))%nat
    with 0%nat by (rewrite !length_app; lia).
  simpl. rewrite <- !app_assoc. do 3 f_equal.
  rewrite (app_assoc pre a).
  rewrite drop_app_ge by (rewrite length_app; lia).
  rewrite drop_drop, !length_app. f_equal. lia.
Qed.

Section Records.

Variable crc32_ChecksumIEEE : bytes -> Z.
Variable Compress : bytes -> option bytes.
Variable Decompress : bytes -> option bytes.
Variable MarshalJSON : Document -> option bytes.
Variable UnmarshalJSON : bytes -> option Document.

Local Abbreviation WriteDocument := (WriteDocument crc32_ChecksumIEEE Compress MarshalJSON).
Local Abbreviation entryHeader := (entryHeader crc32_ChecksumIEEE).

(** The codec is lossless, as the specification requires of it. *)
Hypothesis lossless :
  ∀ raw packed, Compress raw = Some packed → Decompress packed = Some raw.

Lemma entryHeader_length (offset : Z) (jsonData compressedData : bytes) :
  blen (entryHeader offset jsonData compressedData) = DocEntryHeaderSize.
Proof.
  unfold blen, entryHeader, PutUint64, PutUint32.
  by rewrite !length_app, !le_bytes_length.
Qed.

Lemma WriteDocument_ok (w : BinaryCollectionWriter) (doc : Document)
    (jsonData compressedData : bytes) :
  MarshalJSON doc = Some jsonData → Compress jsonData = Some compressedData →
  WriteDocument w doc =
    inl (mkWriter
           (File_Write (w_dataFile w)
              (entryHeader (w_offset w) jsonData compressedData ++ compressedData))
           (int64 (w_offset w + int64 (DocEntryHeaderSize + blen compressedData)))
           (<[ID doc := mkDocumentEntry (w_offset w) (uint32 (blen jsonData))
                          (uint32 (blen compressedData))
                          (crc32_ChecksumIEEE compressedData)]> (w_index w))).
Proof.
  intros Hj Hc. unfold WriteDocument. rewrite Hj, Hc.
  by rewrite File_Write_twice.
Qed.





End Records.




(** ** Saving and loading a collection *)

Lemma readEntries_all (recs : list (string * DocumentEntry)) :
  ∀ index, NoDup recs.*1 →
    readEntries (length recs) recs index = Some (list_to_map recs ∪ index).
Proof.
  induction recs as [|[docID entry] rest IH]; intros index Hnd; simpl.
  - by rewrite (left_id_L ∅ (∪)).
  - apply NoDup_cons in Hnd as [Hnotin Hnd]. rewrite IH by done. f_equal.
    rewrite <- insert_union_r by (by apply not_elem_of_list_to_map_1).
    by rewrite insert_union_l.
Qed.

(** The sidecar written for an offset index (of fewer than 2^32 entries)
    loads as that offset index. *)
Lemma LoadOffsetIndex_saved (index : OffsetIndex) (dir : CollDir) :
  Z.of_nat (size index) < 2 ^ 32 →
  LoadOffsetIndex (SaveOffsetIndex index dir) = Some index.
Proof.
  intros Hfit. unfold LoadOffsetIndex, SaveOffsetIndex, uint32. simpl.
  rewrite Z.mod_small by lia. rewrite Nat2Z.id.
  replace (size index) with (length (map_to_list index)) by apply length_map_to_list.
  rewrite readEntries_all by apply NoDup_fst_map_to_list.
  by rewrite list_to_map_to_list, (right_id_L ∅ (∪)).
Qed.

Section SaveLoad.

Variable crc32_ChecksumIEEE : bytes -> Z.
Variable Compress : bytes -> option bytes.
Variable Decompress : bytes -> option bytes.
Variable MarshalJSON : Document -> option bytes.
Variable UnmarshalJSON : bytes -> option Document.
Variable WriteFile_elsewhere : Index -> CollDir -> CollDir * option ioerror.

Local Abbreviation entryHeader := (entryHeader crc32_ChecksumIEEE).
Local Abbreviation ReadDocument := (ReadDocument crc32_ChecksumIEEE Decompress UnmarshalJSON).
Local Abbreviation SaveToDisk := (SaveToDisk WriteFile_elsewhere).
Local Abbreviation saveIndexes := (saveIndexes WriteFile_elsewhere).
Local Abbreviation SaveCollection :=
  (SaveCollection crc32_ChecksumIEEE Compress MarshalJSON WriteFile_elsewhere).
Local Abbreviation LoadCollection := (LoadCollection crc32_ChecksumIEEE Decompress UnmarshalJSON).

(** A record found where the offset index says it is, with the checksum of
    its payload, reads as the document it encodes. *)
Lemma ReadDocument_record (r : BinaryCollectionReader) (docID : string) (doc : Document)
    (offset : Z) (jsonData compressedData before after : bytes) :
  r_dataFile r = before ++ (entryHeader offset jsonData compressedData ++ compressedData)
                   ++ after →
  blen before = offset →
  r_index r !! docID =
    Some (mkDocumentEntry offset (uint32 (blen jsonData)) (uint32 (blen compressedData))
            (crc32_ChecksumIEEE compressedData)) →
  DocEntryHeaderSize + blen compressedData < 2 ^ 32 →
  Decompress compressedData = Some jsonData → UnmarshalJSON jsonData = Some doc →
  ReadDocument r docID = inl doc.
Proof.
  intros Hfile Hoff Hentry Hfit Hd Hu. unfold ReadDocument. rewrite Hentry. simpl.
  pose proof (entryHeader_length crc32_ChecksumIEEE offset jsonData compressedData) as Hlen.
  unfold DocEntryHeaderSize, blen in *.
  assert (uint32 (20 + uint32 (Z.of_nat (length compressedData)))
          = 20 + Z.of_nat (length compressedData)) as ->.
  { unfold uint32. rewrite (Z.mod_small (Z.of_nat _)) by lia. apply Z.mod_small. lia. }
  unfold File_ReadAt, blen. rewrite Hfile.
  rewrite decide_True.
  2:{ split; [lia|]. right. split; [lia|]. rewrite !length_app. lia. }
  rewrite drop_app_length' by lia.
  rewrite take_app_length' by (rewrite length_app; lia).
  rewrite decide_False by lia.
  rewrite drop_app_length' by lia.
  rewrite decide_False by (intros H; by apply H).
  by rewrite Hd, Hu.
Qed.

Lemma NewBinaryCollectionWriter_fresh (dir : CollDir) :
  dataFile dir = None → idxFile dir = None →
  NewBinaryCollectionWriter dir = mkWriter (mkFile headerBytes 8) HeaderSize ∅.
Proof.
  intros Hf Hi. unfold NewBinaryCollectionWriter, LoadOffsetIndex. by rewrite Hf, Hi.
Qed.

Lemma NewBinaryCollectionWriter_existing (dir : CollDir) (f : bytes) (index : OffsetIndex) :
  dataFile dir = Some f → blen f ≠ 0 → LoadOffsetIndex dir = Some index →
  NewBinaryCollectionWriter dir = mkWriter (mkFile f 0) (blen f) index.
Proof.
  intros Hf Hlen Hi. unfold NewBinaryCollectionWriter. rewrite Hf, Hi.
  cbn [default]. by rewrite decide_False.
Qed.

Lemma File_Write_at_end (f : File) (buf : bytes) :
  pos f = length (content f) → content (File_Write f buf) = content f ++ buf.
Proof.
  intros Hpos. unfold File_Write. cbn [content]. rewrite Hpos.
  rewrite take_ge, Nat.sub_diag, drop_ge by lia. cbn [replicate].
  by rewrite app_nil_l, app_nil_r.
Qed.


(** A save in binary format that wrote every document goes on to save the
    indexes. *)
Lemma SaveCollection_binary (docOrder : list (string * Document))
    (idxOrder : list (string * Index)) (dir : CollDir)
    (coll : Collection) (w : BinaryCollectionWriter) :
  let meta := mkCollectionMeta (coll_Name coll) (coll_Schema coll)
                (FieldName <$> Indexes coll) FormatBinary in
  let dir' := mkCollDir (Some meta) (dataFile dir) (idxFile dir) (documentsFile dir)
                (indexesDir dir) in
  writeAll crc32_ChecksumIEEE Compress MarshalJSON (NewBinaryCollectionWriter dir') docOrder
    = (w, None) →
  SaveCollection FormatBinary docOrder idxOrder dir coll = saveIndexes idxOrder (Flush w dir').
Proof.
  intros meta dir' Hw. unfold SaveCollection. rewrite decide_True by done.
  fold meta. fold dir'. by rewrite Hw.
Qed.

(** Saving the indexes leaves the data file and the sidecar alone, whether
    or not the indexes can be written. *)
Lemma saveIndexes_binary_files (idxOrder : list (string * Index)) :
  ∀ dir : CollDir,
    dataFile (saveIndexes idxOrder dir).1 = dataFile dir ∧
    idxFile (saveIndexes idxOrder dir).1 = idxFile dir.
Proof.
  induction idxOrder as [|[name idx] rest IH]; intros dir; [done|].
  cbn [saveIndexes].
  assert (dataFile (SaveToDisk idx dir).1 = dataFile dir ∧
          idxFile (SaveToDisk idx dir).1 = idxFile dir) as [Hd Hi].
  { unfold SaveToDisk. by destruct (plainFileName (idx_Name idx)). }
  destruct (SaveToDisk idx dir) as [dir' [e|]]; cbn [fst] in *; [done|].
  destruct (IH dir') as [Hd' Hi']. by rewrite Hd', Hi'.
Qed.

(** Indexes with plain names are all written: no error, and the other JSON
    files stay as they are. *)
Lemma saveIndexes_plain (idxOrder : list (string * Index)) :
  plainly_named idxOrder →
  ∀ dir : CollDir,
    (saveIndexes idxOrder dir).2 = None ∧
    metaFile (saveIndexes idxOrder dir).1 = metaFile dir ∧
    documentsFile (saveIndexes idxOrder dir).1 = documentsFile dir ∧
    default ∅ (indexesDir (saveIndexes idxOrder dir).1)
      = fold_left (λ files p, <[idx_Name p.2 := p.2]> files) idxOrder
          (default ∅ (indexesDir dir)).
Proof.
  induction idxOrder as [|[name idx] rest IH]; intros Hplain dir; [done|].
  cbn [saveIndexes fold_left snd]. unfold SaveToDisk.
  rewrite (Hplain name idx) by left.
  destruct (IH (λ n i Hin, Hplain n i (list_elem_of_further _ _ _ Hin))
              (mkCollDir (metaFile dir) (dataFile dir) (idxFile dir) (documentsFile dir)
                 (Some (<[idx_Name idx := idx]> (default ∅ (indexesDir dir))))))
    as (He & Hm & Hdocs & Hidx).
  done.
Qed.

Lemma saved_metaFile (idxOrder : list (string * Index)) (w : BinaryCollectionWriter)
    (dir : CollDir) :
  plainly_named idxOrder →
  metaFile (saveIndexes idxOrder (Flush w dir)).1 = metaFile dir.
Proof. intros Hplain. by destruct (saveIndexes_plain idxOrder Hplain (Flush w dir)) as (_ & -> & _). Qed.

Lemma saved_dataFile (idxOrder : list (string * Index)) (w : BinaryCollectionWriter)
    (dir : CollDir) :
  dataFile (saveIndexes idxOrder (Flush w dir)).1 = Some (content (w_dataFile w)).
Proof. by destruct (saveIndexes_binary_files idxOrder (Flush w dir)) as [-> _]. Qed.

Lemma saved_idxFile (idxOrder : list (string * Index)) (w : BinaryCollectionWriter)
    (dir : CollDir) :
  idxFile (saveIndexes idxOrder (Flush w dir)).1
    = Some (mkIdxFile (uint32 (Z.of_nat (size (w_index w)))) (map_to_list (w_index w))).
Proof. by destruct (saveIndexes_binary_files idxOrder (Flush w dir)) as [_ ->]. Qed.

Lemma LoadOffsetIndex_one (dir : CollDir) (docID : string) (entry : DocumentEntry) :
  idxFile dir = Some (mkIdxFile (uint32 (Z.of_nat (size ({[ docID := entry ]} : OffsetIndex))))
                        (map_to_list ({[ docID := entry ]} : OffsetIndex))) →
  LoadOffsetIndex dir = Some {[ docID := entry ]}.
Proof.
  intros Hidx. unfold LoadOffsetIndex. rewrite Hidx. cbn [numEntries records].
  by rewrite map_size_singleton, map_to_list_singleton.
Qed.

Lemma readHeader_headerBytes (rest : bytes) :
  readHeader (headerBytes ++ rest)
    = Some (mkBinaryHeader CollectionMagic BinaryFormatVersion 1).
Proof.
  unfold readHeader, File_ReadAt. rewrite decide_True; [done|].
  split; [lia|]. right. unfold blen, HeaderSize. rewrite length_app. simpl. lia.
Qed.

Lemma rebuildIdIndex_Documents (c : Collection) :
  Documents (rebuildIdIndex c) = Documents c.
Proof. unfold rebuildIdIndex. by destruct (Indexes c !! "_id"). Qed.

Lemma rebuildIdIndex_Name_Schema (c : Collection) :
  coll_Name (rebuildIdIndex c) = coll_Name c ∧ coll_Schema (rebuildIdIndex c) = coll_Schema c.
Proof. unfold rebuildIdIndex. by destruct (Indexes c !! "_id"). Qed.

(** What a load in binary format returns once the reader opened and every
    record was read. *)
Lemma LoadCollection_binary (entryOrder : list (string * DocumentEntry)) (dir : CollDir)
    (meta : CollectionMeta) (reader : BinaryCollectionReader) (docs : list Document) :
  metaFile dir = Some meta → meta_Format meta = FormatBinary →
  NewBinaryCollectionReader dir = inl reader →
  ReadAllDocuments crc32_ChecksumIEEE Decompress UnmarshalJSON entryOrder reader = inl docs →
  ∃ loaded, LoadCollection entryOrder dir = inl loaded ∧
            Documents loaded = storeAll docs ∅ ∧
            coll_Name loaded = meta_Name meta ∧ coll_Schema loaded = meta_Schema meta.
Proof.
  intros Hmeta Hfmt Hreader Hdocs. unfold LoadCollection.
  rewrite Hmeta, Hfmt.
  destruct (decide (FormatBinary = "")) as [Hempty|_]; [discriminate Hempty|].
  destruct (decide (FormatBinary = FormatBinary)) as [_|Hne]; [|done].
  rewrite Hreader, Hdocs.
  destruct (decide (is_Some (default ∅ (indexesDir dir) !! "_id"))).
  - by eexists.
  - eexists. split; [done|]. rewrite rebuildIdIndex_Documents.
    split; [done|]. apply rebuildIdIndex_Name_Schema.
Qed.

(** The first save of a collection with the single document [d] into an
    empty directory. *)
Lemma first_save (d : Document) (c : Collection) (idxOrder : list (string * Index))
    (jsonData compressedData : bytes) :
  MarshalJSON d = Some jsonData → Compress jsonData = Some compressedData →
  let dir1 := (SaveCollection FormatBinary [(ID d, d)] idxOrder emptyDir c).1 in
  let entry := mkDocumentEntry HeaderSize (uint32 (blen jsonData))
                 (uint32 (blen compressedData)) (crc32_ChecksumIEEE compressedData) in
  dataFile dir1
    = Some (headerBytes ++ entryHeader HeaderSize jsonData compressedData ++ compressedData) ∧
  LoadOffsetIndex dir1 = Some {[ ID d := entry ]}.
Proof.
  intros Hj Hc dir1 entry. unfold dir1.
  erewrite SaveCollection_binary.
  2:{ rewrite NewBinaryCollectionWriter_fresh by done.
      cbn [writeAll]. rewrite (WriteDocument_ok _ _ _ _ _ jsonData compressedData Hj Hc).
      reflexivity. }
  split.
  - rewrite saved_dataFile. cbn [w_dataFile].
    by rewrite File_Write_at_end.
  - apply LoadOffsetIndex_one.
    rewrite saved_idxFile. cbn [w_index].
    by rewrite insert_empty.
Qed.

(** The collection of C2, before and after the delete: its only index is
    the one on the ids, under its own name. *)
Lemma only_id_index_plain (c : Collection) (idxOrder : list (string * Index)) :
  (∀ name idx, Indexes c !! name = Some idx → idx_Name idx = "_id") →
  visits (Indexes c) idxOrder → plainly_named idxOrder.
Proof.
  intros Hid Hvis name idx Hin. apply (visits_elem_of _ _ _ _ Hvis) in Hin.
  by rewrite (Hid name idx Hin).
Qed.

(** C2, evaluated after a delete: a collection holding one document is
    saved, the document is deleted, and the collection, now empty, is saved
    again.  The second save finds the offset index of the first one, writes
    no record and stores that offset index back with the entry of the
    deleted document; loading the directory reads the old record through it
    and returns a collection that holds the deleted document. *)
Theorem deleted_document_is_loaded_again (d : Document) (jsonData compressedData : bytes)
    (idxOrder1 idxOrder2 : list (string * Index)) :
  ID d ≠ "" →
  MarshalJSON d = Some jsonData → Compress jsonData = Some compressedData →
  Decompress compressedData = Some jsonData → UnmarshalJSON jsonData = Some d →
  DocEntryHeaderSize + blen compressedData < 2 ^ 32 →
  let c1 := (Insert acceptAll "" (NewCollection "users" None) d).1 in
  let c2 := (Delete c1 (ID d)).1 in
  visits (Indexes c1) idxOrder1 → visits (Indexes c2) idxOrder2 →
  let dir1 := (SaveCollection FormatBinary [(ID d, d)] idxOrder1 emptyDir c1).1 in
  let dir2 := (SaveCollection FormatBinary [] idxOrder2 dir1 c2).1 in
  let entry := mkDocumentEntry HeaderSize (uint32 (blen jsonData))
                 (uint32 (blen compressedData)) (crc32_ChecksumIEEE compressedData) in
  Documents c1 = {[ ID d := d ]} ∧
  Documents c2 = ∅ ∧
  (SaveCollection FormatBinary [] idxOrder2 dir1 c2).2 = None ∧
  LoadOffsetIndex dir2 = Some {[ ID d := entry ]} ∧
  ∃ loaded, LoadCollection [(ID d, entry)] dir2 = inl loaded ∧
            Documents loaded = {[ ID d := d ]}.
Proof.
  intros Hid Hj Hc Hd Hu Hfit c1 c2 Hvis1 Hvis2 dir1 dir2 entry.
  assert (withID "" d = d) as Hwith by (unfold withID; by rewrite decide_False).
  assert (c1 = mkCollection "users" None {[ ID d := d ]}
                 ((λ idx, (AddToIndex idx d).1) <$> {[ "_id" := NewIndex "_id" "_id" ]}))
    as Hc1eq.
  { unfold c1. rewrite Insert_ok; rewrite Hwith; done. }
  assert (Documents c1 = {[ ID d := d ]}) as Hc1 by (by rewrite Hc1eq).
  assert (c2 = mkCollection "users" None ∅
                 ((λ idx, (RemoveFromIndex idx d).1) <$> Indexes c1)) as Hc2eq.
  { unfold c2. rewrite (Delete_ok c1 (ID d) d) by (by rewrite Hc1, lookup_singleton_eq).
    cbn [fst]. rewrite Hc1, delete_singleton_eq. by rewrite Hc1eq. }
  assert (Documents c2 = ∅) as Hc2 by (by rewrite Hc2eq).
  assert (plainly_named idxOrder2) as Hplain2.
  { apply (only_id_index_plain c2); [|done]. intros name idx. rewrite Hc2eq, Hc1eq.
    cbn [Indexes]. rewrite !map_fmap_singleton, lookup_singleton_Some. intros [_ <-].
    by rewrite RemoveFromIndex_Name, AddToIndex_Name. }
  set (file := headerBytes ++ entryHeader HeaderSize jsonData compressedData ++ compressedData).
  destruct (first_save d c1 idxOrder1 jsonData compressedData Hj Hc) as [Hdata1 Hload1].
  fold dir1 in Hdata1, Hload1. fold file in Hdata1. fold entry in Hload1.
  assert (blen file ≠ 0) as Hnonempty.
  { unfold file, blen. rewrite length_app. cbn [headerBytes length]. simpl length. lia. }
  set (dir' := mkCollDir (Some (mkCollectionMeta (coll_Name c2) (coll_Schema c2)
                                  (FieldName <$> Indexes c2) FormatBinary))
                 (dataFile dir1) (idxFile dir1) (documentsFile dir1) (indexesDir dir1)).
  set (w := mkWriter (mkFile file 0) (blen file) ({[ ID d := entry ]} : OffsetIndex)).
  assert (SaveCollection FormatBinary [] idxOrder2 dir1 c2 = saveIndexes idxOrder2 (Flush w dir'))
    as Hsave2.
  { apply SaveCollection_binary.
    by rewrite (NewBinaryCollectionWriter_existing _ file {[ ID d := entry ]}). }
  assert (metaFile dir2 = Some (mkCollectionMeta (coll_Name c2) (coll_Schema c2)
                                  (FieldName <$> Indexes c2) FormatBinary) ∧
          dataFile dir2 = Some file ∧
          LoadOffsetIndex dir2 = Some {[ ID d := entry ]}) as (Hmeta2 & Hdata2 & Hload2).
  { unfold dir2. rewrite Hsave2.
    split; [by rewrite saved_metaFile|]. split; [by rewrite saved_dataFile|].
    apply LoadOffsetIndex_one. by rewrite saved_idxFile. }
  split; [done|]. split; [done|].
  split; [rewrite Hsave2; by destruct (saveIndexes_plain idxOrder2 Hplain2 (Flush w dir'))|].
  split; [done|].
  destruct (LoadCollection_binary [(ID d, entry)] dir2 _
              (mkReader file {[ ID d := entry ]}) [d] Hmeta2 eq_refl)
    as (loaded & Hloaded & Hdocs & _).
  - exact (reader_ignores_version dir2 file _ _ Hdata2 (readHeader_headerBytes _) eq_refl Hload2).
  - assert (ReadDocument (mkReader file {[ ID d := entry ]}) (ID d) = inl d) as Hread.
    { apply (ReadDocument_record _ (ID d) d HeaderSize jsonData compressedData headerBytes []);
        [cbn [r_dataFile]; by rewrite app_nil_r | done | apply lookup_singleton_eq | done | done | done]. }
    unfold ReadAllDocuments. cbn [fmap list_fmap fst readAll]. by rewrite Hread.
  - exists loaded. split; [done|]. by rewrite Hdocs.
Qed.



End SaveLoad.

Lemma deleted_document_is_loaded_again_witness :
  let d := mkDocument "d1" ∅ in
  let c1 := (Insert acceptAll "" (NewCollection "users" None) d).1 in
  let c2 := (Delete c1 "d1").1 in
  let dir1 := (SaveCollection sum32 storeRaw idBytes refuseWrite FormatBinary [("d1", d)]
                 [("_id", mkIndex "_id" "_id" {[ "d1" := "d1" ]})] emptyDir c1).1 in
  let dir2 := (SaveCollection sum32 storeRaw idBytes refuseWrite FormatBinary []
                 [("_id", mkIndex "_id" "_id" ∅)] dir1 c2).1 in
  Documents c2 = ∅ ∧
  ∃ loaded,
    LoadCollection sum32 storeRaw idDocument
      [("d1", mkDocumentEntry HeaderSize 2 2 (sum32 [100; 49]))] dir2 = inl loaded ∧
    Documents loaded = {[ "d1" := d ]}.
Proof.
  intros d c1 c2 dir1 dir2.
  destruct (deleted_document_is_loaded_again sum32 storeRaw storeRaw idBytes idDocument
              refuseWrite d [100; 49] [100; 49]
              [("_id", mkIndex "_id" "_id" {[ "d1" := "d1" ]})]
              [("_id", mkIndex "_id" "_id" ∅)]) as (_ & Hempty & _ & _ & Hloaded).
  - discriminate.
  - reflexivity.
  - reflexivity.
  - reflexivity.
  - reflexivity.
  - reflexivity.
  - split; [apply NoDup_by_decide; vm_compute; reflexivity | vm_compute; reflexivity].
  - split; [apply NoDup_by_decide; vm_compute; reflexivity | vm_compute; reflexivity].
  - split; [exact Hempty | exact Hloaded].
Defined.


(** * Replay of the write-ahead log *)

Lemma updateIndex_new (idx : Index) (old : option Document) (doc : Document) :
  (updateIndex idx old (Some doc)).1 =
    (AddToIndex (from_option (λ o, (RemoveFromIndex idx o).1) idx old) doc).1.
Proof.
  destruct old as [o|]; [|done]. unfold updateIndex. simpl.
  pose proof (RemoveFromIndex_nil idx o) as H.
  destruct (RemoveFromIndex idx o) as [i e]; simpl in *. by subst e.
Qed.

Lemma Index_eq (i j : Index) :
  idx_Name i = idx_Name j → FieldName i = FieldName j → idx_Data i = idx_Data j → i = j.
Proof. destruct i, j. simpl. by intros -> -> ->. Qed.

(** Replacing a document by itself leaves an index that already holds it
    as it is. *)
Lemma AddToIndex_again (idx : Index) (doc : Document) :
  (updateIndex (AddToIndex idx doc).1 (Some doc) (Some doc)).1 = (AddToIndex idx doc).1.
Proof.
  rewrite updateIndex_new. cbn [from_option]. apply Index_eq.
  - by rewrite AddToIndex_Name, RemoveFromIndex_Name.
  - by rewrite AddToIndex_FieldName, RemoveFromIndex_FieldName.
  - rewrite AddToIndex_Data, RemoveFromIndex_FieldName, RemoveFromIndex_Data.
    rewrite AddToIndex_FieldName, AddToIndex_Data.
    destruct (GetValue doc (FieldName idx)) as [v|]; [|done].
    by rewrite insert_delete_eq, insert_insert_eq.
Qed.

(** ** What one entry does to one observation *)

Lemma below_refl (x : Observed) : below x x.
Proof. right. by left. Qed.

Lemma below_trans (x y z : Observed) : below x y → below y z → below x z.
Proof.
  intros [->|[->|[-> (name & field & ->)]]] Hyz; [by left | done |].
  destruct Hyz as [Habs|[<-|[Hno _]]]; [discriminate Habs | | discriminate Hno].
  right. right. split; [done|]. by exists name, field.
Qed.

(** Two runs of one action end alike, or the first only added and the
    second either changed nothing or found less than the first now has. *)
Lemma act_lockstep (a : Action) (x y x' y' : Observed) :
  act a x = Some x' → act a y = Some y' →
  x' = y' ∨ (below x x' ∧ (y' = y ∨ ¬ below x' y)).
Proof.
  unfold below.
  destruct a, x, y; cbn; intros Hx Hy; simplify_eq;
    first
      [ by left
      | right; split;
        [ first [ by left | by (right; left)
                | right; right; split; [done | by eexists _, _] ]
        | first [ by left
                | right; intros [Hbad|[Hbad|[_ (? & ? & Hbad)]]]; discriminate Hbad ] ] ].
Qed.

Lemma in_step_act (a : Action) (x y z x' y' : Observed) :
  in_step x y z → act a x = Some x' → act a y = Some y' → in_step x' y' z.
Proof.
  intros Hin Hx Hy. destruct (act_lockstep a x y x' y' Hx Hy) as [<-|[Hup Hy']].
  { by left. }
  destruct Hin as [->|[->|Hnot]].
  - left. congruence.
  - destruct Hy' as [->|Hnot]; [right; by left | right; by right].
  - right. right. intros Hbelow. apply Hnot. by apply (below_trans x x' z).
Qed.

Lemma updateIndex_Name_FieldName (idx : Index) (old new : option Document) :
  idx_Name (updateIndex idx old new).1 = idx_Name idx ∧
  FieldName (updateIndex idx old new).1 = FieldName idx.
Proof.
  unfold updateIndex.
  destruct old as [o|]; cbn.
  - pose proof (RemoveFromIndex_nil idx o) as Hnil.
    pose proof (RemoveFromIndex_Name idx o) as Hn.
    pose proof (RemoveFromIndex_FieldName idx o) as Hf.
    destruct (RemoveFromIndex idx o) as [i1 e1]; cbn in *; subst e1.
    destruct new as [n|]; cbn; [|done].
    by rewrite AddToIndex_Name, AddToIndex_FieldName, Hn, Hf.
  - destruct new as [n|]; cbn; [|done].
    by rewrite AddToIndex_Name, AddToIndex_FieldName.
Qed.

(** The indexes of a collection after every index was updated: the same
    names, each index with its name and field. *)
Lemma observe_updated_indexes (idxs : gmap string Index) (old new : option Document)
    (index : string) :
  from_option (λ idx, SeenIndex (idx_Name idx) (FieldName idx)) NoIndex
    (((λ idx, (updateIndex idx old new).1) <$> idxs) !! index)
  = from_option (λ idx, SeenIndex (idx_Name idx) (FieldName idx)) NoIndex (idxs !! index).
Proof.
  rewrite lookup_fmap. destruct (idxs !! index) as [idx|]; cbn; [|done].
  by destruct (updateIndex_Name_FieldName idx old new) as [-> ->].
Qed.

Section ReplayFacts.

Variable docOrder : gmap string Document -> list (string * Document).

Local Abbreviation applyToCollection := (applyToCollection docOrder).
Local Abbreviation applyEntry := (applyEntry docOrder).
Local Abbreviation Replay := (Replay docOrder).

Lemma applyToCollection_again (e : WALEntry) (c c1 : Collection) :
  applyToCollection e c = inl c1 → applyToCollection e c1 = inl c1.
Proof.
  unfold applyToCollection.
  destruct (wal_Operation e), (wal_Data e) as [|doc|s|indexName fieldName];
    try discriminate.
  - (* create_index *)
    destruct (Indexes c !! indexName) eqn:Hi; intros [= <-]; simpl.
    + by rewrite Hi.
    + by rewrite lookup_insert_eq.
  - (* insert *)
    destruct (Documents c !! ID doc) eqn:Hd; intros [= <-]; simpl.
    + by rewrite Hd.
    + by rewrite lookup_insert_eq.
  - (* update *)
    intros [= <-]. simpl. rewrite lookup_insert_eq, insert_insert_eq.
    do 2 f_equal. rewrite <- map_fmap_compose. apply map_fmap_ext.
    intros name idx _. simpl. rewrite (updateIndex_new idx). apply AddToIndex_again.
  - (* delete, the four payload shapes *)
    destruct (Documents c !! DocumentID e) eqn:Hd; intros [= <-]; simpl.
    + by rewrite lookup_delete_eq.
    + by rewrite Hd.
  - destruct (Documents c !! DocumentID e) eqn:Hd; intros [= <-]; simpl.
    + by rewrite lookup_delete_eq.
    + by rewrite Hd.
  - destruct (Documents c !! DocumentID e) eqn:Hd; intros [= <-]; simpl.
    + by rewrite lookup_delete_eq.
    + by rewrite Hd.
  - destruct (Documents c !! DocumentID e) eqn:Hd; intros [= <-]; simpl.
    + by rewrite lookup_delete_eq.
    + by rewrite Hd.
Qed.

Lemma applyEntry_in_collection (dm dm1 : DatabaseManager) (e : WALEntry) :
  match Databases dm !! wal_Database e with
  | None => inr (ErrWALDatabaseMissing (wal_Database e))
  | Some db =>
      match Collections db !! wal_Collection e with
      | None => inr (ErrWALCollectionMissing (wal_Collection e))
      | Some c =>
          match applyToCollection e c with
          | inr err => inr err
          | inl c' =>
              inl (mkDatabaseManager
                     (<[wal_Database e :=
                          mkDatabase (db_Name db) (<[wal_Collection e := c']> (Collections db))]>
                        (Databases dm)))
          end
      end
  end = inl dm1 →
  match Databases dm1 !! wal_Database e with
  | None => inr (ErrWALDatabaseMissing (wal_Database e))
  | Some db =>
      match Collections db !! wal_Collection e with
      | None => inr (ErrWALCollectionMissing (wal_Collection e))
      | Some c =>
          match applyToCollection e c with
          | inr err => inr err
          | inl c' =>
              inl (mkDatabaseManager
                     (<[wal_Database e :=
                          mkDatabase (db_Name db) (<[wal_Collection e := c']> (Collections db))]>
                        (Databases dm1)))
          end
      end
  end = inl dm1.
Proof.
  destruct (Databases dm !! wal_Database e) as [db|]; [|done].
  destruct (Collections db !! wal_Collection e) as [c|]; [|done].
  destruct (applyToCollection e c) as [c'|] eqn:Happly; [|done].
  intros [= <-]. simpl. rewrite lookup_insert_eq. simpl. rewrite lookup_insert_eq.
  rewrite (applyToCollection_again e c c' Happly).
  by rewrite !insert_insert_eq.
Qed.

(** Every logged operation is idempotent on the state.  An entry that
    applied cleanly applies cleanly again to the state it produced and
    leaves that state as it is: insert and the create operations find the
    entity present and do nothing, update stores the same image under the
    same id, delete finds the document gone. *)
Lemma applyEntry_again (dm dm1 : DatabaseManager) (e : WALEntry) :
  applyEntry dm e = inl dm1 → applyEntry dm1 e = inl dm1.
Proof.
  unfold applyEntry.
  destruct (wal_Operation e) eqn:Hop; try apply applyEntry_in_collection.
  - destruct (Databases dm !! wal_Database e) eqn:Hdb; intros [= <-]; simpl.
    + by rewrite Hdb.
    + by rewrite lookup_insert_eq.
  - intros [= <-]. simpl. by rewrite delete_delete_eq.
  - destruct (Databases dm !! wal_Database e) as [db|] eqn:Hdb; [|done].
    destruct (Collections db !! wal_Collection e) eqn:Hc; intros [= <-]; simpl.
    + by rewrite Hdb, Hc.
    + rewrite lookup_insert_eq. simpl. by rewrite lookup_insert_eq.
Qed.


Lemma buildIndex_FieldName (order : list (string * Document)) (idx : Index) :
  FieldName (buildIndex order idx).1 = FieldName idx.
Proof. destruct (buildIndex_spec order idx) as (idx' & -> & Hf & _). exact Hf. Qed.

(** One entry, seen from one part of the collection it applies to. *)
Lemma applyToCollection_observe (e : WALEntry) (c c' : Collection) (part : Part) :
  applyToCollection e c = inl c' →
  act (actionIn e part) (observeCollection (Some c) part)
    = Some (observeCollection (Some c') part).
Proof.
  unfold applyToCollection, actionIn.
  destruct (wal_Operation e) eqn:Hop, (wal_Data e) as [|doc|s|indexName fieldName] eqn:Hdata;
    try discriminate.
  - (* create_index *)
    destruct (Indexes c !! indexName) as [idx|] eqn:Hi; intros [= <-].
    + destruct part as [|id|index]; cbn [observeCollection act Documents Indexes coll_Name coll_Schema]; [done | done |].
      case_decide as Hindex; [|done]. subst index. by rewrite Hi.
    + destruct part as [|id|index]; cbn [observeCollection act Documents Indexes coll_Name coll_Schema]; [done | done |].
      case_decide as Hindex.
      * subst index. rewrite Hi, lookup_insert_eq. cbn.
        by rewrite buildIndex_Name, buildIndex_FieldName.
      * by rewrite lookup_insert_ne.
  - (* insert *)
    destruct (Documents c !! ID doc) as [d0|] eqn:Hd; intros [= <-].
    + destruct part as [|id|index]; cbn [observeCollection act Documents Indexes coll_Name coll_Schema]; [done | | done].
      case_decide as Hid; [|done]. subst id. by rewrite Hd.
    + destruct part as [|id|index]; cbn [observeCollection act Documents Indexes coll_Name coll_Schema]; [done | |].
      * case_decide as Hid.
        -- subst id. by rewrite Hd, lookup_insert_eq.
        -- by rewrite lookup_insert_ne.
      * by rewrite observe_updated_indexes.
  - (* update *)
    intros [= <-]. destruct part as [|id|index]; cbn [observeCollection act Documents Indexes coll_Name coll_Schema]; [done | |].
    + case_decide as Hid.
      * subst id. by rewrite lookup_insert_eq.
      * by rewrite lookup_insert_ne.
    + by rewrite observe_updated_indexes.
  - (* delete, the four payload shapes *)
    destruct (Documents c !! DocumentID e) as [d0|] eqn:Hd; intros [= <-];
      destruct part as [|id|index]; cbn [observeCollection act Documents Indexes coll_Name coll_Schema]; try done;
      try (by rewrite observe_updated_indexes);
      (case_decide as Hid; [subst id; by rewrite ?Hd, ?lookup_delete_eq
                           | by rewrite ?lookup_delete_ne]).
  - destruct (Documents c !! DocumentID e) as [d0|] eqn:Hd; intros [= <-];
      destruct part as [|id|index]; cbn [observeCollection act Documents Indexes coll_Name coll_Schema]; try done;
      try (by rewrite observe_updated_indexes);
      (case_decide as Hid; [subst id; by rewrite ?Hd, ?lookup_delete_eq
                           | by rewrite ?lookup_delete_ne]).
  - destruct (Documents c !! DocumentID e) as [d0|] eqn:Hd; intros [= <-];
      destruct part as [|id|index]; cbn [observeCollection act Documents Indexes coll_Name coll_Schema]; try done;
      try (by rewrite observe_updated_indexes);
      (case_decide as Hid; [subst id; by rewrite ?Hd, ?lookup_delete_eq
                           | by rewrite ?lookup_delete_ne]).
  - destruct (Documents c !! DocumentID e) as [d0|] eqn:Hd; intros [= <-];
      destruct part as [|id|index]; cbn [observeCollection act Documents Indexes coll_Name coll_Schema]; try done;
      try (by rewrite observe_updated_indexes);
      (case_decide as Hid; [subst id; by rewrite ?Hd, ?lookup_delete_eq
                           | by rewrite ?lookup_delete_ne]).
Qed.

Lemma lookupCollection_insert (dm : DatabaseManager) (target : string) (db' : Database)
    (db coll : string) :
  lookupCollection (mkDatabaseManager (<[target := db']> (Databases dm))) db coll
    = if decide (db = target) then Collections db' !! coll else lookupCollection dm db coll.
Proof.
  unfold lookupCollection. cbn [Databases]. case_decide as Hdb.
  - subst db. by rewrite lookup_insert_eq.
  - by rewrite lookup_insert_ne.
Qed.

Lemma lookupCollection_delete (dm : DatabaseManager) (target db coll : string) :
  lookupCollection (mkDatabaseManager (delete target (Databases dm))) db coll
    = if decide (db = target) then None else lookupCollection dm db coll.
Proof.
  unfold lookupCollection. cbn [Databases]. case_decide as Hdb.
  - subst db. by rewrite lookup_delete_eq.
  - by rewrite lookup_delete_ne.
Qed.

(** The entries that apply to a collection, seen from any place of the
    database manager. *)
Lemma collection_entry_observe (dm dm' : DatabaseManager) (e : WALEntry) (k : StateKey) :
  match Databases dm !! wal_Database e with
  | None => inr (ErrWALDatabaseMissing (wal_Database e))
  | Some db =>
      match Collections db !! wal_Collection e with
      | None => inr (ErrWALCollectionMissing (wal_Collection e))
      | Some c =>
          match applyToCollection e c with
          | inr err => inr err
          | inl c' =>
              inl (mkDatabaseManager
                     (<[wal_Database e :=
                          mkDatabase (db_Name db) (<[wal_Collection e := c']> (Collections db))]>
                        (Databases dm)))
          end
      end
  end = inl dm' →
  act (match k with
       | KeyDatabase _ => Keep
       | KeyIn db coll part =>
           if decide (db = wal_Database e ∧ coll = wal_Collection e) then actionIn e part
           else Keep
       end) (observe dm k) = Some (observe dm' k).
Proof.
  destruct (Databases dm !! wal_Database e) as [db0|] eqn:Hdb; [|done].
  destruct (Collections db0 !! wal_Collection e) as [c|] eqn:Hc; [|done].
  destruct (applyToCollection e c) as [c'|] eqn:Happly; [|done].
  intros [= <-]. destruct k as [db|db coll part]; cbn [act observe Databases].
  - destruct (decide (db = wal_Database e)) as [->|Hne].
    + by rewrite Hdb, lookup_insert_eq.
    + by rewrite lookup_insert_ne.
  - rewrite lookupCollection_insert. cbn [Collections].
    destruct (decide (db = wal_Database e)) as [->|Hne].
    + destruct (decide (coll = wal_Collection e)) as [->|Hne'].
      * rewrite decide_True by done. rewrite lookup_insert_eq.
        assert (lookupCollection dm (wal_Database e) (wal_Collection e) = Some c) as ->.
        { unfold lookupCollection. rewrite Hdb. exact Hc. }
        by apply applyToCollection_observe.
      * rewrite decide_False by (by intros [_ ?]). rewrite lookup_insert_ne by done.
        cbn [act]. do 2 f_equal. unfold lookupCollection. by rewrite Hdb.
    + by rewrite decide_False by (by intros [? _]).
Qed.

(** One entry, seen from one place of the database manager. *)
Lemma applyEntry_observe (dm dm' : DatabaseManager) (e : WALEntry) (k : StateKey) :
  applyEntry dm e = inl dm' → act (action e k) (observe dm k) = Some (observe dm' k).
Proof.
  unfold applyEntry, action.
  destruct (wal_Operation e) eqn:Hop;
    try (intros Happly; destruct k as [db|db coll part];
         [ exact (collection_entry_observe dm dm' e (KeyDatabase db) Happly)
         | exact (collection_entry_observe dm dm' e (KeyIn db coll part) Happly) ]).
  - (* create_database *)
    destruct (Databases dm !! wal_Database e) as [d|] eqn:Hdb; intros [= <-].
    + destruct k as [db|db coll part]; [|done]. cbn [observe].
      case_decide as Hsame; [|done]. subst db. by rewrite Hdb.
    + destruct k as [db|db coll part]; cbn [observe act Databases].
      * case_decide as Hsame.
        -- subst db. by rewrite Hdb, lookup_insert_eq.
        -- by rewrite lookup_insert_ne.
      * rewrite lookupCollection_insert. case_decide as Hsame; [|done].
        subst db. unfold lookupCollection. rewrite Hdb. cbn. by rewrite lookup_empty.
  - (* delete_database *)
    intros [= <-]. destruct k as [db|db coll part]; cbn [observe act Databases].
    + case_decide as Hsame.
      * subst db. by rewrite lookup_delete_eq.
      * by rewrite lookup_delete_ne.
    + rewrite lookupCollection_delete. by case_decide.
  - (* create_collection *)
    destruct (Databases dm !! wal_Database e) as [db0|] eqn:Hdb; [|done].
    destruct (Collections db0 !! wal_Collection e) as [c|] eqn:Hc; intros [= <-].
    + destruct k as [db|db coll part]; [done|]. cbn [observe].
      case_decide as Hsame; [|done]. destruct Hsame as [-> ->].
      assert (lookupCollection dm (wal_Database e) (wal_Collection e) = Some c) as ->.
      { unfold lookupCollection. rewrite Hdb. exact Hc. }
      unfold actionIn. rewrite Hop.
      destruct part as [|id|index]; cbn; [done | done |].
      by destruct (Indexes c !! index).
    + destruct k as [db|db coll part]; cbn [observe act Databases].
      * destruct (decide (db = wal_Database e)) as [->|Hne].
        -- by rewrite Hdb, lookup_insert_eq.
        -- by rewrite lookup_insert_ne.
      * rewrite lookupCollection_insert. cbn [Collections].
        destruct (decide (db = wal_Database e)) as [->|Hne].
        -- destruct (decide (coll = wal_Collection e)) as [->|Hne'].
           ++ rewrite decide_True by done. rewrite lookup_insert_eq.
              assert (lookupCollection dm (wal_Database e) (wal_Collection e) = None) as ->.
              { unfold lookupCollection. rewrite Hdb. exact Hc. }
              unfold actionIn. rewrite Hop.
              destruct part as [|id|index]; cbn.
              ** done.
              ** by rewrite lookup_empty.
              ** case_decide as Hid.
                 --- subst index. by rewrite lookup_singleton_eq.
                 --- by rewrite lookup_singleton_ne.
           ++ rewrite decide_False by (by intros [_ ?]). rewrite lookup_insert_ne by done.
              cbn [act]. do 2 f_equal. unfold lookupCollection. by rewrite Hdb.
        -- by rewrite decide_False by (by intros [? _]).
Qed.

(** Two passes over the same entries that start in step end with the same
    observations. *)
Lemma Replay_in_step (entries : list WALEntry) :
  ∀ s t sn tn : DatabaseManager,
    Replay s entries = inl sn → Replay t entries = inl tn →
    (∀ k, in_step (observe s k) (observe t k) (observe sn k)) →
    ∀ k, observe tn k = observe sn k.
Proof.
  induction entries as [|e rest IH]; intros s t sn tn Hs Ht Hin k.
  - injection Hs as <-. injection Ht as <-.
    destruct (Hin k) as [Hk|[Hk|Hk]]; [done | done |].
    exfalso. apply Hk, below_refl.
  - cbn in Hs, Ht.
    destruct (applyEntry s e) as [s'|] eqn:Hs'; [|discriminate Hs].
    destruct (applyEntry t e) as [t'|] eqn:Ht'; [|discriminate Ht].
    apply (IH s' t' sn tn Hs Ht). intros k'.
    apply (in_step_act (action e k') (observe s k') (observe t k'));
      [apply Hin | by apply applyEntry_observe | by apply applyEntry_observe].
Qed.

Lemma action_structural (e : WALEntry) (k : StateKey) :
  wal_Operation e ≠ WALOpDeleteDatabase → structural k →
  action e k = Keep ∨ ∃ v, action e k = Fill v ∧ v ≠ Absent.
Proof.
  intros Hop Hk. destruct k as [db|db coll [|id|index]]; try done; unfold action, actionIn.
  - destruct (wal_Operation e); try done; try (by left).
    case_decide; [right; by eexists | by left].
  - destruct (wal_Operation e); try done; try (by left);
      (case_decide; [|by left]); destruct (wal_Data e); try (by left);
      right; by eexists.
Qed.

Lemma covers_step (s s' t t' : DatabaseManager) (e : WALEntry) :
  wal_Operation e ≠ WALOpDeleteDatabase →
  applyEntry s e = inl s' → applyEntry t e = inl t' → covers s t → covers s' t'.
Proof.
  intros Hop Hs Ht Hcov k Hk Hpresent.
  pose proof (applyEntry_observe s s' e k Hs) as Hos.
  pose proof (applyEntry_observe t t' e k Ht) as Hot.
  destruct (action_structural e k Hop Hk) as [Ha|(v & Ha & Hv)]; rewrite Ha in Hos, Hot.
  - injection Hos as Hos. injection Hot as Hot. rewrite <- Hot. apply (Hcov k Hk).
    by rewrite Hos.
  - injection Hot as <-. by destruct (observe t k).
Qed.

Lemma covers_grow (s s' : DatabaseManager) (e : WALEntry) :
  wal_Operation e ≠ WALOpDeleteDatabase → applyEntry s e = inl s' → covers s s'.
Proof.
  intros Hop Hs k Hk Hpresent.
  pose proof (applyEntry_observe s s' e k Hs) as Hos.
  destruct (action_structural e k Hop Hk) as [Ha|(v & Ha & Hv)]; rewrite Ha in Hos.
  - injection Hos as <-. done.
  - injection Hos as <-. by destruct (observe s k).
Qed.

Lemma applyToCollection_succeeds (e : WALEntry) (c c' other : Collection) :
  applyToCollection e c = inl c' → ∃ other', applyToCollection e other = inl other'.
Proof.
  unfold applyToCollection.
  destruct (wal_Operation e), (wal_Data e) as [|doc|sch|indexName fieldName];
    try discriminate; intros _.
  - destruct (Indexes other !! indexName); by eexists.
  - destruct (Documents other !! ID doc); by eexists.
  - by eexists.
  - destruct (Documents other !! DocumentID e); by eexists.
  - destruct (Documents other !! DocumentID e); by eexists.
  - destruct (Documents other !! DocumentID e); by eexists.
  - destruct (Documents other !! DocumentID e); by eexists.
Qed.

Lemma covers_database (s t : DatabaseManager) (db : string) :
  covers s t → is_Some (Databases s !! db) → is_Some (Databases t !! db).
Proof.
  intros Hcov [d Hd]. specialize (Hcov (KeyDatabase db) I). cbn in Hcov.
  rewrite Hd in Hcov. destruct (Databases t !! db); [by eexists|].
  exfalso. by apply Hcov.
Qed.

Lemma covers_collection (s t : DatabaseManager) (db coll : string) :
  covers s t → is_Some (lookupCollection s db coll) → is_Some (lookupCollection t db coll).
Proof.
  intros Hcov [c Hc]. specialize (Hcov (KeyIn db coll WholeCollection) I). cbn in Hcov.
  rewrite Hc in Hcov. destruct (lookupCollection t db coll); [by eexists|].
  exfalso. by apply Hcov.
Qed.

(** An entry that applied to [s] applies to every state that has the
    databases and collections of [s]. *)
Lemma applyEntry_covered (s s' t : DatabaseManager) (e : WALEntry) :
  applyEntry s e = inl s' → covers s t → ∃ t', applyEntry t e = inl t'.
Proof.
  intros Hs Hcov. unfold applyEntry in *.
  assert (∀ db0, Databases s !! wal_Database e = Some db0 →
            ∃ dbt, Databases t !! wal_Database e = Some dbt) as Hdb.
  { intros db0 Hdb0. by apply (covers_database s t). }
  assert (∀ db0 c, Databases s !! wal_Database e = Some db0 →
            Collections db0 !! wal_Collection e = Some c →
            ∃ dbt ct, Databases t !! wal_Database e = Some dbt ∧
                      Collections dbt !! wal_Collection e = Some ct) as Hcoll.
  { intros db0 c Hdb0 Hc.
    destruct (covers_collection s t (wal_Database e) (wal_Collection e) Hcov) as [ct Hct].
    { unfold lookupCollection. rewrite Hdb0. by eexists. }
    unfold lookupCollection in Hct.
    destruct (Databases t !! wal_Database e) as [dbt|]; [|done]. by exists dbt, ct. }
  assert (match Databases s !! wal_Database e with
          | None => inr (ErrWALDatabaseMissing (wal_Database e))
          | Some db =>
              match Collections db !! wal_Collection e with
              | None => inr (ErrWALCollectionMissing (wal_Collection e))
              | Some c =>
                  match applyToCollection e c with
                  | inr err => inr err
                  | inl c' =>
                      inl (mkDatabaseManager
                             (<[wal_Database e :=
                                  mkDatabase (db_Name db)
                                    (<[wal_Collection e := c']> (Collections db))]>
                                (Databases s)))
                  end
              end
          end = inl s' →
          ∃ t', match Databases t !! wal_Database e with
                | None => inr (ErrWALDatabaseMissing (wal_Database e))
                | Some db =>
                    match Collections db !! wal_Collection e with
                    | None => inr (ErrWALCollectionMissing (wal_Collection e))
                    | Some c =>
                        match applyToCollection e c with
                        | inr err => inr err
                        | inl c' =>
                            inl (mkDatabaseManager
                                   (<[wal_Database e :=
                                        mkDatabase (db_Name db)
                                          (<[wal_Collection e := c']> (Collections db))]>
                                      (Databases t)))
                        end
                    end
                end = inl t') as Hbranch.
  { destruct (Databases s !! wal_Database e) as [db0|] eqn:Hdb0; [|done].
    destruct (Collections db0 !! wal_Collection e) as [c|] eqn:Hc; [|done].
    destruct (applyToCollection e c) as [c'|] eqn:Happly; [|done]. intros _.
    destruct (Hcoll db0 c eq_refl Hc) as (dbt & ct & -> & ->).
    destruct (applyToCollection_succeeds e c c' ct Happly) as [ct' ->]. by eexists. }
  destruct (wal_Operation e); try (by apply Hbranch).
  - destruct (Databases t !! wal_Database e); by eexists.
  - by eexists.
  - destruct (Databases s !! wal_Database e) as [db0|] eqn:Hdb0; [|done].
    destruct (Hdb db0 eq_refl) as [dbt ->].
    destruct (Collections dbt !! wal_Collection e); by eexists.
Qed.

Lemma Replay_covered (entries : list WALEntry) :
  ∀ s t sn : DatabaseManager,
    deletes_no_database entries → Replay s entries = inl sn → covers s t →
    ∃ tn, Replay t entries = inl tn.
Proof.
  induction entries as [|e rest IH]; intros s t sn Hnodel Hs Hcov.
  - by exists t.
  - cbn in Hs. destruct (applyEntry s e) as [s'|] eqn:Hs'; [|discriminate Hs].
    destruct (applyEntry_covered s s' t e Hs' Hcov) as [t' Ht'].
    cbn. rewrite Ht'.
    apply (IH s' t' sn); [intros e' He'; apply Hnodel; by right | done |].
    apply (covers_step s s' t t' e); [apply Hnodel; by left | done | done | done].
Qed.

Lemma Replay_grows (entries : list WALEntry) :
  ∀ s sn : DatabaseManager,
    deletes_no_database entries → Replay s entries = inl sn → covers s sn.
Proof.
  induction entries as [|e rest IH]; intros s sn Hnodel Hs.
  - injection Hs as <-. by intros k _.
  - cbn in Hs. destruct (applyEntry s e) as [s'|] eqn:Hs'; [|discriminate Hs].
    intros k Hk Hpresent.
    apply (IH s' sn (λ e' He', Hnodel e' (list_elem_of_further _ _ _ He')) Hs k Hk).
    by apply (covers_grow s s' e (Hnodel e (list_elem_of_here _ _)) Hs' k Hk).
Qed.

(** C7, amended.  Each logged operation on its own is idempotent on the
    state.  Applying a log twice, when the second pass applies cleanly,
    ends with the same databases, the same collections with their names and
    schemas, the same documents and the same index names and fields as
    applying it once; what an index holds is not part of this.  The second
    pass applies cleanly whenever the log deletes no database. *)
Theorem replay_twice_up_to_index_contents :
  (∀ (dm dm1 : DatabaseManager) (e : WALEntry),
     applyEntry dm e = inl dm1 → applyEntry dm1 e = inl dm1) ∧
  (∀ (dm dm1 dm2 : DatabaseManager) (entries : list WALEntry),
     Replay dm entries = inl dm1 → Replay dm1 entries = inl dm2 →
     ∀ k, observe dm2 k = observe dm1 k) ∧
  (∀ (dm dm1 : DatabaseManager) (entries : list WALEntry),
     deletes_no_database entries → Replay dm entries = inl dm1 →
     ∃ dm2, Replay dm1 entries = inl dm2).
Proof.
  split; [exact applyEntry_again|]. split.
  - intros dm dm1 dm2 entries Hone Htwo.
    apply (Replay_in_step entries dm dm1 dm1 dm2 Hone Htwo).
    intros k. right. by left.
  - intros dm dm1 entries Hnodel Hone.
    apply (Replay_covered entries dm dm1 dm1 Hnodel Hone).
    by apply (Replay_grows entries).
Qed.

End ReplayFacts.

Lemma replay_twice_up_to_index_contents_witness :
  let d1 := mkDocument "d1" {[ "city" := VStr "Rome" ]} in
  let d2 := mkDocument "d2" {[ "city" := VStr "Oslo" ]} in
  let users := (CreateIndex [("d1", d1); ("d2", d2)]
                  (Insert acceptAll "" (Insert acceptAll "" (NewCollection "users" None) d1).1 d2).1
                  "by_city" "city").1 in
  let dm := mkDatabaseManager {[ "app" := mkDatabase "app" {[ "users" := users ]} ]} in
  let wal := [mkWALEntry 1 WALOpUpdate "app" "users" "d1"
                (DocumentPayload (mkDocument "d1" {[ "city" := VStr "Oslo" ]}));
              mkWALEntry 2 WALOpDelete "app" "users" "d2" NoPayload] in
  ∃ once twice,
    Replay map_to_list dm wal = inl once ∧ Replay map_to_list once wal = inl twice ∧
    observe twice (KeyIn "app" "users" (PartDocument "d1"))
      = observe once (KeyIn "app" "users" (PartDocument "d1")) ∧
    observe twice (KeyIn "app" "users" (PartDocument "d2"))
      = observe once (KeyIn "app" "users" (PartDocument "d2")) ∧
    observe twice (KeyIn "app" "users" (PartIndex "by_city"))
      = observe once (KeyIn "app" "users" (PartIndex "by_city")).
Proof.
  intros d1 d2 users dm wal.
  destruct (replay_twice_up_to_index_contents map_to_list) as (_ & Hsame & Hagain).
  destruct (Replay map_to_list dm wal) as [once|err] eqn:Honce;
    [|vm_compute in Honce; discriminate Honce].
  destruct (Hagain dm once wal) as [twice Htwice].
  - intros e He. apply elem_of_cons in He as [->|He]; [discriminate|].
    apply elem_of_cons in He as [->|He]; [discriminate|]. apply elem_of_nil in He. destruct He.
  - exact Honce.
  - exists once, twice. split; [reflexivity|]. split; [exact Htwice|].
    split; [|split]; apply (Hsame dm once twice wal Honce Htwice).
Defined.

(** C7 as stated fails for a replay of two entries.  The collection holds
    d1 in Rome and d2 in Oslo and an index on city; the log updates d1 to
    Oslo and then deletes d2.  The first replay ends with the index on city
    empty, because the delete of d2 removes the key Oslo that d1 had just
    taken; the second replay puts d1 back under Oslo and finds no d2 to
    delete.  And a log that inserts a document and then deletes the
    database applies once and not twice: the second pass finds no database
    to insert into. *)
Lemma replay_twice_differs :
  let d1 := mkDocument "d1" {[ "city" := VStr "Rome" ]} in
  let d2 := mkDocument "d2" {[ "city" := VStr "Oslo" ]} in
  let users := (CreateIndex [("d1", d1); ("d2", d2)]
                  (Insert acceptAll "" (Insert acceptAll "" (NewCollection "users" None) d1).1 d2).1
                  "by_city" "city").1 in
  let dm := mkDatabaseManager {[ "app" := mkDatabase "app" {[ "users" := users ]} ]} in
  let wal := [mkWALEntry 1 WALOpUpdate "app" "users" "d1"
                (DocumentPayload (mkDocument "d1" {[ "city" := VStr "Oslo" ]}));
              mkWALEntry 2 WALOpDelete "app" "users" "d2" NoPayload] in
  (∃ once twice,
     Replay map_to_list dm wal = inl once ∧ Replay map_to_list once wal = inl twice ∧
     lookupIndexKey once "app" "users" "by_city" "Oslo" = None ∧
     lookupIndexKey twice "app" "users" "by_city" "Oslo" = Some "d1") ∧
  ¬ (∀ docOrder dm0 entries dm1,
       Replay docOrder dm0 entries = inl dm1 → Replay docOrder dm1 entries = inl dm1) ∧
  (let wal' := [mkWALEntry 1 WALOpInsert "app" "users" "d3"
                  (DocumentPayload (mkDocument "d3" {[ "city" := VStr "Bern" ]}));
                mkWALEntry 2 WALOpDeleteDatabase "app" "" "" NoPayload] in
   Replay map_to_list dm wal' = inl (mkDatabaseManager ∅) ∧
   Replay map_to_list (mkDatabaseManager ∅) wal' = inr (ErrWALDatabaseMissing "app")).
Proof.
  intros d1 d2 users dm wal.
  destruct (Replay map_to_list dm wal) as [once|err] eqn:Honce;
    [|vm_compute in Honce; discriminate Honce].
  destruct (Replay map_to_list once wal) as [twice|err] eqn:Htwice.
  2:{ vm_compute in Honce. injection Honce as <-. vm_compute in Htwice. discriminate Htwice. }
  assert (lookupIndexKey once "app" "users" "by_city" "Oslo" = None ∧
          lookupIndexKey twice "app" "users" "by_city" "Oslo" = Some "d1") as [Hone Htwo].
  { vm_compute in Honce. injection Honce as <-.
    vm_compute in Htwice. injection Htwice as <-.
    split; vm_compute; reflexivity. }
  split; [|split].
  - exists once, twice. split; [reflexivity|]. split; [exact Htwice|]. split; [exact Hone | exact Htwo].
  - intros Hidem. rewrite (Hidem map_to_list dm wal once Honce) in Htwice.
    injection Htwice as <-. rewrite Hone in Htwo. discriminate Htwo.
  - clear. split; vm_compute; reflexivity.
Qed.

(** * Further properties of the collection operations *)

Lemma withID_assigned (uuid : string) (doc : Document) :
  ID (withID uuid doc) = if decide (ID doc = "") then uuid else ID doc.
Proof. unfold withID. by case_decide. Qed.

Lemma Count_insert (c : Collection) (id : string) (d : Document) :
  Documents c !! id = None →
  Count (setDocuments c (<[id := d]> (Documents c))) = Count c + 1.
Proof. intros H. unfold Count. simpl. rewrite map_size_insert_None by done. lia. Qed.

Section Operations.

Variable ValidateType : Value -> FieldType -> bool.

Local Abbreviation Insert := (Insert ValidateType).
Local Abbreviation Update := (Update ValidateType).
Local Abbreviation validateAgainst := (validateAgainst ValidateType).

(** An insert that passes both checks stores the document under its id,
    assigned from [uuid] when it came without one: [FindByID] returns it,
    every other id answers as before and the count grows by one. *)
Theorem Insert_then_FindByID (uuid : string) (c : Collection) (doc : Document) :
  Documents c !! ID (withID uuid doc) = None →
  validateAgainst (coll_Schema c) (withID uuid doc) = None →
  (Insert uuid c doc).2 = None ∧
  FindByID (Insert uuid c doc).1 (ID (withID uuid doc)) = Some (withID uuid doc) ∧
  (∀ id, id ≠ ID (withID uuid doc) →
     FindByID (Insert uuid c doc).1 id = FindByID c id) ∧
  Count (Insert uuid c doc).1 = Count c + 1.
Proof.
  intros Hfresh Hvalid. rewrite (Insert_ok _ uuid c doc Hfresh Hvalid). cbn [fst snd].
  split; [done|]. unfold FindByID, Count. cbn [Documents].
  split; [by rewrite lookup_insert_eq, Clone_id|]. split.
  - intros id Hne. by rewrite lookup_insert_ne.
  - rewrite map_size_insert_None by done. lia.
Qed.

(** A failed insert changes nothing, and it fails exactly for an id that is
    taken or a document the schema rejects. *)
Theorem Insert_error_leaves_collection (uuid : string) (c : Collection) (doc : Document)
    (e : error) :
  (Insert uuid c doc).2 = Some e →
  (Insert uuid c doc).1 = c ∧
  ((e = ErrDocExists (ID (withID uuid doc)) ∧ is_Some (Documents c !! ID (withID uuid doc))) ∨
   (∃ e', e = ErrSchemaValidation e' ∧ Documents c !! ID (withID uuid doc) = None ∧
          validateAgainst (coll_Schema c) (withID uuid doc) = Some e')).
Proof.
  destruct (Documents c !! ID (withID uuid doc)) as [d0|] eqn:Hfresh.
  - rewrite Insert_exists by (by eexists). cbn [fst snd]. intros [= <-].
    split; [done|]. left. split; [done | by eexists].
  - destruct (validateAgainst (coll_Schema c) (withID uuid doc)) as [e'|] eqn:Hvalid.
    + rewrite (Insert_invalid _ uuid c doc e' Hfresh Hvalid). cbn [fst snd]. intros [= <-].
      split; [done|]. right. by exists e'.
    + by rewrite (Insert_ok _ uuid c doc Hfresh Hvalid).
Qed.

(** Deleting a stored document succeeds; afterwards its id is not found,
    every other id answers as before and the count dropped by one. *)
Theorem Delete_then_FindByID (c : Collection) (id : string) (doc : Document) :
  Documents c !! id = Some doc →
  (Delete c id).2 = None ∧
  FindByID (Delete c id).1 id = None ∧
  (∀ id', id' ≠ id → FindByID (Delete c id).1 id' = FindByID c id') ∧
  Count (Delete c id).1 = Count c - 1.
Proof.
  intros Hd. rewrite (Delete_ok c id doc Hd). cbn [fst snd].
  split; [done|]. unfold FindByID, Count. cbn [Documents].
  split; [by rewrite lookup_delete_eq|]. split.
  - intros id' Hne. by rewrite lookup_delete_ne.
  - rewrite map_size_delete_Some by (by eexists).
    assert (size (Documents c) ≠ 0%nat) as Hpos.
    { intros H0. apply map_size_empty_iff in H0. by rewrite H0, lookup_empty in Hd. }
    lia.
Qed.

(** The fields [applyUpdates] leaves when no key is [_id]: every updated key
    holds its new value, every other key its old one. *)
Lemma applyUpdates_lookup (updates : list (string * Value)) :
  ∀ (data : gmap string Value) (k : string),
    "_id" ∉ updates.*1 → NoDup updates.*1 →
    (applyUpdates updates data).1 !! k =
      match (list_to_map updates : gmap string Value) !! k with
      | Some v => Some v
      | None => data !! k
      end.
Proof.
  induction updates as [|[key value] rest IH]; intros data k Hid Hnd.
  - simpl. by rewrite lookup_empty.
  - rewrite fmap_cons, not_elem_of_cons in Hid. destruct Hid as [Hne Hrest].
    rewrite fmap_cons in Hnd. apply NoDup_cons in Hnd as [Hnotin Hnd].
    cbn [applyUpdates]. rewrite decide_False by (intros ->; done).
    rewrite IH by done. cbn [list_to_map foldr]. cbn [fst snd] in *.
    destruct (decide (key = k)) as [->|Hk].
    + rewrite (not_elem_of_list_to_map_1 rest k Hnotin).
      by rewrite !lookup_insert_eq.
    + by rewrite !lookup_insert_ne by done.
Qed.

(** A successful update keeps the id, sets every updated field to its new
    value and leaves the other fields as they were. *)
Theorem Update_sets_fields (c : Collection) (id : string) (doc : Document)
    (updates : list (string * Value)) :
  Documents c !! id = Some doc →
  "_id" ∉ updates.*1 → NoDup updates.*1 →
  (Update c id updates).2 = None →
  ∃ doc', FindByID (Update c id updates).1 id = Some doc' ∧
          ID doc' = ID doc ∧
          (∀ k v, (k, v) ∈ updates → Data doc' !! k = Some v) ∧
          (∀ k, k ∉ updates.*1 → Data doc' !! k = Data doc !! k) ∧
          (∀ id', id' ≠ id → FindByID (Update c id updates).1 id' = FindByID c id').
Proof.
  intros Hd Hid Hnd Hok.
  pose proof (applyUpdates_no_id updates (Data doc) Hid) as Hup.
  destruct (validateAgainst (coll_Schema c) (updated doc updates)) as [e|] eqn:Hvalid.
  { by rewrite (Update_invalid _ c id doc updates e Hd Hup Hvalid) in Hok. }
  rewrite (Update_ok _ c id doc updates Hd Hup Hvalid). cbn [fst].
  exists (updated doc updates). unfold FindByID. cbn [Documents].
  rewrite lookup_insert_eq, Clone_id. split; [done|]. split; [done|].
  split; [|split].
  - intros k v Hin. cbn [updated Data]. rewrite applyUpdates_lookup by done.
    by rewrite (elem_of_list_to_map_1 updates k v Hnd Hin).
  - intros k Hk. cbn [updated Data]. rewrite applyUpdates_lookup by done.
    by rewrite (not_elem_of_list_to_map_1 updates k Hk).
  - intros id' Hne. by rewrite lookup_insert_ne.
Qed.

End Operations.

(** ** The automatic [_id] index *)

Lemma GetValue_id (d : Document) : GetValue d "_id" = Some (VStr (ID d)).
Proof. done. Qed.

Section IdIndex.

Variable ValidateType : Value -> FieldType -> bool.

Local Abbreviation Insert := (Insert ValidateType).
Local Abbreviation Update := (Update ValidateType).
Local Abbreviation validateAgainst := (validateAgainst ValidateType).

(** The three states an update of a stored document can leave: the
    collection as it was, the collection with only the document rewritten
    (the [_id] error path), or the document and the indexes rewritten. *)
Lemma Update_outcomes (c : Collection) (id : string) (doc : Document)
    (updates : list (string * Value)) :
  Documents c !! id = Some doc →
  ∃ doc', ID doc' = ID doc ∧
    ((Update c id updates).1 = c ∨
     (Update c id updates).1 = setDocuments c (<[id := doc']> (Documents c)) ∨
     (Update c id updates).1 =
       mkCollection (coll_Name c) (coll_Schema c) (<[id := doc']> (Documents c))
         ((λ idx, (AddToIndex (RemoveFromIndex idx doc).1 doc').1) <$> Indexes c)).
Proof.
  intros Hd. exists (updated doc updates). split; [done|].
  destruct (applyUpdates updates (Data doc)) as [data' [e|]] eqn:Hup.
  - right. left. unfold Update, updated. by rewrite Hd, Hup.
  - assert ((applyUpdates updates (Data doc)).2 = None) as Hnone by (by rewrite Hup).
    destruct (validateAgainst (coll_Schema c) (updated doc updates)) as [e|] eqn:Hvalid.
    + left. by rewrite (Update_invalid _ c id doc updates e Hd Hnone Hvalid).
    + right. right. by rewrite (Update_ok _ c id doc updates Hd Hnone Hvalid).
Qed.

Lemma id_index_new (name : string) (schema : option Schema) :
  docs_keyed (NewCollection name schema) ∧ id_index_exact (NewCollection name schema).
Proof.
  split.
  - intros id doc Hd. simpl in Hd. by rewrite lookup_empty in Hd.
  - exists (NewIndex "_id" "_id"). split; [done|]. split; [done|].
    intros id. simpl. by rewrite !lookup_empty.
Qed.

Lemma id_index_Insert (uuid : string) (c : Collection) (doc : Document) :
  docs_keyed c → id_index_exact c →
  docs_keyed (Insert uuid c doc).1 ∧ id_index_exact (Insert uuid c doc).1.
Proof.
  intros Hkeyed (idx & Hidx & Hfield & Hexact).
  destruct (Documents c !! ID (withID uuid doc)) as [d0|] eqn:Hfresh.
  { rewrite Insert_exists by (by eexists). split; [done|]. by exists idx. }
  destruct (validateAgainst (coll_Schema c) (withID uuid doc)) as [e|] eqn:Hvalid.
  { rewrite (Insert_invalid _ uuid c doc e Hfresh Hvalid). split; [done|]. by exists idx. }
  rewrite (Insert_ok _ uuid c doc Hfresh Hvalid). cbn [fst].
  set (d := withID uuid doc) in *. split.
  - intros id doc0 Hd. cbn [Documents] in Hd.
    apply lookup_insert_Some in Hd as [[<- <-]|[_ Hd]]; [done | by apply Hkeyed].
  - exists (AddToIndex idx d).1. cbn [Indexes Documents].
    split; [by rewrite lookup_fmap, Hidx|].
    split; [by rewrite AddToIndex_FieldName|].
    intros id. rewrite AddToIndex_Data, Hfield, GetValue_id. cbn [Sprintf_v].
    destruct (decide (ID d = id)) as [<-|Hne].
    + by rewrite !lookup_insert_eq.
    + rewrite !lookup_insert_ne by done. apply Hexact.
Qed.

Lemma id_index_Delete (c : Collection) (id : string) :
  docs_keyed c → id_index_exact c →
  docs_keyed (Delete c id).1 ∧ id_index_exact (Delete c id).1.
Proof.
  intros Hkeyed (idx & Hidx & Hfield & Hexact).
  destruct (Documents c !! id) as [d|] eqn:Hd.
  2:{ rewrite Delete_missing by done. split; [done|]. by exists idx. }
  rewrite (Delete_ok c id d Hd). cbn [fst]. split.
  - intros id0 doc0 Hd0. cbn [Documents] in Hd0.
    apply lookup_delete_Some in Hd0 as [_ Hd0]. by apply Hkeyed.
  - exists (RemoveFromIndex idx d).1. cbn [Indexes Documents].
    split; [by rewrite lookup_fmap, Hidx|].
    split; [by rewrite RemoveFromIndex_FieldName|].
    intros id0. rewrite RemoveFromIndex_Data, Hfield, GetValue_id. cbn [Sprintf_v].
    rewrite (Hkeyed id d Hd).
    destruct (decide (id = id0)) as [<-|Hne].
    + by rewrite !lookup_delete_eq.
    + rewrite !lookup_delete_ne by done. apply Hexact.
Qed.

Lemma id_index_Update (c : Collection) (id : string) (updates : list (string * Value)) :
  docs_keyed c → id_index_exact c →
  docs_keyed (Update c id updates).1 ∧ id_index_exact (Update c id updates).1.
Proof.
  intros Hkeyed (idx & Hidx & Hfield & Hexact).
  destruct (Documents c !! id) as [d|] eqn:Hd.
  2:{ rewrite Update_missing by done. split; [done|]. by exists idx. }
  pose proof (Hkeyed id d Hd) as Hid.
  assert (Hdocs : ∀ doc', ID doc' = ID d →
            ∀ id0 doc0, <[id := doc']> (Documents c) !! id0 = Some doc0 → ID doc0 = id0).
  { intros doc' Hsame id0 doc0 Hd0.
    apply lookup_insert_Some in Hd0 as [[<- <-]|[_ Hd0]]; [congruence | by apply Hkeyed]. }
  assert (Hsame_ids : ∀ doc' id0,
            (λ _ : Document, id0) <$> <[id := doc']> (Documents c) !! id0
            = (λ _ : Document, id0) <$> Documents c !! id0).
  { intros doc' id0. destruct (decide (id = id0)) as [<-|Hne].
    - by rewrite lookup_insert_eq, Hd.
    - by rewrite lookup_insert_ne. }
  destruct (Update_outcomes c id d updates Hd) as (doc' & Hsame & [->|[->| ->]]).
  - split; [done|]. by exists idx.
  - split; [exact (Hdocs doc' Hsame)|]. exists idx. cbn [setDocuments Indexes Documents].
    split; [done|]. split; [done|]. intros id0. by rewrite Hsame_ids.
  - split; [exact (Hdocs doc' Hsame)|].
    exists (AddToIndex (RemoveFromIndex idx d).1 doc').1. cbn [Indexes Documents].
    split; [by rewrite lookup_fmap, Hidx|].
    split; [by rewrite AddToIndex_FieldName, RemoveFromIndex_FieldName|].
    intros id0. rewrite Hsame_ids.
    rewrite AddToIndex_Data, RemoveFromIndex_FieldName, RemoveFromIndex_Data, Hfield.
    rewrite !GetValue_id. cbn [Sprintf_v]. rewrite Hsame, Hid.
    destruct (decide (id = id0)) as [<-|Hne].
    + by rewrite lookup_insert_eq, Hd.
    + rewrite lookup_insert_ne, lookup_delete_ne by done. apply Hexact.
Qed.

Lemma id_index_CreateIndex (docOrder : list (string * Document)) (c : Collection)
    (indexName fieldName : string) :
  docs_keyed c → id_index_exact c →
  docs_keyed (CreateIndex docOrder c indexName fieldName).1 ∧
  id_index_exact (CreateIndex docOrder c indexName fieldName).1.
Proof.
  intros Hkeyed (idx & Hidx & Hfield & Hexact).
  destruct (Indexes c !! indexName) as [i0|] eqn:Hfree.
  { rewrite CreateIndex_exists by (by eexists). split; [done|]. by exists idx. }
  rewrite (CreateIndex_ok docOrder c indexName fieldName Hfree). cbn [fst].
  split; [done|]. exists idx. cbn [Indexes Documents].
  split; [|done]. rewrite lookup_insert_ne; [done|]. intros ->. congruence.
Qed.

Lemma id_index_DropIndex (c : Collection) (indexName : string) :
  docs_keyed c → id_index_exact c →
  docs_keyed (DropIndex c indexName).1 ∧ id_index_exact (DropIndex c indexName).1.
Proof.
  intros Hkeyed (idx & Hidx & Hfield & Hexact). unfold DropIndex.
  destruct (decide (indexName = "_id")) as [->|Hne].
  { split; [done|]. by exists idx. }
  destruct (Indexes c !! indexName) as [i0|].
  2:{ split; [done|]. by exists idx. }
  split; [done|]. exists idx. cbn [fst Indexes Documents].
  split; [|done]. by rewrite lookup_delete_ne.
Qed.

(** In every state a collection can reach, whatever the calls returned,
    every document is stored under its own id and the automatic [_id] index
    holds exactly the ids of the stored documents, each under itself. *)
Theorem id_index_covers_documents (c : Collection) :
  reachable ValidateType c →
  (∀ id doc, Documents c !! id = Some doc → ID doc = id) ∧
  ∃ idx, Indexes c !! "_id" = Some idx ∧ FieldName idx = "_id" ∧
         (∀ id doc, Documents c !! id = Some doc → Index_Find idx (VStr id) = Some id) ∧
         (∀ id, Documents c !! id = None → Index_Find idx (VStr id) = None).
Proof.
  intros Hreach.
  assert (docs_keyed c ∧ id_index_exact c) as [Hkeyed (idx & Hidx & Hfield & Hexact)].
  { induction Hreach as [name schema
                        | c uuid doc _ [Hk Hi]
                        | c id updates _ [Hk Hi] _
                        | c id _ [Hk Hi]
                        | c docOrder indexName fieldName _ [Hk Hi] _
                        | c indexName _ [Hk Hi]].
    - apply id_index_new.
    - by apply id_index_Insert.
    - by apply id_index_Update.
    - by apply id_index_Delete.
    - by apply id_index_CreateIndex.
    - by apply id_index_DropIndex. }
  split; [done|]. exists idx. split; [done|]. split; [done|].
  unfold Index_Find. cbn [Sprintf_v]. split.
  - intros id doc Hd. by rewrite Hexact, Hd.
  - intros id Hd. by rewrite Hexact, Hd.
Qed.

End IdIndex.

Lemma Insert_then_FindByID_witness :
  FindByID (Insert acceptAll "u-1" (NewCollection "users" None)
              (mkDocument "" {[ "name" := VStr "Ada" ]})).1 "u-1"
    = Some (mkDocument "u-1" {[ "name" := VStr "Ada" ]}).
Proof.
  destruct (Insert_then_FindByID acceptAll "u-1" (NewCollection "users" None)
              (mkDocument "" {[ "name" := VStr "Ada" ]})) as (_ & Hfind & _).
  - reflexivity.
  - reflexivity.
  - exact Hfind.
Defined.

Lemma Insert_error_leaves_collection_witness :
  let d := mkDocument "d1" {[ "city" := VStr "Oslo" ]} in
  let c := (Insert acceptAll "" (NewCollection "users" None) d).1 in
  (Insert acceptAll "" c d).1 = c.
Proof.
  intros d c.
  apply (Insert_error_leaves_collection acceptAll "" c d (ErrDocExists "d1")).
  vm_compute. reflexivity.
Defined.

Lemma Delete_then_FindByID_witness :
  let d := mkDocument "d1" {[ "city" := VStr "Oslo" ]} in
  let c := (Insert acceptAll "" (NewCollection "users" None) d).1 in
  FindByID (Delete c "d1").1 "d1" = None.
Proof.
  intros d c. apply (Delete_then_FindByID c "d1" d). vm_compute. reflexivity.
Defined.

Lemma Update_sets_fields_witness :
  let d := mkDocument "d1" {[ "city" := VStr "Oslo" ]} in
  let c := (Insert acceptAll "" (NewCollection "users" None) d).1 in
  ∃ doc', FindByID (Update acceptAll c "d1" [("city", VStr "Rome"); ("age", VInt 9)]).1 "d1"
            = Some doc' ∧ ID doc' = "d1".
Proof.
  intros d c.
  destruct (Update_sets_fields acceptAll c "d1" d [("city", VStr "Rome"); ("age", VInt 9)])
    as (doc' & Hfind & Hid & _).
  - vm_compute. reflexivity.
  - intros H. repeat (apply elem_of_cons in H as [H|H]; [discriminate H|]).
    by apply elem_of_nil in H.
  - apply NoDup_by_decide. vm_compute. reflexivity.
  - vm_compute. reflexivity.
  - exists doc'. split; [exact Hfind | exact Hid].
Defined.

Lemma id_index_covers_documents_witness :
  let d := mkDocument "d1" {[ "city" := VStr "Oslo" ]} in
  let c := (Insert acceptAll "" (NewCollection "users" None) d).1 in
  ∃ idx, Indexes c !! "_id" = Some idx ∧
         Index_Find idx (VStr "d1") = Some "d1" ∧ Index_Find idx (VStr "d2") = None.
Proof.
  intros d c.
  destruct (id_index_covers_documents acceptAll c) as (_ & idx & Hidx & _ & Hin & Hout).
  - apply reach_Insert, reach_new.
  - exists idx. split; [exact Hidx|]. split.
    + apply (Hin "d1" d). vm_compute. reflexivity.
    + apply Hout. vm_compute. reflexivity.
Defined.

(** * Further properties of indexes and queries *)

(** Creating an index under a free name succeeds and leaves the documents
    and the other indexes alone.  The new index carries the given name and
    field, has an entry under the printed value of every stored document
    that has the field, and each of its entries is the id of a stored
    document with that printed value. *)
Theorem CreateIndex_builds_index (docOrder : list (string * Document)) (c : Collection)
    (indexName fieldName : string) :
  Indexes c !! indexName = None → visits (Documents c) docOrder →
  (CreateIndex docOrder c indexName fieldName).2 = None ∧
  Documents (CreateIndex docOrder c indexName fieldName).1 = Documents c ∧
  (∀ other, other ≠ indexName →
     Indexes (CreateIndex docOrder c indexName fieldName).1 !! other = Indexes c !! other) ∧
  ∃ idx, Indexes (CreateIndex docOrder c indexName fieldName).1 !! indexName = Some idx ∧
         idx_Name idx = indexName ∧ FieldName idx = fieldName ∧
         (∀ id doc v, Documents c !! id = Some doc → GetValue doc fieldName = Some v →
            is_Some (Index_Find idx v)) ∧
         (∀ k id, idx_Data idx !! k = Some id →
            ∃ key doc v, Documents c !! key = Some doc ∧ GetValue doc fieldName = Some v ∧
                         Sprintf_v v = k ∧ ID doc = id).
Proof.
  intros Hfree Hvis.
  rewrite (CreateIndex_ok docOrder c indexName fieldName Hfree). cbn [fst snd Documents Indexes].
  split; [done|]. split; [done|].
  split; [intros other Hne; by rewrite lookup_insert_ne|].
  pose proof (buildIndex_Name docOrder (NewIndex indexName fieldName)) as Hname.
  destruct (buildIndex_spec docOrder (NewIndex indexName fieldName))
    as (built & Hrun & Hfld & Hfrom & _ & Hall).
  rewrite Hrun in *. cbn [fst] in *. exists built.
  split; [apply lookup_insert_eq|]. split; [done|]. split; [done|]. split.
  - intros id doc v Hd Hv. apply (Hall (id, doc) v); [|done].
    by apply (visits_elem_of _ _ _ _ Hvis).
  - intros k id Hk. destruct (Hfrom k id Hk) as [Hempty|([key doc] & v & Hin & Hv & Hs & Hi)].
    { cbn [NewIndex idx_Data] in Hempty. by rewrite lookup_empty in Hempty. }
    exists key, doc, v. split; [|done]. by apply (visits_elem_of _ _ _ _ Hvis).
Qed.

(** [DropIndex] never touches the documents nor the [_id] index; it succeeds
    exactly for the name of an index other than [_id], which it removes, and
    otherwise leaves the collection as it was. *)
Theorem DropIndex_outcome (c : Collection) (indexName : string) :
  Documents (DropIndex c indexName).1 = Documents c ∧
  Indexes (DropIndex c indexName).1 !! "_id" = Indexes c !! "_id" ∧
  ((DropIndex c indexName).2 = None ↔ indexName ≠ "_id" ∧ is_Some (Indexes c !! indexName)) ∧
  ((DropIndex c indexName).2 = None →
     Indexes (DropIndex c indexName).1 = delete indexName (Indexes c)) ∧
  ((DropIndex c indexName).2 ≠ None → (DropIndex c indexName).1 = c).
Proof.
  unfold DropIndex.
  destruct (decide (indexName = "_id")) as [->|Hne]; cbn [fst snd].
  { repeat split; try done. by intros [H _]. }
  destruct (Indexes c !! indexName) as [i0|] eqn:Hi; cbn [fst snd Documents Indexes].
  - repeat split; try done; try (by rewrite lookup_delete_ne); by eexists.
  - repeat split; try done. intros [_ [x Hx]]. discriminate Hx.
Qed.

Lemma DropIndex_outcome_witness :
  let c := (CreateIndex [] (NewCollection "users" None) "by_city" "city").1 in
  Indexes (DropIndex c "by_city").1 = delete "by_city" (Indexes c) ∧
  (DropIndex c "_id").1 = c.
Proof.
  intros c.
  destruct (DropIndex_outcome c "by_city") as (_ & _ & _ & Hok & _).
  destruct (DropIndex_outcome c "_id") as (_ & _ & _ & _ & Hfail).
  split.
  - apply Hok. vm_compute. reflexivity.
  - apply Hfail. vm_compute. discriminate.
Defined.

Lemma CreateIndex_builds_index_witness :
  let d := mkDocument "d1" {[ "city" := VStr "Oslo" ]} in
  let c := (Insert acceptAll "" (NewCollection "users" None) d).1 in
  (CreateIndex [("d1", d)] c "by_city" "city").2 = None.
Proof.
  intros d c. apply (CreateIndex_builds_index [("d1", d)] c "by_city" "city").
  - vm_compute. reflexivity.
  - split; [apply NoDup_by_decide; vm_compute; reflexivity | vm_compute; reflexivity].
Defined.

(** The indexes [updateIndexes] leaves do not depend on the order in which
    its loop visits them: every index has had the old document removed and
    the new one added, and no error comes back. *)
Theorem updateIndexes_order_independent (idxs : gmap string Index)
    (order1 order2 : list (string * Index)) (old new : option Document) :
  visits idxs order1 → visits idxs order2 →
  updateIndexes_loop order1 idxs old new = updateIndexes_loop order2 idxs old new ∧
  (updateIndexes_loop order1 idxs old new).2 = None ∧
  ∀ name idx, idxs !! name = Some idx →
    (updateIndexes_loop order1 idxs old new).1 !! name
      = Some (from_option (λ n, (AddToIndex
                                   (from_option (λ o, (RemoveFromIndex idx o).1) idx old) n).1)
                (from_option (λ o, (RemoveFromIndex idx o).1) idx old) new).
Proof.
  intros Hv1 Hv2.
  rewrite (updateIndexes_loop_visits old new idxs order1 Hv1).
  rewrite (updateIndexes_loop_visits old new idxs order2 Hv2).
  split; [done|]. split; [done|].
  intros name idx Hidx. cbn [fst]. rewrite lookup_fmap, Hidx. cbn. f_equal.
  destruct new as [n|].
  - apply updateIndex_new.
  - destruct old as [o|]; [apply updateIndex_remove | done].
Qed.

Lemma updateIndexes_order_independent_witness :
  let a := mkIndex "a" "city" ∅ in
  let b := mkIndex "b" "name" ∅ in
  let d := mkDocument "d1" {[ "city" := VStr "Oslo" ]} in
  updateIndexes_loop [("a", a); ("b", b)] (<["a" := a]> {[ "b" := b ]}) None (Some d)
    = updateIndexes_loop [("b", b); ("a", a)] (<["a" := a]> {[ "b" := b ]}) None (Some d).
Proof.
  intros a b d.
  apply (updateIndexes_order_independent (<["a" := a]> {[ "b" := b ]})).
  - split; [apply NoDup_by_decide; vm_compute; reflexivity | vm_compute; reflexivity].
  - split; [apply NoDup_by_decide; vm_compute; reflexivity | vm_compute; reflexivity].
Defined.

(** * Further properties of Find and of the filters *)

Lemma probeIndexes_hit (idxOrder : list (string * Index)) (docs : gmap string Document)
    (f : QueryFilter) (doc : Document) :
  probeIndexes idxOrder docs f = ProbeHit doc →
  ∃ name idx docID, (name, idx) ∈ idxOrder ∧ FieldName idx = Field_ f ∧
                    Index_Find idx (Value_ f) = Some docID ∧ docs !! docID = Some doc.
Proof.
  induction idxOrder as [|[name idx] rest IH]; simpl; [done|].
  assert (Hrest : probeIndexes rest docs f = ProbeHit doc →
            ∃ name0 idx0 docID, (name0, idx0) ∈ (name, idx) :: rest ∧
              FieldName idx0 = Field_ f ∧ Index_Find idx0 (Value_ f) = Some docID ∧
              docs !! docID = Some doc).
  { intros H. destruct (IH H) as (n & i & k & Hin & Hrest). exists n, i, k.
    split; [by right | done]. }
  case_decide as Hfield; [|done].
  destruct (Index_Find idx (Value_ f)) as [docID|] eqn:Hfind; [|done].
  destruct (docs !! docID) as [d|] eqn:Hdoc; [|done].
  intros [= <-]. exists name, idx, docID. split; [by left | done].
Qed.

Lemma probeIndexes_miss (idxOrder : list (string * Index)) (docs : gmap string Document)
    (f : QueryFilter) :
  probeIndexes idxOrder docs f = ProbeMiss →
  ∃ name idx, (name, idx) ∈ idxOrder ∧ FieldName idx = Field_ f ∧
              Index_Find idx (Value_ f) = None.
Proof.
  induction idxOrder as [|[name idx] rest IH]; simpl; [done|].
  assert (Hrest : probeIndexes rest docs f = ProbeMiss →
            ∃ name0 idx0, (name0, idx0) ∈ (name, idx) :: rest ∧
              FieldName idx0 = Field_ f ∧ Index_Find idx0 (Value_ f) = None).
  { intros H. destruct (IH H) as (n & i & Hin & Hrest). exists n, i.
    split; [by right | done]. }
  case_decide as Hfield; [|done].
  destruct (Index_Find idx (Value_ f)) as [docID|] eqn:Hfind.
  - destruct (docs !! docID) as [d|]; [done | done].
  - intros _. exists name, idx. split; [by left | done].
Qed.

Lemma scan_elem_of (docOrder : list (string * Document)) (keep : Document → bool)
    (d : Document) :
  d ∈ scan docOrder keep ↔ (∃ id, (id, d) ∈ docOrder) ∧ keep d = true.
Proof.
  unfold scan. rewrite list_elem_of_In, in_map_iff. split.
  - intros (d' & Hcl & Hin). rewrite Clone_id in Hcl. subst d'.
    apply filter_In in Hin as [Hin Hk]. split; [|done].
    apply in_map_iff in Hin as ([id d0] & <- & Hin). exists id. by apply list_elem_of_In.
  - intros [[id Hin] Hk]. exists d. split; [apply Clone_id|].
    apply filter_In. split; [|done]. apply in_map_iff. exists (id, d).
    split; [done | by apply list_elem_of_In].
Qed.

(** Whatever the visiting orders, skip and limit, every document [Find]
    returns is a stored document, and it passes every filter of the
    query. *)
Theorem Find_returns_stored_matching (idxOrder : list (string * Index))
    (docOrder : list (string * Document)) (c : Collection) (q : Query) (d : Document) :
  visits (Documents c) docOrder → d ∈ Find idxOrder docOrder c q →
  (∃ id, Documents c !! id = Some d) ∧ matchesAllFilters d (Filters q) = true.
Proof.
  intros Hvis. unfold Find.
  assert (Hscan : ∀ keep, d ∈ applySkipLimit q (scan docOrder keep) →
            (∃ id, Documents c !! id = Some d) ∧ keep d = true).
  { intros keep Hd%applySkipLimit_subseteq. apply scan_elem_of in Hd as [[id Hin] Hk].
    split; [|done]. exists id. by apply (visits_elem_of _ _ _ _ Hvis). }
  destruct (Filters q) as [|f rest] eqn:Hf.
  { intros Hd. by destruct (Hscan _ Hd). }
  case_decide; [|apply Hscan].
  destruct (probeIndexes idxOrder (Documents c) f) as [doc| |] eqn:Hprobe; [| |apply Hscan].
  - intros Hd%applySkipLimit_subseteq.
    rewrite list_elem_of_In, in_map_iff in Hd.
    destruct Hd as (d' & Hcl & Hin). rewrite Clone_id in Hcl. subst d'.
    apply filter_In in Hin as [Hin Hk]. destruct Hin as [<-|[]].
    apply probeIndexes_hit in Hprobe as (_ & _ & docID & _ & _ & _ & Hdoc).
    split; [by exists docID | done].
  - intros Hd. by apply elem_of_nil in Hd.
Qed.

Lemma Find_returns_stored_matching_witness :
  let oslo := mkDocument "d1" {[ "city" := VStr "Oslo" ]} in
  let rome := mkDocument "d2" {[ "city" := VStr "Rome" ]} in
  let c := mkCollection "users" None (<["d1" := oslo]> {[ "d2" := rome ]}) ∅ in
  matchesAllFilters rome [mkQueryFilter "city" "ne" (VStr "Oslo")] = true.
Proof.
  intros oslo rome c.
  apply (Find_returns_stored_matching [] [("d1", oslo); ("d2", rome)] c
           (mkQuery [mkQueryFilter "city" "ne" (VStr "Oslo")] 0 0) rome).
  - split; [apply NoDup_by_decide; vm_compute; reflexivity | vm_compute; reflexivity].
  - apply list_elem_of_In. vm_compute. left. reflexivity.
Defined.

(** Skip and limit cut the result list like [drop] and [take]: a skip that
    is not positive skips nothing, a limit that is not positive keeps
    everything. *)
Lemma applySkipLimit_drop_take (q : Query) (results : list Document) :
  applySkipLimit q results =
    if decide (Limit q > 0)
    then take (Z.to_nat (Limit q)) (drop (Z.to_nat (Skip q)) results)
    else drop (Z.to_nat (Skip q)) results.
Proof.
  unfold applySkipLimit.
  destruct (decide (Skip q > 0)) as [Hs|Hs].
  - destruct (decide (Skip q >= Z.of_nat (length results))) as [Hge|Hlt].
    + rewrite (drop_ge results) by lia. case_decide; [by rewrite take_nil | done].
    + destruct (decide (Limit q > 0)) as [Hl|Hl].
      * case_decide; [done|]. rewrite take_ge; [done|]. lia.
      * rewrite decide_False by lia. done.
  - replace (Z.to_nat (Skip q)) with 0%nat by lia. rewrite drop_0.
    destruct (decide (Limit q > 0)) as [Hl|Hl].
    + case_decide; [done|]. rewrite take_ge; [done|]. lia.
    + rewrite decide_False by lia. done.
Qed.

(** A query without filters pages through the stored documents in visiting
    order: [Find] returns the documents after the first [Skip], at most
    [Limit] of them when the limit is positive. *)
Theorem Find_all_paginates (idxOrder : list (string * Index))
    (docOrder : list (string * Document)) (c : Collection) (q : Query) :
  Filters q = [] →
  Find idxOrder docOrder c q =
    (if decide (Limit q > 0)
     then take (Z.to_nat (Limit q)) (drop (Z.to_nat (Skip q)) docOrder.*2)
     else drop (Z.to_nat (Skip q)) docOrder.*2) ∧
  (Limit q > 0 → Z.of_nat (length (Find idxOrder docOrder c q)) <= Limit q).
Proof.
  intros Hf. unfold Find. rewrite Hf, applySkipLimit_drop_take.
  assert (scan docOrder (λ _, true) = docOrder.*2) as ->.
  { unfold scan. induction docOrder as [|[id d] rest IH]; [done|].
    cbn. rewrite Clone_id. f_equal. exact IH. }
  split; [done|]. intros Hl. rewrite decide_True by done.
  rewrite length_take. lia.
Qed.

Lemma Find_all_paginates_witness :
  let oslo := mkDocument "d1" {[ "city" := VStr "Oslo" ]} in
  let rome := mkDocument "d2" {[ "city" := VStr "Rome" ]} in
  let pisa := mkDocument "d3" {[ "city" := VStr "Pisa" ]} in
  let c := mkCollection "users" None
             (<["d1" := oslo]> (<["d2" := rome]> {[ "d3" := pisa ]})) ∅ in
  Find [] [("d1", oslo); ("d2", rome); ("d3", pisa)] c (mkQuery [] 1 1) = [rome].
Proof.
  intros oslo rome pisa c.
  destruct (Find_all_paginates [] [("d1", oslo); ("d2", rome); ("d3", pisa)] c
              (mkQuery [] 1 1)) as [Heq _].
  - reflexivity.
  - exact Heq.
Defined.

Lemma matchesAllFilters_first (d : Document) (f : QueryFilter) (rest : list QueryFilter) :
  matchesAllFilters d (f :: rest) = true → matchesFilter d f = true.
Proof. simpl. by destruct (matchesFilter d f). Qed.

Lemma matchesFilter_eq_key (d : Document) (f : QueryFilter) :
  Operator f = "eq" → matchesFilter d f = true →
  ∃ v, GetValue d (Field_ f) = Some v ∧ Sprintf_v v = Sprintf_v (Value_ f).
Proof.
  intros Hop. unfold matchesFilter. rewrite Hop.
  destruct (GetValue d (Field_ f)) as [v|]; [|done].
  rewrite decide_True by done. intros H%bool_decide_eq_true. by exists v.
Qed.

Lemma filter_nothing {A : Type} (keep : A → bool) (l : list A) :
  (∀ x, x ∈ l → keep x = false) → List.filter keep l = [].
Proof.
  induction l as [|x l IH]; intros Hall; simpl; [done|].
  rewrite (Hall x) by (by left). apply IH. intros y Hy. apply Hall. by right.
Qed.

Lemma filter_only {A : Type} (keep : A → bool) (l : list A) (a : A) :
  NoDup l → a ∈ l → (∀ x, x ∈ l → keep x = true → x = a) →
  List.filter keep l = List.filter keep [a].
Proof.
  induction l as [|x l IH]; intros Hnd Hin Honly.
  { by apply elem_of_nil in Hin. }
  apply NoDup_cons in Hnd as [Hnotin Hnd]. simpl.
  destruct (keep x) eqn:Hk.
  - assert (x = a) as -> by (apply Honly; [by left | done]).
    rewrite Hk. f_equal. apply filter_nothing. intros y Hy.
    destruct (keep y) eqn:Hky; [|done].
    assert (y = a) as -> by (apply Honly; [by right | done]). done.
  - apply elem_of_cons in Hin as [->|Hin].
    + rewrite Hk. apply filter_nothing. intros y Hy.
      destruct (keep y) eqn:Hky; [|done].
      assert (y = x) as -> by (apply Honly; [by right | done]). done.
    + apply IH; [done | done |]. intros y Hy. apply Honly. by right.
Qed.

Lemma visits_values_NoDup (c : Collection) (docOrder : list (string * Document)) :
  docs_keyed c → visits (Documents c) docOrder → NoDup (List.map snd docOrder).
Proof.
  intros Hkeyed Hvis.
  assert (Hkeys : ∀ p, p ∈ docOrder → ID p.2 = p.1).
  { intros [id d] Hin. apply (visits_elem_of _ _ _ _ Hvis) in Hin. by apply Hkeyed. }
  destruct Hvis as [Hnd _]. clear Hkeyed.
  induction docOrder as [|[id d] rest IH]; [constructor|].
  rewrite fmap_cons in Hnd. apply NoDup_cons in Hnd as [Hnotin Hnd]. simpl.
  apply NoDup_cons. split.
  - intros Hin. apply Hnotin. apply list_elem_of_In, in_map_iff in Hin as ([id' d'] & Heq & Hin).
    simpl in Heq. subst d'. apply list_elem_of_In in Hin.
    pose proof (Hkeys (id, d) ltac:(left)) as H1.
    pose proof (Hkeys (id', d) ltac:(by right)) as H2. simpl in *. subst id id'.
    apply list_elem_of_fmap. by exists (ID d, d).
  - apply IH; [done|]. intros p Hp. apply Hkeys. by right.
Qed.

Lemma applySkipLimit_nil (q : Query) : applySkipLimit q [] = [].
Proof. rewrite applySkipLimit_drop_take, drop_nil, take_nil. by case_decide. Qed.

Lemma scan_ext (docOrder : list (string * Document)) (keep1 keep2 : Document → bool) :
  (∀ d, keep1 d = keep2 d) → scan docOrder keep1 = scan docOrder keep2.
Proof.
  intros Hext. unfold scan. f_equal.
  induction (List.map snd docOrder) as [|d l IH]; simpl; [done|].
  by rewrite Hext, IH.
Qed.

(** When the indexes agree with the stored documents, the index shortcut of
    [Find] is invisible: for every query the result is the one a full scan
    in the same visiting order gives, after the same skip and limit. *)
Theorem Find_index_agrees_with_scan (idxOrder : list (string * Index))
    (docOrder : list (string * Document)) (c : Collection) (q : Query) :
  docs_keyed c → indexes_agree c →
  visits (Indexes c) idxOrder → visits (Documents c) docOrder →
  Find idxOrder docOrder c q =
    applySkipLimit q (scan docOrder (λ d, matchesAllFilters d (Filters q))).
Proof.
  intros Hkeyed Hagree Hvi Hvd. unfold Find.
  destruct (Filters q) as [|f rest] eqn:Hf; [done|].
  destruct (decide (Operator f = "eq")) as [Hop|Hop]; [|done].
  set (keep := λ d, matchesAllFilters d (f :: rest)).
  assert (Hkey : ∀ name idx d0 id0, (name, idx) ∈ idxOrder → FieldName idx = Field_ f →
            Documents c !! id0 = Some d0 → keep d0 = true →
            Index_Find idx (Value_ f) = Some id0).
  { intros name idx d0 id0 Hin Hfield Hd0 Hk.
    apply (visits_elem_of _ _ _ _ Hvi) in Hin.
    apply matchesAllFilters_first, (matchesFilter_eq_key d0 f Hop) in Hk as (v & Hv & Hs).
    rewrite <- Hfield in Hv. unfold Index_Find. rewrite <- Hs.
    rewrite (Hagree name idx id0 d0 v Hin Hd0 Hv). f_equal. by apply Hkeyed. }
  destruct (probeIndexes idxOrder (Documents c) f) as [doc| |] eqn:Hprobe; [| |done].
  - apply probeIndexes_hit in Hprobe as (name & idx & docID & Hin & Hfield & Hfind & Hdoc).
    f_equal. unfold scan. f_equal. symmetry. apply filter_only.
    + by apply (visits_values_NoDup c).
    + apply list_elem_of_In, in_map_iff. exists (docID, doc). split; [done|].
      by apply list_elem_of_In, (visits_elem_of _ _ _ _ Hvd).
    + intros d0 Hd0 Hk.
      apply list_elem_of_In, in_map_iff in Hd0 as ([id0 d0'] & Heq & Hd0).
      simpl in Heq. subst d0'. apply list_elem_of_In, (visits_elem_of _ _ _ _ Hvd) in Hd0.
      pose proof (Hkey name idx d0 id0 Hin Hfield Hd0 Hk) as Hsame.
      rewrite Hfind in Hsame. injection Hsame as ->. congruence.
  - apply probeIndexes_miss in Hprobe as (name & idx & Hin & Hfield & Hfind).
    unfold scan. rewrite filter_nothing; [by rewrite applySkipLimit_nil|].
    intros d0 Hd0.
    apply list_elem_of_In, in_map_iff in Hd0 as ([id0 d0'] & Heq & Hd0).
    simpl in Heq. subst d0'. apply list_elem_of_In, (visits_elem_of _ _ _ _ Hvd) in Hd0.
    destruct (matchesAllFilters d0 (f :: rest)) eqn:Hk; [|done].
    pose proof (Hkey name idx d0 id0 Hin Hfield Hd0 Hk) as Hsame. congruence.
Qed.

Lemma Find_index_agrees_with_scan_witness :
  let oslo := mkDocument "d1" {[ "city" := VStr "Oslo" ]} in
  let rome := mkDocument "d2" {[ "city" := VStr "Rome" ]} in
  let by_city := mkIndex "by_city" "city" (<["Oslo" := "d1"]> {[ "Rome" := "d2" ]}) in
  let c := mkCollection "users" None (<["d1" := oslo]> {[ "d2" := rome ]})
             {[ "by_city" := by_city ]} in
  let q := mkQuery [mkQueryFilter "city" "eq" (VStr "Rome")] 0 0 in
  Find [("by_city", by_city)] [("d1", oslo); ("d2", rome)] c q =
    applySkipLimit q (scan [("d1", oslo); ("d2", rome)]
                        (λ d, matchesAllFilters d (Filters q))).
Proof.
  intros oslo rome by_city c q.
  apply (Find_index_agrees_with_scan [("by_city", by_city)] [("d1", oslo); ("d2", rome)] c q).
  - intros id doc Hd. cbn [c Documents] in Hd.
    apply lookup_insert_Some in Hd as [[<- <-]|[_ Hd]]; [done|].
    by apply lookup_singleton_Some in Hd as [<- <-].
  - intros name idx id doc v Hi Hd Hv. cbn [c Documents Indexes] in Hi, Hd.
    apply lookup_singleton_Some in Hi as [<- <-].
    apply lookup_insert_Some in Hd as [[<- <-]|[_ Hd]].
    + injection Hv as <-. reflexivity.
    + apply lookup_singleton_Some in Hd as [<- <-]. injection Hv as <-. reflexivity.
  - split; [apply NoDup_by_decide; vm_compute; reflexivity | vm_compute; reflexivity].
  - split; [apply NoDup_by_decide; vm_compute; reflexivity | vm_compute; reflexivity].
Defined.

Lemma String_compare_Eq (a b : string) : String.compare a b = Eq ↔ a = b.
Proof.
  split; [apply String.compare_eq_iff|]. intros <-.
  pose proof (String.compare_antisym a a) as H.
  by destruct (String.compare a a).
Qed.

(** On a document that has the field, the six comparison operators fit
    together: ne is the negation of eq, lte of gt and gte of lt; lte holds
    exactly when lt or eq does, gte when gt or eq does, and lt and gt never
    hold together. *)
Theorem comparison_operators_partition (doc : Document) (field : string) (value v : Value) :
  GetValue doc field = Some v →
  let holds := λ op, matchesFilter doc (mkQueryFilter field op value) in
  holds "ne" = negb (holds "eq") ∧
  holds "lte" = negb (holds "gt") ∧
  holds "gte" = negb (holds "lt") ∧
  holds "lte" = holds "lt" || holds "eq" ∧
  holds "gte" = holds "gt" || holds "eq" ∧
  holds "lt" && holds "gt" = false.
Proof.
  intros Hv holds. unfold holds, matchesFilter. cbn [Field_ Operator Value_].
  rewrite Hv. unfold compareValues, strings_Compare.
  repeat (rewrite decide_True by done || rewrite decide_False by done).
  destruct (decide (Sprintf_v v = Sprintf_v value)) as [Heq|Hne].
  - rewrite (bool_decide_eq_true_2 _ Heq).
    rewrite (proj2 (String_compare_Eq _ _) Heq). done.
  - rewrite (bool_decide_eq_false_2 _ Hne).
    destruct (String.compare (Sprintf_v v) (Sprintf_v value)) eqn:Hc; [|done|done].
    by apply String_compare_Eq in Hc.
Qed.

Lemma comparison_operators_partition_witness :
  matchesFilter (mkDocument "d1" {[ "age" := VInt 30 ]}) (mkQueryFilter "age" "lte" (VInt 40))
  = negb (matchesFilter (mkDocument "d1" {[ "age" := VInt 30 ]})
            (mkQueryFilter "age" "gt" (VInt 40))).
Proof.
  destruct (comparison_operators_partition (mkDocument "d1" {[ "age" := VInt 30 ]})
              "age" (VInt 40) (VInt 30)) as (_ & Hlte & _).
  - reflexivity.
  - exact Hlte.
Defined.

(** ** Schema validation (schema.go) *)

Section Validation.

Variable ValidateType : Value -> FieldType -> bool.

Local Abbreviation validateFields := (validateFields ValidateType).
Local Abbreviation ValidateDocument := (ValidateDocument ValidateType).
Local Abbreviation fieldSatisfied := (fieldSatisfied ValidateType).

Lemma validateFields_None (order : list (string * Field)) (doc : Document) :
  validateFields order doc = None ↔
  ∀ fieldName field, (fieldName, field) ∈ order → fieldSatisfied doc fieldName field.
Proof.
  induction order as [|[name field] rest IH]; simpl.
  { split; [|done]. intros _ n f Hin. by apply elem_of_nil in Hin. }
  split.
  - intros Hrun n f Hin. apply elem_of_cons in Hin as [[= -> ->]|Hin].
    + unfold fieldSatisfied. destruct (GetValue doc name) as [value|].
      * by destruct (ValidateType value (Type_ field)).
      * by destruct (Required field).
    + apply IH; [|done]. destruct (GetValue doc name) as [value|].
      * by destruct (ValidateType value (Type_ field)).
      * by destruct (Required field).
  - intros Hall. pose proof (Hall name field ltac:(left)) as Hhead.
    unfold fieldSatisfied in Hhead.
    assert (validateFields rest doc = None) as Hrest.
    { apply IH. intros n f Hin. apply Hall. by right. }
    destruct (GetValue doc name) as [value|]; by rewrite Hhead.
Qed.

(** [ValidateDocument] accepts a document exactly when every field of the
    schema is satisfied: every required field is present and every present
    field of the schema has its declared type.  Fields the schema does not
    name are not looked at, and the order in which the fields are visited
    does not change the verdict. *)
Theorem ValidateDocument_accepts_iff (s : Schema) (doc : Document)
    (order : list (string * Field)) :
  visits (Fields s) order →
  (ValidateDocument s doc = None ↔
   ∀ fieldName field, Fields s !! fieldName = Some field →
     fieldSatisfied doc fieldName field) ∧
  (validateFields order doc = None ↔ ValidateDocument s doc = None).
Proof.
  intros Hvis.
  assert (Hany : ∀ o, visits (Fields s) o →
            (validateFields o doc = None ↔
             ∀ fieldName field, Fields s !! fieldName = Some field →
               fieldSatisfied doc fieldName field)).
  { intros o Ho. rewrite validateFields_None. split.
    - intros Hall n f Hn. apply Hall. by apply (visits_elem_of _ _ _ _ Ho).
    - intros Hall n f Hin. apply Hall. by apply (visits_elem_of _ _ _ _ Ho). }
  unfold ValidateDocument. split.
  - apply Hany, visits_map_to_list.
  - by rewrite (Hany order Hvis), (Hany _ (visits_map_to_list (Fields s))).
Qed.

End Validation.

Lemma ValidateDocument_accepts_iff_witness :
  let s := mkSchema {[ "email" := mkField "string" true ]} in
  ValidateDocument acceptAll s (mkDocument "d1" {[ "name" := VStr "Ada" ]}) ≠ None.
Proof.
  intros s.
  destruct (ValidateDocument_accepts_iff acceptAll s (mkDocument "d1" {[ "name" := VStr "Ada" ]})
              [("email", mkField "string" true)]) as [Hiff _].
  - split; [apply NoDup_by_decide; vm_compute; reflexivity | vm_compute; reflexivity].
  - intros Hnone.
    pose proof (proj1 Hiff Hnone "email" (mkField "string" true)
                  ltac:(vm_compute; reflexivity)) as Hsat.
    discriminate Hsat.
Defined.

(** * Schemas and databases *)

Lemma validateSchemaFields_None (order : list (string * Field)) :
  validateSchemaFields order = None ↔
  ∀ fieldName field, (fieldName, field) ∈ order →
    fieldName ≠ "" ∧ fieldName ≠ "_id" ∧ Type_ field ∈ validTypes.
Proof.
  induction order as [|[name field] rest IH]; simpl.
  { split; [|done]. intros _ n f Hin. by apply elem_of_nil in Hin. }
  split.
  - intros Hrun n f Hin.
    destruct (decide (name = "")); [done|].
    destruct (decide (name = "_id")); [done|].
    destruct (decide (Type_ field ∈ validTypes)); [|done].
    apply elem_of_cons in Hin as [[= -> ->]|Hin]; [done|]. by apply IH.
  - intros Hall. destruct (Hall name field ltac:(left)) as (H1 & H2 & H3).
    rewrite !decide_False by done. rewrite decide_True by done.
    apply IH. intros n f Hin. apply Hall. by right.
Qed.

(** [Schema.Validate] accepts a schema exactly when it has at least one
    field and every field has a name other than the empty string and [_id]
    and one of the six field types. *)
Theorem Schema_Validate_accepts_iff (s : Schema) :
  Schema_Validate s = None ↔
  Fields s ≠ ∅ ∧
  ∀ fieldName field, Fields s !! fieldName = Some field →
    fieldName ≠ "" ∧ fieldName ≠ "_id" ∧ Type_ field ∈ validTypes.
Proof.
  unfold Schema_Validate.
  assert (Hall : validateSchemaFields (map_to_list (Fields s)) = None ↔
            ∀ fieldName field, Fields s !! fieldName = Some field →
              fieldName ≠ "" ∧ fieldName ≠ "_id" ∧ Type_ field ∈ validTypes).
  { rewrite validateSchemaFields_None. split.
    - intros H n f Hn. apply H. by apply elem_of_map_to_list.
    - intros H n f Hin. apply H. by apply elem_of_map_to_list. }
  destruct (decide (size (Fields s) = 0%nat)) as [Hempty|Hsome].
  - apply map_size_empty_iff in Hempty. split; [done|]. by intros [Hne _].
  - rewrite Hall. split; [|by intros [_ H]].
    intros H. split; [|done]. intros Hempty. apply Hsome. by rewrite Hempty, map_size_empty.
Qed.

(** Creating a collection under a free name with no schema or a valid one
    succeeds: the database then answers with a fresh collection of that
    name and schema that holds no document and only the [_id] index, and
    every other name answers as before. *)
Theorem CreateCollection_then_GetCollection (db : Database) (name : string)
    (schema : option Schema) :
  Collections db !! name = None →
  from_option Schema_Validate None schema = None →
  (CreateCollection db name schema).2 = None ∧
  (∃ coll, GetCollection (CreateCollection db name schema).1 name = inl coll ∧
           coll_Name coll = name ∧ coll_Schema coll = schema ∧ Documents coll = ∅ ∧
           Indexes coll = {[ "_id" := mkIndex "_id" "_id" ∅ ]}) ∧
  (∀ other, other ≠ name →
     GetCollection (CreateCollection db name schema).1 other = GetCollection db other).
Proof.
  intros Hfree Hvalid. unfold CreateCollection. rewrite Hfree, Hvalid. cbn [fst snd].
  split; [done|]. unfold GetCollection. cbn [Collections]. split.
  - exists (NewCollection name schema). by rewrite lookup_insert_eq.
  - intros other Hne. by rewrite lookup_insert_ne.
Qed.

(** A rejected [CreateCollection] leaves the database as it was; it is
    rejected exactly when the name is taken or the schema is invalid. *)
Theorem CreateCollection_error_leaves_database (db : Database) (name : string)
    (schema : option Schema) (e : dbError) :
  (CreateCollection db name schema).2 = Some e →
  (CreateCollection db name schema).1 = db ∧
  ((e = ErrCollectionExists name ∧ is_Some (Collections db !! name)) ∨
   (∃ se, e = ErrInvalidSchema se ∧ Collections db !! name = None ∧
          from_option Schema_Validate None schema = Some se)).
Proof.
  unfold CreateCollection.
  destruct (Collections db !! name) as [c|] eqn:Hc; cbn [fst snd].
  - intros [= <-]. split; [done|]. left. split; [done | by eexists].
  - destruct (from_option Schema_Validate None schema) as [se|] eqn:Hs; cbn [fst snd]; [|done].
    intros [= <-]. split; [done|]. right. by exists se.
Qed.

(** Dropping an existing collection succeeds; afterwards its name is
    unknown and every other name answers as before.  Dropping an unknown
    name is an error that leaves the database as it was. *)
Theorem DropCollection_outcome (db : Database) (name : string) :
  (is_Some (Collections db !! name) →
     (DropCollection db name).2 = None ∧
     GetCollection (DropCollection db name).1 name = inr (ErrCollectionMissing name) ∧
     ∀ other, other ≠ name →
       GetCollection (DropCollection db name).1 other = GetCollection db other) ∧
  (Collections db !! name = None →
     DropCollection db name = (db, Some (ErrCollectionMissing name))).
Proof.
  unfold DropCollection, GetCollection. split.
  - intros [c Hc]. rewrite Hc. cbn [fst snd Collections].
    split; [done|]. split; [by rewrite lookup_delete_eq|].
    intros other Hne. by rewrite lookup_delete_ne.
  - intros Hc. by rewrite Hc.
Qed.

Lemma CreateCollection_then_GetCollection_witness :
  (CreateCollection (NewDatabase "app") "users"
     (Some (mkSchema {[ "email" := mkField TypeString true ]}))).2 = None.
Proof.
  apply (CreateCollection_then_GetCollection (NewDatabase "app") "users"
           (Some (mkSchema {[ "email" := mkField TypeString true ]}))).
  - reflexivity.
  - vm_compute. reflexivity.
Defined.

Lemma CreateCollection_error_leaves_database_witness :
  let db := (CreateCollection (NewDatabase "app") "users" None).1 in
  (CreateCollection db "users" None).1 = db.
Proof.
  intros db.
  apply (CreateCollection_error_leaves_database db "users" None (ErrCollectionExists "users")).
  vm_compute. reflexivity.
Defined.

Lemma DropCollection_outcome_witness :
  let db := (CreateCollection (NewDatabase "app") "users" None).1 in
  (DropCollection db "users").2 = None ∧
  DropCollection (NewDatabase "app") "users"
    = (NewDatabase "app", Some (ErrCollectionMissing "users")).
Proof.
  intros db.
  destruct (DropCollection_outcome db "users") as [Hok _].
  destruct (DropCollection_outcome (NewDatabase "app") "users") as [_ Hmissing].
  split.
  - apply Hok. vm_compute. by eexists.
  - apply Hmissing. reflexivity.
Defined.

Lemma Schema_Validate_accepts_iff_witness :
  Schema_Validate (mkSchema {[ "_id" := mkField TypeString true ]}) ≠ None.
Proof.
  intros Hnone.
  destruct (proj1 (Schema_Validate_accepts_iff _) Hnone) as [_ Hall].
  destruct (Hall "_id" (mkField TypeString true) ltac:(vm_compute; reflexivity))
    as (_ & Hreserved & _).
  by apply Hreserved.
Defined.

(** * Further properties of the binary collection file *)

(** The little-endian encoders and decoders fit: decoding the bytes of a
    value gives the value reduced to the width of the field, whatever bytes
    follow, and the value itself when it is in range. *)
Theorem LittleEndian_round_trip (v : Z) (rest : bytes) :
  Uint32 (PutUint32 v ++ rest) = v mod 2 ^ 32 ∧
  Uint16 (PutUint16 v ++ rest) = v mod 2 ^ 16 ∧
  (0 <= v < 2 ^ 32 → Uint32 (PutUint32 v) = v) ∧
  (0 <= v < 2 ^ 16 → Uint16 (PutUint16 v) = v).
Proof.
  unfold Uint32, Uint16, PutUint32, PutUint16.
  assert (H32 : ∀ tail, le_value (take 4 (le_bytes 4 v ++ tail)) = v mod 2 ^ 32).
  { intros tail. rewrite take_app_length' by (by rewrite le_bytes_length).
    by rewrite le_value_le_bytes. }
  assert (H16 : ∀ tail, le_value (take 2 (le_bytes 2 v ++ tail)) = v mod 2 ^ 16).
  { intros tail. rewrite take_app_length' by (by rewrite le_bytes_length).
    by rewrite le_value_le_bytes. }
  split; [apply H32|]. split; [apply H16|]. split.
  - intros Hr. rewrite <- (app_nil_r (le_bytes 4 v)), H32. by apply Z.mod_small.
  - intros Hr. rewrite <- (app_nil_r (le_bytes 2 v)), H16. by apply Z.mod_small.
Qed.

Lemma LittleEndian_round_trip_witness : Uint32 (PutUint32 CollectionMagic) = CollectionMagic.
Proof.
  destruct (LittleEndian_round_trip CollectionMagic []) as (_ & _ & H & _).
  apply H. unfold CollectionMagic. lia.
Defined.

(** The sidecar written for an offset index of fewer than 2^32 entries
    loads as that offset index; a directory without sidecar loads as the
    empty offset index. *)
Theorem OffsetIndex_round_trip (index : OffsetIndex) (dir : CollDir) :
  Z.of_nat (size index) < 2 ^ 32 →
  LoadOffsetIndex (SaveOffsetIndex index dir) = Some index ∧
  LoadOffsetIndex emptyDir = Some ∅.
Proof.
  intros Hfit. split; [|done].
  unfold LoadOffsetIndex, SaveOffsetIndex, uint32. cbn [idxFile numEntries records].
  rewrite Z.mod_small by lia. rewrite Nat2Z.id.
  replace (size index) with (length (map_to_list index)) by apply length_map_to_list.
  rewrite readEntries_all by apply NoDup_fst_map_to_list.
  by rewrite list_to_map_to_list, (right_id_L ∅ (∪)).
Qed.

Lemma OffsetIndex_round_trip_witness :
  let index : OffsetIndex :=
    <["d1" := mkDocumentEntry 8 2 2 7]> {[ "d2" := mkDocumentEntry 30 5 5 9 ]} in
  LoadOffsetIndex (SaveOffsetIndex index emptyDir) = Some index.
Proof.
  intros index. apply (OffsetIndex_round_trip index emptyDir).
  vm_compute. reflexivity.
Defined.

(** A reader opens exactly when the data file exists, holds at least the
    eight header bytes, starts with the magic number and the sidecar loads;
    the version and the flags of the header play no part. *)
Theorem reader_opens_iff (dir : CollDir) (r : BinaryCollectionReader) :
  NewBinaryCollectionReader dir = inl r ↔
  dataFile dir = Some (r_dataFile r) ∧ HeaderSize <= blen (r_dataFile r) ∧
  Uint32 (r_dataFile r) = CollectionMagic ∧ LoadOffsetIndex dir = Some (r_index r).
Proof.
  destruct r as [rf ri]. cbn [r_dataFile r_index].
  unfold NewBinaryCollectionReader, readHeader, File_ReadAt.
  destruct (dataFile dir) as [f|]; [|by split; [|intros [? _]]].
  assert (Hmagic : Uint32 (slice (take (Z.to_nat HeaderSize) (drop (Z.to_nat 0) f)) 0 4)
                   = Uint32 f).
  { unfold Uint32, slice. cbn [Z.to_nat Pos.to_nat]. rewrite !drop_0.
    change (Z.to_nat HeaderSize) with 8%nat. change (4 - 0)%nat with 4%nat.
    by rewrite !take_take. }
  destruct (decide (0 <= 0 ∧ (HeaderSize = 0 ∨ 0 <= HeaderSize ∧ 0 + HeaderSize <= blen f)))
    as [Hlen|Hshort].
  - cbn [Magic]. rewrite Hmagic.
    destruct (decide (Uint32 f ≠ CollectionMagic)) as [Hbad|Hgood].
    + split; [done|]. intros ([= ->] & _ & Hm & _). done.
    + apply dec_stable in Hgood.
      destruct (LoadOffsetIndex dir) as [index|].
      * split.
        -- intros [= -> ->]. split; [done|]. split; [|done].
           destruct Hlen as [_ [H0| [_ H]]]; [done | lia].
        -- by intros ([= ->] & _ & _ & [= ->]).
      * split; [done|]. by intros (_ & _ & _ & H).
  - split; [done|]. intros ([= ->] & Hlen & _). exfalso. apply Hshort.
    split; [lia|]. right. unfold HeaderSize in *. lia.
Qed.

Lemma reader_opens_iff_witness :
  NewBinaryCollectionReader (mkCollDir None (Some [1; 2; 3]) None None None)
    ≠ inl (mkReader [1; 2; 3] ∅).
Proof.
  intros Hopen.
  destruct (proj1 (reader_opens_iff _ _) Hopen) as (_ & Hlen & _).
  vm_compute in Hlen. by apply Hlen.
Defined.

(** * Saving a collection into an empty directory and loading it *)



Section FirstSave.

Variable crc32_ChecksumIEEE : bytes -> Z.
Variable Compress : bytes -> option bytes.
Variable Decompress : bytes -> option bytes.
Variable MarshalJSON : Document -> option bytes.
Variable UnmarshalJSON : bytes -> option Document.
Variable WriteFile_elsewhere : Index -> CollDir -> CollDir * option ioerror.

Local Abbreviation entryHeader := (entryHeader crc32_ChecksumIEEE).
Local Abbreviation WriteDocument := (WriteDocument crc32_ChecksumIEEE Compress MarshalJSON).
Local Abbreviation writeAll := (writeAll crc32_ChecksumIEEE Compress MarshalJSON).
Local Abbreviation ReadDocument := (ReadDocument crc32_ChecksumIEEE Decompress UnmarshalJSON).
Local Abbreviation readAll := (readAll crc32_ChecksumIEEE Decompress UnmarshalJSON).
Local Abbreviation saveIndexes := (saveIndexes WriteFile_elsewhere).
Local Abbreviation SaveCollection :=
  (SaveCollection crc32_ChecksumIEEE Compress MarshalJSON WriteFile_elsewhere).
Local Abbreviation LoadCollection := (LoadCollection crc32_ChecksumIEEE Decompress UnmarshalJSON).

(** A document the codec and the JSON form carry through a record: its
    JSON form compresses, the compressed form fits the 32-bit size field
    with its header, and decompressing and decoding give the document
    back. *)
Definition storable (d : Document) : Prop :=
  ∃ jsonData compressedData,
    MarshalJSON d = Some jsonData ∧ Compress jsonData = Some compressedData ∧
    Decompress compressedData = Some jsonData ∧ UnmarshalJSON jsonData = Some d ∧
    DocEntryHeaderSize + blen compressedData < 2 ^ 32.

(** The writer appends: its handle is at the end of the file, its offset is
    the size of the file, the file starts with the header, and every entry
    of its offset index reads as the document [m] holds under that id, also
    when more bytes follow. *)
Definition appending (w : BinaryCollectionWriter) (m : gmap string Document) : Prop :=
  pos (w_dataFile w) = length (content (w_dataFile w)) ∧
  w_offset w = blen (content (w_dataFile w)) ∧
  (∃ tail, content (w_dataFile w) = headerBytes ++ tail) ∧
  dom (w_index w) = dom m ∧
  ∀ id entry doc after r,
    w_index w !! id = Some entry → m !! id = Some doc →
    r_dataFile r = content (w_dataFile w) ++ after → r_index r !! id = Some entry →
    ReadDocument r id = inl doc.

Lemma appending_fresh : appending (mkWriter (mkFile headerBytes 8) HeaderSize ∅) ∅.
Proof.
  split; [done|]. split; [done|]. split; [by exists []|]. split; [by rewrite !dom_empty_L|].
  intros id entry doc after r Hentry. cbn [w_index] in Hentry.
  by rewrite lookup_empty in Hentry.
Qed.

Lemma ReadDocument_same_entry (r1 r2 : BinaryCollectionReader) (id : string) :
  r_dataFile r1 = r_dataFile r2 → r_index r1 !! id = r_index r2 !! id →
  ReadDocument r1 id = ReadDocument r2 id.
Proof. intros Hf Hi. unfold ReadDocument. by rewrite Hf, Hi. Qed.

Lemma appending_WriteDocument (w : BinaryCollectionWriter) (m : gmap string Document)
    (d : Document) :
  appending w m → storable d → m !! ID d = None →
  blen (content (w_dataFile w)) + 2 ^ 32 < 2 ^ 63 →
  ∃ w', WriteDocument w d = inl w' ∧ appending w' (<[ID d := d]> m) ∧
        blen (content (w_dataFile w')) <= blen (content (w_dataFile w)) + 2 ^ 32.
Proof.
  intros (Hpos & Hoff & [tail Hhead] & Hdom & Hreads) (j & p & Hj & Hc & Hd & Hu & Hfit)
    Hfresh Hroom.
  eexists. split; [by apply WriteDocument_ok|].
  pose proof (entryHeader_length crc32_ChecksumIEEE (w_offset w) j p) as Hlen.
  assert (content (File_Write (w_dataFile w) (entryHeader (w_offset w) j p ++ p))
          = content (w_dataFile w) ++ entryHeader (w_offset w) j p ++ p) as Hcontent
    by (by apply File_Write_at_end).
  assert (blen (content (w_dataFile w) ++ entryHeader (w_offset w) j p ++ p)
          = blen (content (w_dataFile w)) + (DocEntryHeaderSize + blen p)) as Hsize.
  { unfold blen in *. rewrite !length_app. lia. }
  split; [|cbn [w_dataFile]; rewrite Hcontent, Hsize; unfold blen, DocEntryHeaderSize in *; lia].
  split; [|split; [|split; [|split]]]; cbn [w_dataFile w_offset w_index].
  - rewrite Hcontent. unfold File_Write. cbn [pos]. rewrite Hpos, !length_app. lia.
  - rewrite Hcontent, Hsize, Hoff. unfold int64, blen, DocEntryHeaderSize in *.
    rewrite (Z.mod_small (20 + Z.of_nat (length p) + 2 ^ 63)) by lia.
    replace (20 + Z.of_nat (length p) + 2 ^ 63 - 2 ^ 63) with (20 + Z.of_nat (length p)) by lia.
    rewrite Z.mod_small by lia. lia.
  - exists (tail ++ entryHeader (w_offset w) j p ++ p).
    by rewrite Hcontent, Hhead, <- app_assoc.
  - by rewrite !dom_insert_L, Hdom.
  - intros id entry doc after r Hentry Hdoc Hfile Hidx.
    rewrite Hcontent in Hfile.
    destruct (decide (ID d = id)) as [<-|Hne].
    + rewrite lookup_insert_eq in Hentry. rewrite lookup_insert_eq in Hdoc.
      injection Hentry as <-. injection Hdoc as <-.
      apply (ReadDocument_record crc32_ChecksumIEEE Decompress UnmarshalJSON r (ID d) d
               (w_offset w) j p (content (w_dataFile w)) after); try done.
      by rewrite Hfile, <- !app_assoc.
    + rewrite lookup_insert_ne in Hentry by done. rewrite lookup_insert_ne in Hdoc by done.
      apply (Hreads id entry doc ((entryHeader (w_offset w) j p ++ p) ++ after) r);
        try done.
      by rewrite Hfile, <- !app_assoc.
Qed.






(** A record written at the end of the file reads back as the document it
    was written from, and the records written before it still read as their
    documents. *)
Theorem WriteDocument_then_ReadDocument (w : BinaryCollectionWriter)
    (m : gmap string Document) (d : Document) :
  appending w m → storable d → m !! ID d = None →
  blen (content (w_dataFile w)) + 2 ^ 32 < 2 ^ 63 →
  ∃ w', WriteDocument w d = inl w' ∧
        ReadDocument (mkReader (content (w_dataFile w')) (w_index w')) (ID d) = inl d ∧
        ∀ id doc, m !! id = Some doc →
          ReadDocument (mkReader (content (w_dataFile w')) (w_index w')) id = inl doc.
Proof.
  intros Hgood Hstore Hfresh Hroom.
  destruct (appending_WriteDocument w m d Hgood Hstore Hfresh Hroom)
    as (w' & Hwrite & (_ & _ & _ & Hdom & Hreads) & _).
  exists w'. split; [done|].
  assert (∀ id doc, <[ID d := d]> m !! id = Some doc →
            ReadDocument (mkReader (content (w_dataFile w')) (w_index w')) id = inl doc)
    as Hall.
  { intros id doc Hdoc.
    assert (is_Some (w_index w' !! id)) as [entry Hentry].
    { apply elem_of_dom. rewrite Hdom. apply elem_of_dom. by eexists. }
    apply (Hreads id entry doc []); [done | done | by rewrite app_nil_r | done]. }
  split.
  - apply Hall, lookup_insert_eq.
  - intros id doc Hdoc. apply Hall. rewrite lookup_insert_ne; [done|].
    intros <-. by rewrite Hfresh in Hdoc.
Qed.

End FirstSave.

Lemma storable_idBytes (id : string) :
  id = "d1" ∨ id = "d2" → storable storeRaw storeRaw idBytes idDocument (mkDocument id ∅).
Proof.
  intros [->| ->].
  - exists [100; 49], [100; 49]. repeat split; vm_compute; reflexivity.
  - exists [100; 50], [100; 50]. repeat split; vm_compute; reflexivity.
Qed.

Lemma WriteDocument_then_ReadDocument_witness :
  let d1 := mkDocument "d1" ∅ in
  let d2 := mkDocument "d2" ∅ in
  ∃ w1 w2,
    WriteDocument sum32 storeRaw idBytes (mkWriter (mkFile headerBytes 8) HeaderSize ∅) d1
      = inl w1 ∧
    WriteDocument sum32 storeRaw idBytes w1 d2 = inl w2 ∧
    ReadDocument sum32 storeRaw idDocument
      (mkReader (content (w_dataFile w2)) (w_index w2)) "d2" = inl d2 ∧
    ReadDocument sum32 storeRaw idDocument
      (mkReader (content (w_dataFile w2)) (w_index w2)) "d1" = inl d1.
Proof.
  intros d1 d2.
  destruct (appending_WriteDocument sum32 storeRaw storeRaw idBytes idDocument
              (mkWriter (mkFile headerBytes 8) HeaderSize ∅) ∅ d1)
    as (w1 & Hw1 & Hgood1 & Hsize1).
  - apply appending_fresh.
  - apply storable_idBytes. by left.
  - apply lookup_empty.
  - vm_compute. reflexivity.
  - destruct (WriteDocument_then_ReadDocument sum32 storeRaw storeRaw idBytes idDocument
                w1 (<["d1" := d1]> ∅) d2) as (w2 & Hw2 & Hnew & Hold).
    + exact Hgood1.
    + apply storable_idBytes. by right.
    + reflexivity.
    + change (blen (content (w_dataFile (mkWriter (mkFile headerBytes 8) HeaderSize ∅))))
        with 8 in Hsize1. lia.
    + exists w1, w2. split; [exact Hw1|]. split; [exact Hw2|]. split; [exact Hnew|].
      apply Hold. reflexivity.
Defined.


